(** * OpenOPC client session: tag groups, handle maps and the read protocol

    A shallow embedding of [Client] (src/old_client.py): the session state
    is a record of finite maps, the OPC automation server is an interface
    (a type class over the server's state), and the methods [iread],
    [read], [iwrite] and [remove] are functions in a state-and-exception
    monad over the pair of both.  Python exceptions keep every mutation
    made before they were raised, so a computation always returns the
    final world next to its outcome. *)

From stdpp Require Import gmap strings list fin_maps pretty.
From Stdlib Require Import ZArith Lia Ascii.

Open Scope Z_scope.

(** ** Python data *)

Definition tag := string.

(** The exceptions the client can raise.  [com_error] is
    [pythoncom.com_error], carrying the HRESULT of the failed call. *)
Inductive exn :=
| com_error (hr : Z)
| TypeError (msg : string)
| AttributeError (msg : string)
| Exception (msg : string)
| IndexError
| KeyError
| NameError
| ValueError.

(** Outcome of a computation: a value, a raised exception, or [Spinning]
    when a [while] loop is still running after the iterations it was
    given. *)
Inductive outcome (A : Type) :=
| Ok (a : A)
| Raise (e : exn)
| Spinning.
Arguments Ok {A} a.
Arguments Raise {A} e.
Arguments Spinning {A}.

(** [l[i]] for a non-negative index. *)
Definition py_index {A} (l : list A) (i : nat) : outcome A :=
  match l !! i with
  | Some x => Ok x
  | None => Raise IndexError
  end.

(** [d[k]] on a dict. *)
Definition py_getitem `{Countable K} {V} (d : gmap K V) (k : K) : outcome V :=
  match d !! k with
  | Some v => Ok v
  | None => Raise KeyError
  end.

(** [range(0, stop, step)] for a positive step: the loop
    [i = 0; while i < stop: yield i; i += step].  At most [stop] values
    are produced, which bounds the recursion. *)
Fixpoint py_range_from (fuel i stop step : nat) : list nat :=
  match fuel with
  | O => []
  | S fuel' =>
      if (i <? stop)%nat then i :: py_range_from fuel' (i + step) stop step
      else []
  end.

Definition py_range (stop step : nat) : list nat :=
  py_range_from stop 0 stop step.

(** [l[i:j]] for [0 <= i <= j]. *)
Definition py_slice {A} (l : list A) (i j : nat) : list A :=
  take (j - i) (drop i l).

(** [[tags[i:i + size] for i in range(0, len(tags), size)]].  A negative
    step gives an empty range, hence no chunk at all. *)
Definition chunks {A} (l : list A) (size : Z) : list (list A) :=
  if decide (0 < size) then
    let s := Z.to_nat size in
    (λ i, py_slice l i (i + s)) <$> py_range (length l) s
  else [].

(** [max(l)] of a sequence of integers. *)
Definition py_max (l : list Z) : outcome Z :=
  match l with
  | [] => Raise ValueError
  | x :: l' => Ok (foldl Z.max x l')
  end.

(** [s.strip('\r\n')]: drop the carriage returns and line feeds at both
    ends. *)
Definition is_crlf (c : ascii) : bool :=
  (nat_of_ascii c =? 10)%nat || (nat_of_ascii c =? 13)%nat.

Fixpoint lstrip_crlf (s : string) : string :=
  match s with
  | String c s' => if is_crlf c then lstrip_crlf s' else s
  | EmptyString => EmptyString
  end.

Definition strip_crlf (s : string) : string :=
  String.rev (lstrip_crlf (String.rev (lstrip_crlf s))).

(** Values read from the server.  [VTime] is a [pywintypes.TimeType]
    value, which the client turns into text. *)
Inductive value :=
| VInt (z : Z)
| VStr (s : string)
| VTime (t : Z).

(** ** The transaction counter (lines 421-423) *)

Definition next_tx_id (tx_id : Z) : Z :=
  let tx_id := if decide (tx_id >= 65535) then 0 else tx_id in
  tx_id + 1.

(** ** Session state ([Client.__init__], lines 35-79) *)

(** A sub-group key: [None] for the anonymous group, ['%s.%d' % (group,
    gid)] for a named one. *)
Definition subgroup := option string.

Definition sub_name (group : string) (gid : nat) : string :=
  group +:+ "." +:+ pretty gid.

(** One message of the callback queue, as [GroupEvents] puts it:
    [(TransactionID, ClientHandles, ItemValues, Qualities, TimeStamps)]. *)
Record callback := {
  cb_tx : Z;
  cb_handles : list Z;
  cb_values : list value;
  cb_qualities : list Z;
  cb_timestamps : list Z
}.

(** An event hook ([win32com.client.WithEvents]); [close()] marks it. *)
Inductive hook := HookOpen | HookClosed.

Record Client := {
  callback_queue : list callback;
  _groups : gmap string nat;
  _group_tags : gmap subgroup (list tag);
  _group_valid_tags : gmap subgroup (list tag);
  _group_server_handles : gmap subgroup (gmap tag Z);
  _group_handles_tag : gmap subgroup (gmap Z tag);
  _group_hooks : gmap string hook;
  _tx_id : Z
}.

Definition new_client : Client :=
  {| callback_queue := []; _groups := ∅; _group_tags := ∅;
     _group_valid_tags := ∅; _group_server_handles := ∅;
     _group_handles_tag := ∅; _group_hooks := ∅; _tx_id := 0 |}.

Definition set_callback_queue (q : list callback) (c : Client) : Client :=
  {| callback_queue := q; _groups := _groups c; _group_tags := _group_tags c;
     _group_valid_tags := _group_valid_tags c;
     _group_server_handles := _group_server_handles c;
     _group_handles_tag := _group_handles_tag c;
     _group_hooks := _group_hooks c; _tx_id := _tx_id c |}.

Definition set_groups (g : gmap string nat) (c : Client) : Client :=
  {| callback_queue := callback_queue c; _groups := g;
     _group_tags := _group_tags c;
     _group_valid_tags := _group_valid_tags c;
     _group_server_handles := _group_server_handles c;
     _group_handles_tag := _group_handles_tag c;
     _group_hooks := _group_hooks c; _tx_id := _tx_id c |}.

Definition set_group_tags (m : gmap subgroup (list tag)) (c : Client) : Client :=
  {| callback_queue := callback_queue c; _groups := _groups c;
     _group_tags := m;
     _group_valid_tags := _group_valid_tags c;
     _group_server_handles := _group_server_handles c;
     _group_handles_tag := _group_handles_tag c;
     _group_hooks := _group_hooks c; _tx_id := _tx_id c |}.

Definition set_group_valid_tags (m : gmap subgroup (list tag)) (c : Client) : Client :=
  {| callback_queue := callback_queue c; _groups := _groups c;
     _group_tags := _group_tags c;
     _group_valid_tags := m;
     _group_server_handles := _group_server_handles c;
     _group_handles_tag := _group_handles_tag c;
     _group_hooks := _group_hooks c; _tx_id := _tx_id c |}.

Definition set_group_server_handles (m : gmap subgroup (gmap tag Z)) (c : Client) : Client :=
  {| callback_queue := callback_queue c; _groups := _groups c;
     _group_tags := _group_tags c;
     _group_valid_tags := _group_valid_tags c;
     _group_server_handles := m;
     _group_handles_tag := _group_handles_tag c;
     _group_hooks := _group_hooks c; _tx_id := _tx_id c |}.

Definition set_group_handles_tag (m : gmap subgroup (gmap Z tag)) (c : Client) : Client :=
  {| callback_queue := callback_queue c; _groups := _groups c;
     _group_tags := _group_tags c;
     _group_valid_tags := _group_valid_tags c;
     _group_server_handles := _group_server_handles c;
     _group_handles_tag := m;
     _group_hooks := _group_hooks c; _tx_id := _tx_id c |}.

Definition set_group_hooks (m : gmap string hook) (c : Client) : Client :=
  {| callback_queue := callback_queue c; _groups := _groups c;
     _group_tags := _group_tags c;
     _group_valid_tags := _group_valid_tags c;
     _group_server_handles := _group_server_handles c;
     _group_handles_tag := _group_handles_tag c;
     _group_hooks := m; _tx_id := _tx_id c |}.

Definition set_tx_id (n : Z) (c : Client) : Client :=
  {| callback_queue := callback_queue c; _groups := _groups c;
     _group_tags := _group_tags c;
     _group_valid_tags := _group_valid_tags c;
     _group_server_handles := _group_server_handles c;
     _group_handles_tag := _group_handles_tag c;
     _group_hooks := _group_hooks c; _tx_id := n |}.

(** ** The OPC automation server *)

(** A COM call returns its value or fails with a [com_error]. *)
Inductive com_result (A : Type) :=
| ComOk (a : A)
| ComFail (hr : Z).
Arguments ComOk {A} a.
Arguments ComFail {A} hr.

(** An [OPCGroup] automation object, known by its [Name]. *)
Record OPCGroup := { Name : string }.

(** The calls the client makes on the automation objects, on the clock
    and on the COM message pump, over the state [R] of everything outside
    the client.  COM arrays are 1-based and the client pads index 0 with a
    placeholder; a call takes the element count it is given and the
    elements after the placeholder. *)
Class OPCServer (R : Type) := {
  CoInitialize : R → R * com_result unit;
  SetDefaultGroupUpdateRate : Z → R → R;
  GroupsAdd : option string → R → R * com_result OPCGroup;
  GetOPCGroup : string → R → R * com_result OPCGroup;
  GroupsRemove : string → R → R * com_result unit;
  SetSubscribedActive : OPCGroup → R → R;
  ItemServerHandles : OPCGroup → R → list Z;
  Validate : OPCGroup → Z → list tag → R → R * com_result (list Z);
  AddItems : OPCGroup → Z → list tag → list Z → R →
             R * com_result (list Z * list Z);
  RemoveItems : OPCGroup → Z → list Z → R → R * com_result (list Z);
  SyncRead : OPCGroup → Z → Z → list Z → R →
             R * com_result (list value * list Z * list Z * list Z);
  SyncWrite : OPCGroup → Z → list Z → list value → R →
              R * com_result (list Z);
  AsyncRefresh : OPCGroup → Z → Z → R → R * com_result unit;
  GetErrorString : Z → string;
  time_ms : R → R * Z;
  PumpWaitingMessages : R → R * list callback;
  sleep_ms : Z → R → R
}.

(** What [from .Common import *] provides and the client uses: the two
    data-source constants, the quality decoder, and Python's [str] on a
    timestamp. *)
Class Common := {
  SOURCE_CACHE : Z;
  SOURCE_DEVICE : Z;
  quality_str : Z → string;
  str_time : Z → string
}.

(** The calls made so far, oldest first.  The log is not part of the
    client: it records each interaction with the outside so that
    statements can speak about which calls a method makes. *)
Inductive event :=
| EvCoInitialize
| EvSetUpdateRate (update : Z)
| EvAddGroup (name : option string)
| EvGetOPCGroup (name : string) (found : bool)
| EvRemoveGroup (name : string)
| EvSubscribe (g : string)
| EvWithEvents (g : string)
| EvCloseEvents (g : string)
| EvValidate (g : string) (names : list tag)
| EvAddItems (g : string) (tags : list tag) (client_handles : list Z)
| EvRemoveItems (g : string) (server_handles : list Z)
| EvSyncRead (g : string) (data_source : Z) (server_handles : list Z)
| EvSyncWrite (g : string) (server_handles : list Z) (values : list value)
| EvAsyncRefresh (g : string) (data_source : Z) (tx : Z)
| EvTime (now : Z)
| EvPump (msgs : list callback)
| EvQueueGet (msg : callback)
| EvSleep (ms : Z).

Record world (R : Type) := World {
  client : Client;
  server : R;
  log : list event
}.
Arguments World {R} _ _ _.
Arguments client {R} _.
Arguments server {R} _.
Arguments log {R} _.

(** ** The state-and-exception monad *)

Definition M (R A : Type) : Type := world R → world R * outcome A.

Definition ret {R A} (a : A) : M R A := λ w, (w, Ok a).

Definition raise {R A} (e : exn) : M R A := λ w, (w, Raise e).

Definition bind {R A B} (m : M R A) (f : A → M R B) : M R B :=
  λ w, match m w with
       | (w', Ok a) => f a w'
       | (w', Raise e) => (w', Raise e)
       | (w', Spinning) => (w', Spinning)
       end.

Notation "x <~ m ;; k" := (bind m (λ x, k))
  (at level 100, m at next level, right associativity).
Notation "m ;;; k" := (bind m (λ _, k))
  (at level 100, right associativity).

(** A pure computation that may raise. *)
Definition lift {R A} (o : outcome A) : M R A := λ w, (w, o).

Definition gets {R A} (f : Client → A) : M R A := λ w, (w, Ok (f (client w))).

Definition modify {R} (f : Client → Client) : M R unit :=
  λ w, (World (f (client w)) (server w) (log w), Ok tt).

(** A call that changes the outside and returns a value. *)
Definition call {R A} (ev : A → event) (op : R → R * A) : M R A :=
  λ w, let '(r, a) := op (server w) in
       (World (client w) r (log w ++ [ev a]), Ok a).

(** A property write or a call whose value is not used. *)
Definition tell {R} (ev : event) (op : R → R) : M R unit :=
  λ w, (World (client w) (op (server w)) (log w ++ [ev]), Ok tt).

(** [try: x = f() / except pythoncom.com_error: print(...); raise], and
    an unguarded COM call: the error propagates. *)
Definition com {R A} (m : M R (com_result A)) : M R A :=
  r <~ m ;;
  match r with
  | ComOk a => ret a
  | ComFail hr => raise (com_error hr)
  end.

(** [try: x = f() / except: pass], with [x] set beforehand. *)
Definition com_or {R A} (default : A) (m : M R (com_result A)) : M R A :=
  r <~ m ;;
  match r with
  | ComOk a => ret a
  | ComFail _ => ret default
  end.

(** ** Arguments *)

(** The shapes of the [tags] argument of [read] and [iread]. *)
Inductive tags_arg :=
| TagsNone
| TagsStr (t : tag)
| TagsList (l : list tag)
| TagsOther.

(** Modelled from the spec: [Common.type_check] is imported, not defined
    in the client.  It returns [(tags, single, valid)]: a bare tag name
    is a single request and becomes a one-element list, a collection of
    names is taken as it is, no argument is the empty collection, and any
    other shape is not valid. *)
Definition type_check (tags : tags_arg) : list tag * bool * bool :=
  match tags with
  | TagsNone => ([], false, true)
  | TagsStr t => ([t], true, true)
  | TagsList l => (l, false, true)
  | TagsOther => ([], false, false)
  end.

(** The keyword arguments of [read] and [iread] (lines 182-183). *)
Module Arg.
Record t := Make {
  group : option string;
  size : option Z;
  pause : Z;
  source : string;
  update : Z;
  timeout : Z;
  sync : bool;
  include_error : bool;
  rebuild : bool
}.

Definition default : t :=
  {| group := None; size := None; pause := 0; source := "hybrid";
     update := -1; timeout := 5000; sync := false; include_error := false;
     rebuild := false |}.
End Arg.

(** One element of the list [iread] returns: [(value, quality,
    timestamp)], with the tag in front unless the request was a single
    name, and the error message at the end when [include_error] is
    set. *)
Record record := Rec {
  r_tag : option tag;
  r_value : option value;
  r_quality : string;
  r_timestamp : option string;
  r_error : option string
}.

(** The four per-tag dictionaries of one sub-group's read. *)
Record tagmaps := TagMaps {
  tag_value : gmap tag value;
  tag_quality : gmap tag Z;
  tag_time : gmap tag Z;
  tag_error : gmap tag Z
}.

Definition no_tagmaps : tagmaps := TagMaps ∅ ∅ ∅ ∅.

(** The locals of [iread] that live across the iterations of its
    [for gid] loop: [data_source], [server_handles] (unbound until first
    assigned) and the last message unpacked from the callback queue. *)
Record locals := Locals {
  data_source : Z;
  server_handles : option (list Z);
  last_msg : option callback
}.

Global Instance outcome_ret : MRet outcome := λ A a, Ok a.

Global Instance outcome_bind : MBind outcome := λ A B f o,
  match o with
  | Ok a => f a
  | Raise e => Raise e
  | Spinning => Spinning
  end.

(** [x in b] for a [bool]: a [bool] is neither a container nor
    iterable. *)
Definition py_in_bool (x : tag) (b : bool) : outcome bool :=
  Raise (TypeError "argument of type 'bool' is not iterable").

Section Client.
Context `{Common} {R : Type} `{!OPCServer R}.

Local Abbreviation M := (M R).

Definition note (ev : event) : M unit :=
  λ w, (World (client w) (server w) (log w ++ [ev]), Ok tt).

(** Reading a property of an automation object. *)
Definition ask {A} (f : R → A) : M A := λ w, (w, Ok (f (server w))).

Definition dict_get `{Countable K} {V} (f : Client → gmap K V) (k : K) : M V :=
  d <~ gets f ;; lift (py_getitem d k).

(** *** [add_items] (lines 186-252) *)

(** The first loop, lines 211-220. *)
Fixpoint assign_handles (sub_group : subgroup) (include_error : bool)
    (errors : list Z) (i : nat) (tags : list tag) (n : Z)
    (valid_tags : list tag) (client_handles : list Z)
    (error_msgs : gmap tag string)
  : M (list tag * list Z * gmap tag string) :=
  match tags with
  | [] => ret (valid_tags, client_handles, error_msgs)
  | tag :: tags' =>
      e <~ lift (py_index errors i) ;;
      if decide (e = 0) then
        hm <~ dict_get _group_handles_tag sub_group ;;
        modify (λ c, set_group_handles_tag
                       (<[sub_group := <[n := tag]> hm]> (_group_handles_tag c)) c) ;;;
        assign_handles sub_group include_error errors (S i) tags' (n + 1)
          (valid_tags ++ [tag]) (client_handles ++ [n]) error_msgs
      else if include_error then
        assign_handles sub_group include_error errors (S i) tags' n
          valid_tags client_handles (<[tag := GetErrorString e]> error_msgs)
      else
        assign_handles sub_group include_error errors (S i) tags' n
          valid_tags client_handles error_msgs
  end.

(** The second loop, lines 241-247. *)
Fixpoint record_server_handles (sub_group : subgroup) (include_error : bool)
    (errors server_handles : list Z) (i : nat) (valid_tags : list tag)
    (valid_tags_tmp : list tag) (server_handles_tmp : list Z)
    (error_msgs : gmap tag string)
  : M (list tag * list Z * gmap tag string) :=
  match valid_tags with
  | [] => ret (valid_tags_tmp, server_handles_tmp, error_msgs)
  | tag :: tags' =>
      e <~ lift (py_index errors i) ;;
      if decide (e = 0) then
        h <~ lift (py_index server_handles i) ;;
        sm <~ dict_get _group_server_handles sub_group ;;
        modify (λ c, set_group_server_handles
                       (<[sub_group := <[tag := h]> sm]> (_group_server_handles c)) c) ;;;
        record_server_handles sub_group include_error errors server_handles
          (S i) tags' (valid_tags_tmp ++ [tag]) (server_handles_tmp ++ [h])
          error_msgs
      else if include_error then
        record_server_handles sub_group include_error errors server_handles
          (S i) tags' valid_tags_tmp server_handles_tmp
          (<[tag := GetErrorString e]> error_msgs)
      else
        record_server_handles sub_group include_error errors server_handles
          (S i) tags' valid_tags_tmp server_handles_tmp error_msgs
  end.

(** Lines 203-209: the first client handle to hand out. *)
Definition first_handle (sub_group : subgroup) : M Z :=
  handles_tag <~ gets _group_handles_tag ;;
  match handles_tag !! sub_group with
  | None =>
      modify (set_group_handles_tag (<[sub_group := ∅]> handles_tag)) ;;;
      ret 0
  | Some hm =>
      if decide (0 < size hm)%nat then
        m <~ lift (py_max ((map_to_list hm).*1)) ;;
        ret (m + 1)
      else ret 0
  end.

Definition add_items (opc_group : OPCGroup) (sub_group : subgroup)
    (include_error : bool) (error_msgs : gmap tag string) (tags : list tag)
  : M (list tag * list Z * gmap tag string) :=
  let names := tags in
  errors <~ com_or []
    (call (λ _, EvValidate (Name opc_group) names)
          (Validate opc_group (Z.of_nat (length names)) names)) ;;
  n <~ first_handle sub_group ;;
  r1 <~ assign_handles sub_group include_error errors 0 tags n [] [] error_msgs ;;
  let '(valid_tags, client_handles, error_msgs) := r1 in
  r <~ com_or ([], [])
    (call (λ _, EvAddItems (Name opc_group) valid_tags client_handles)
          (AddItems opc_group (Z.of_nat (length client_handles))
                    valid_tags client_handles)) ;;
  let '(server_handles, errors) := r in
  server_map <~ gets _group_server_handles ;;
  (if decide (server_map !! sub_group = None) then
     modify (set_group_server_handles (<[sub_group := ∅]> server_map))
   else ret tt) ;;;
  record_server_handles sub_group include_error errors server_handles 0
    valid_tags [] [] error_msgs.

(** *** [remove_items] (lines 254-265) *)

Fixpoint lookup_server_handles (sub_group : subgroup) (tags : list tag)
  : M (list Z) :=
  match tags with
  | [] => ret []
  | t :: tags' =>
      sm <~ dict_get _group_server_handles sub_group ;;
      h <~ lift (py_getitem sm t) ;;
      hs <~ lookup_server_handles sub_group tags' ;;
      ret (h :: hs)
  end.

Definition remove_items (opc_group : OPCGroup) (sub_group : subgroup)
    (tags : list tag) : M unit :=
  server_handles <~ lookup_server_handles sub_group tags ;;
  _ <~ com (call (λ _, EvRemoveItems (Name opc_group) server_handles)
                 (RemoveItems opc_group (Z.of_nat (length server_handles))
                              server_handles)) ;;
  ret tt.
(** *** [iread] (lines 182-504) *)

(** Lines 308-337: the [OPCGroup] object of this iteration, the key of
    its sub-group, and whether it was just created.  [tag_groups] is
    unbound when the group was found in [_groups]. *)
Definition open_group (group : option string) (gid : nat)
    (tag_groups : option (list (list tag)))
  : M (OPCGroup * subgroup * bool) :=
  match group with
  | None =>
      opc_group <~ com (call (λ _, EvAddGroup None) (GroupsAdd None)) ;;
      ret (opc_group, None, true)
  | Some g =>
      let sub_group := sub_name g gid in
      r <~ call (λ r, EvGetOPCGroup sub_group
                        (if r is ComOk _ then true else false))
                (GetOPCGroup sub_group) ;;
      match r with
      | ComOk opc_group => ret (opc_group, Some sub_group, false)
      | ComFail _ =>
          opc_group <~ com (call (λ _, EvAddGroup (Some sub_group))
                                 (GroupsAdd (Some sub_group))) ;;
          match tag_groups with
          | None => raise NameError
          | Some tgs =>
              modify (λ c, set_groups (<[g := length tgs]> (_groups c)) c) ;;;
              ret (opc_group, Some sub_group, true)
          end
      end
  end.

(** [tags = tag_groups[gid]] *)
Definition chunk_of (tag_groups : option (list (list tag))) (gid : nat)
  : M (list tag) :=
  match tag_groups with
  | None => raise NameError
  | Some tgs => lift (py_index tgs gid)
  end.

(** [[t for t in l if t not in k]] *)
Definition not_in (l k : list tag) : list tag :=
  filter (λ t, t ∉ k) l.

(** Lines 341-382: the tags of this sub-group, its valid tags, and the
    locals and error messages after bringing the group's items in line
    with the request. *)
Definition resolve_items (a : Arg.t) (sync : bool) (opc_group : OPCGroup)
    (sub_group : subgroup) (new_group : bool)
    (tag_groups : option (list (list tag))) (gid : nat) (loc : locals)
  : M (list tag * list tag * locals * gmap tag string) :=
  if new_group then
    tell (EvSubscribe (Name opc_group)) (SetSubscribedActive opc_group) ;;;
    (if negb sync then
       note (EvWithEvents (Name opc_group)) ;;;
       modify (λ c, set_group_hooks
                      (<[Name opc_group := HookOpen]> (_group_hooks c)) c)
     else ret tt) ;;;
    tags <~ chunk_of tag_groups gid ;;
    r <~ add_items opc_group sub_group (Arg.include_error a) ∅ tags ;;
    let '(valid_tags, server_handles, error_msgs) := r in
    modify (λ c, set_group_tags (<[sub_group := tags]> (_group_tags c)) c) ;;;
    modify (λ c, set_group_valid_tags
                   (<[sub_group := valid_tags]> (_group_valid_tags c)) c) ;;;
    ret (tags, valid_tags,
         Locals (data_source loc) (Some server_handles) (last_msg loc),
         error_msgs)
  else if Arg.rebuild a then
    tags <~ chunk_of tag_groups gid ;;
    valid_tags <~ dict_get _group_valid_tags sub_group ;;
    let add_tags := not_in tags valid_tags in
    let del_tags := not_in valid_tags tags in
    r <~ (if decide (0 < length add_tags)%nat then
            r <~ add_items opc_group sub_group (Arg.include_error a) ∅ add_tags ;;
            let '(added, server_handles, error_msgs) := r in
            cached <~ dict_get _group_valid_tags sub_group ;;
            ret (cached ++ added, Some server_handles, error_msgs)
          else ret (valid_tags, server_handles loc, ∅)) ;;
    let '(valid_tags, server_handles, error_msgs) := r in
    valid_tags <~ (if decide (0 < length del_tags)%nat then
                     remove_items opc_group sub_group del_tags ;;;
                     ret (not_in valid_tags del_tags)
                   else ret valid_tags) ;;
    modify (λ c, set_group_tags (<[sub_group := tags]> (_group_tags c)) c) ;;;
    modify (λ c, set_group_valid_tags
                   (<[sub_group := valid_tags]> (_group_valid_tags c)) c) ;;;
    let data_source :=
      if decide (Arg.source a = "hybrid") then SOURCE_DEVICE
      else data_source loc in
    ret (tags, valid_tags, Locals data_source server_handles (last_msg loc),
         error_msgs)
  else
    tags <~ dict_get _group_tags sub_group ;;
    valid_tags <~ dict_get _group_valid_tags sub_group ;;
    server_handles <~ (if sync then
                         hs <~ ask (ItemServerHandles opc_group) ;;
                         ret (Some hs)
                       else ret (server_handles loc)) ;;
    ret (tags, valid_tags,
         Locals (data_source loc) server_handles (last_msg loc), ∅).

(** Lines 399-400 and 425-426. *)
Definition pick_source (source : string) (data_source : Z) : Z :=
  if decide (source ≠ "hybrid") then
    if decide (source = "cache") then SOURCE_CACHE else SOURCE_DEVICE
  else data_source.

(** Lines 412-416. *)
Fixpoint fill_sync (values : list value) (errors qualities timestamps : list Z)
    (i : nat) (valid_tags : list tag) (tm : tagmaps) : outcome tagmaps :=
  match valid_tags with
  | [] => Ok tm
  | tag :: tags' =>
      match values !! i, qualities !! i, timestamps !! i, errors !! i with
      | Some v, Some q, Some t, Some e =>
          fill_sync values errors qualities timestamps (S i) tags'
            (TagMaps (<[tag := v]> (tag_value tm)) (<[tag := q]> (tag_quality tm))
                     (<[tag := t]> (tag_time tm)) (<[tag := e]> (tag_error tm)))
      | _, _, _, _ => Raise IndexError
      end
  end.

(** Lines 390-416. *)
Definition sync_read (a : Arg.t) (opc_group : OPCGroup)
    (valid_tags : list tag) (loc : locals) : M (tagmaps * locals) :=
  if decide (0 < length valid_tags)%nat then
    match server_handles loc with
    | None => raise NameError
    | Some hs =>
        let server_handles := 0 :: hs in
        let data_source := pick_source (Arg.source a) (data_source loc) in
        r <~ com (call (λ _, EvSyncRead (Name opc_group) data_source hs)
                       (SyncRead opc_group data_source
                                 (Z.of_nat (length server_handles) - 1) hs)) ;;
        let '(values, errors, qualities, timestamps) := r in
        tm <~ lift (fill_sync values errors qualities timestamps 0
                              valid_tags no_tagmaps) ;;
        ret (tm, Locals data_source (Some server_handles) (last_msg loc))
    end
  else ret (no_tagmaps, loc).

(** Lines 439-447: the wait for the callback.  [tx_id] and [msg] are the
    locals assigned by unpacking a queue entry; the loop is given [fuel]
    iterations. *)
Fixpoint wait_callback (fuel : nat) (start timeout : Z) (tx_id : Z)
    (msg : option callback) : M (option callback) :=
  self_tx_id <~ gets _tx_id ;;
  if decide (tx_id ≠ self_tx_id) then
    match fuel with
    | O => λ w, (w, Spinning)
    | S fuel' =>
        now <~ call EvTime time_ms ;;
        if decide (now - start > timeout) then
          raise (Exception "Callback: Timeout waiting for data")
        else
          queue <~ gets callback_queue ;;
          match queue with
          | [] =>
              msgs <~ call EvPump PumpWaitingMessages ;;
              modify (λ c, set_callback_queue (callback_queue c ++ msgs) c) ;;;
              wait_callback fuel' start timeout tx_id msg
          | m :: queue' =>
              modify (set_callback_queue queue') ;;;
              note (EvQueueGet m) ;;;
              wait_callback fuel' start timeout (cb_tx m) (Some m)
          end
    end
  else ret msg.

(** Lines 449-453. *)
Fixpoint fill_async (handles_tag : gmap subgroup (gmap Z tag))
    (sub_group : subgroup) (values : list value) (qualities timestamps : list Z)
    (i : nat) (handles : list Z) (tm : tagmaps) : outcome tagmaps :=
  match handles with
  | [] => Ok tm
  | h :: handles' =>
      match handles_tag !! sub_group with
      | None => Raise KeyError
      | Some hm =>
          match hm !! h with
          | None => Raise KeyError
          | Some tag =>
              match values !! i, qualities !! i, timestamps !! i with
              | Some v, Some q, Some t =>
                  fill_async handles_tag sub_group values qualities timestamps
                    (S i) handles'
                    (TagMaps (<[tag := v]> (tag_value tm))
                             (<[tag := q]> (tag_quality tm))
                             (<[tag := t]> (tag_time tm)) (tag_error tm))
              | _, _, _ => Raise IndexError
              end
          end
      end
  end.

(** Lines 419-453. *)
Definition async_read (fuel : nat) (a : Arg.t) (opc_group : OPCGroup)
    (sub_group : subgroup) (valid_tags : list tag) (loc : locals)
  : M (tagmaps * locals) :=
  if decide (0 < length valid_tags)%nat then
    modify (λ c, set_tx_id (next_tx_id (_tx_id c)) c) ;;;
    let data_source := pick_source (Arg.source a) (data_source loc) in
    minted <~ gets _tx_id ;;
    _ <~ com (call (λ _, EvAsyncRefresh (Name opc_group) data_source minted)
                   (AsyncRefresh opc_group data_source minted)) ;;
    start <~ call EvTime time_ms ;;
    msg <~ wait_callback fuel start (Arg.timeout a) 0 (last_msg loc) ;;
    match msg with
    | None => raise NameError
    | Some m =>
        handles_tag <~ gets _group_handles_tag ;;
        tm <~ lift (fill_async handles_tag sub_group (cb_values m)
                      (cb_qualities m) (cb_timestamps m) 0 (cb_handles m)
                      no_tagmaps) ;;
        ret (tm, Locals data_source (server_handles loc) (Some m))
    end
  else ret (no_tagmaps, loc).

(** Lines 456-472: value, quality, timestamp and the error messages for
    one tag. *)
Definition tag_status (sync include_error : bool) (valid_tags : list tag)
    (tm : tagmaps) (t : tag) (error_msgs : gmap tag string)
  : outcome (option value * string * option string * gmap tag string) :=
  if decide (is_Some (tag_value tm !! t)) then
    good ← (if negb sync && bool_decide (0 < length valid_tags)%nat then Ok true
            else if sync then
              e ← py_getitem (tag_error tm) t; Ok (bool_decide (e = 0))
            else Ok false);
    vqt ← (if good : bool then
             v ← py_getitem (tag_value tm) t;
             let v := match v with VTime x => VStr (str_time x) | _ => v end in
             q ← py_getitem (tag_quality tm) t;
             ts ← py_getitem (tag_time tm) t;
             Ok (Some v, quality_str q, Some (str_time ts))
           else Ok (None, "Error", None));
    error_msgs ← (if include_error then
                    e ← py_getitem (tag_error tm) t;
                    Ok (<[t := strip_crlf (GetErrorString e)]> error_msgs)
                  else Ok error_msgs);
    Ok (vqt, error_msgs)
  else
    c ← py_in_bool t include_error;
    let error_msgs :=
      if c && bool_decide (error_msgs = ∅) then <[t := ""]> error_msgs
      else error_msgs in
    Ok (None, "Error", None, error_msgs).

(** Lines 455-485: one record per tag of the sub-group, appended to
    [status]. *)
Fixpoint assemble (sync include_error single : bool) (valid_tags : list tag)
    (tm : tagmaps) (tags : list tag) (error_msgs : gmap tag string)
    (status : list record) : outcome (list record) :=
  match tags with
  | [] => Ok status
  | tag :: tags' =>
      r ← tag_status sync include_error valid_tags tm tag error_msgs;
      let '(value, quality, timestamp, error_msgs) := r in
      err ← (if include_error then
               m ← py_getitem error_msgs tag; Ok (Some m)
             else Ok None);
      let rec := Rec (if single then None else Some tag)
                     value quality timestamp err in
      assemble sync include_error single valid_tags tm tags' error_msgs
               (status ++ [rec])
  end.

(** Lines 487-498: the anonymous group is dropped after its read. *)
Definition close_anonymous (sync : bool) (opc_group : OPCGroup) : M unit :=
  hooks <~ gets _group_hooks ;;
  (if negb sync && bool_decide (is_Some (hooks !! Name opc_group)) then
     note (EvCloseEvents (Name opc_group)) ;;;
     modify (λ c, set_group_hooks
                    (<[Name opc_group := HookClosed]> (_group_hooks c)) c)
   else ret tt) ;;;
  com (call (λ _, EvRemoveGroup (Name opc_group))
            (GroupsRemove (Name opc_group))).

(** The body of the [for gid in range(num_groups)] loop, lines 302-498. *)
Definition iread_group (fuel : nat) (a : Arg.t) (sync : bool) (update : Z)
    (single : bool) (tag_groups : option (list (list tag))) (gid : nat)
    (loc : locals) (status : list record) : M (locals * list record) :=
  (if bool_decide (0 < gid)%nat && bool_decide (0 < Arg.pause a) then
     tell (EvSleep (Arg.pause a)) (sleep_ms (Arg.pause a))
   else ret tt) ;;;
  tell (EvSetUpdateRate update) (SetDefaultGroupUpdateRate update) ;;;
  g <~ open_group (Arg.group a) gid tag_groups ;;
  let '(opc_group, sub_group, new_group) := g in
  r <~ resolve_items a sync opc_group sub_group new_group tag_groups gid loc ;;
  let '(tags, valid_tags, loc, error_msgs) := r in
  r <~ (if sync then sync_read a opc_group valid_tags loc
        else async_read fuel a opc_group sub_group valid_tags loc) ;;
  let '(tm, loc) := r in
  status <~ lift (assemble sync (Arg.include_error a) single valid_tags tm
                           tags error_msgs status) ;;
  (if Arg.group a is None then close_anonymous sync opc_group else ret tt) ;;;
  ret (loc, status).

Fixpoint iread_loop (fuel : nat) (a : Arg.t) (sync : bool) (update : Z)
    (single : bool) (tag_groups : option (list (list tag))) (gids : list nat)
    (loc : locals) (status : list record) : M (list record) :=
  match gids with
  | [] => ret status
  | gid :: gids' =>
      r <~ iread_group fuel a sync update single tag_groups gid loc status ;;
      iread_loop fuel a sync update single tag_groups gids' r.1 r.2
  end.

(** Lines 290-294 and 572-579: [if size:] holds for an integer other
    than 0; otherwise there is one chunk with everything. *)
Definition split_tags {A} (size : option Z) (tags : list A) : list (list A) :=
  match size with
  | Some s => if bool_decide (s ≠ 0) then chunks tags s else [tags]
  | None => [tags]
  end.

Definition iread (fuel : nat) (tags : tags_arg) (a : Arg.t) : M (list record) :=
  _ <~ com (call (λ _, EvCoInitialize) CoInitialize) ;;
  let sync := if Arg.include_error a then true else Arg.sync a in
  let update := if sync then -1 else Arg.update a in
  let '(tags, single, valid) := type_check tags in
  if negb valid then
    raise (TypeError "iread(): 'tags' parameter must be a string or a list of strings")
  else
    groups <~ gets _groups ;;
    let known := g ← Arg.group a; groups !! g in
    match known with
    | Some num_groups =>
        if Arg.rebuild a then
          let tag_groups := split_tags (Arg.size a) tags in
          iread_loop fuel a sync update single (Some tag_groups)
            (seq 0 (length tag_groups)) (Locals SOURCE_DEVICE None None) []
        else
          iread_loop fuel a sync update single None
            (seq 0 num_groups) (Locals SOURCE_CACHE None None) []
    | None =>
        let tag_groups := split_tags (Arg.size a) tags in
        iread_loop fuel a sync update single (Some tag_groups)
          (seq 0 (length tag_groups)) (Locals SOURCE_DEVICE None None) []
    end.

(** *** [read] (lines 507-530) *)

Inductive read_result :=
| ReadOne (r : record)
| ReadMany (l : list record).

(** [t[:1] == '@'] *)
Definition is_health (t : tag) : bool :=
  match t with
  | String c _ => bool_decide (c = "@"%char)
  | EmptyString => false
  end.

(** [Client] defines no [_read_health]: looking it up on [self] fails. *)
Definition _read_health (tags : tags_arg) : M (list record) :=
  raise (AttributeError "'Client' object has no attribute '_read_health'").

Definition read (fuel : nat) (tags : tags_arg) (a : Arg.t) : M read_result :=
  let '(tags_list, single, valid) := type_check tags in
  if negb valid then
    raise (TypeError "read(): 'tags' parameter must be a string or a list of strings")
  else
    let num_health_tags := length (filter (λ t, is_health t = true) tags_list) in
    let num_opc_tags := length (filter (λ t, is_health t ≠ true) tags_list) in
    results <~ (if decide (0 < num_health_tags)%nat then
                  if decide (0 < num_opc_tags)%nat then
                    raise (TypeError "read(): system health and OPC tags cannot be included in the same group")
                  else _read_health tags
                else iread fuel tags a) ;;
    if single then r <~ lift (py_index results 0) ;; ret (ReadOne r)
    else ret (ReadMany results).

(** *** [remove] (lines 728-767) *)

Inductive groups_arg :=
| GroupsStr (g : string)
| GroupsList (l : list string).

(** [del d[k]] *)
Definition py_del `{Countable K} {V} (d : gmap K V) (k : K) : outcome (gmap K V) :=
  match d !! k with
  | Some _ => Ok (delete k d)
  | None => Raise KeyError
  end.

(** Lines 745-762. *)
Fixpoint remove_sub_groups (group : string) (gids : list nat) : M unit :=
  match gids with
  | [] => ret tt
  | i :: gids' =>
      let sub_group := sub_name group i in
      hooks <~ gets _group_hooks ;;
      (if decide (is_Some (hooks !! sub_group)) then
         note (EvCloseEvents sub_group) ;;;
         modify (λ c, set_group_hooks
                        (<[sub_group := HookClosed]> (_group_hooks c)) c)
       else ret tt) ;;;
      _ <~ com (call (λ _, EvRemoveGroup sub_group) (GroupsRemove sub_group)) ;;
      d <~ gets _group_tags ;;
      d <~ lift (py_del d (Some sub_group)) ;;
      modify (set_group_tags d) ;;;
      d <~ gets _group_valid_tags ;;
      d <~ lift (py_del d (Some sub_group)) ;;
      modify (set_group_valid_tags d) ;;;
      d <~ gets _group_handles_tag ;;
      d <~ lift (py_del d (Some sub_group)) ;;
      modify (set_group_handles_tag d) ;;;
      d <~ gets _group_server_handles ;;
      d <~ lift (py_del d (Some sub_group)) ;;
      modify (set_group_server_handles d) ;;;
      remove_sub_groups group gids'
  end.

(** Lines 743-763. *)
Fixpoint remove_groups (groups : list string) : M unit :=
  match groups with
  | [] => ret tt
  | group :: groups' =>
      known <~ gets _groups ;;
      match known !! group with
      | Some n =>
          remove_sub_groups group (seq 0 n) ;;;
          d <~ gets _groups ;;
          d <~ lift (py_del d group) ;;
          modify (set_groups d) ;;;
          remove_groups groups'
      | None => remove_groups groups'
      end
  end.

Definition remove (groups : groups_arg) : M unit :=
  _ <~ com (call (λ _, EvCoInitialize) CoInitialize) ;;
  let groups := match groups with
                | GroupsStr g => [g]
                | GroupsList l => l
                end in
  remove_groups groups.

(** *** [iwrite] (lines 533-697) *)

(** The shapes of the [tag_value_pairs] argument: something that is not
    a list or tuple, one [(tag, value)] pair, a list of such pairs, or a
    non-empty list or tuple holding something that is not a valid
    pair. *)
Inductive pairs_arg :=
| PairsOther
| PairOne (t : tag) (v : value)
| PairsList (l : list (tag * value))
| PairsMalformed.

(** One element of the list [iwrite] returns. *)
Record wrecord := WRec {
  w_tag : option tag;
  w_status : string;
  w_error : option string
}.

(** Lines 610-618. *)
Fixpoint write_validated (include_error : bool) (errors : list Z) (i : nat)
    (tags : list tag) (values : list value) (n : Z)
    (valid_tags : list tag) (valid_values : list value)
    (client_handles : list Z) (error_msgs : gmap tag string)
  : outcome (list tag * list value * list Z * gmap tag string) :=
  match tags with
  | [] => Ok (valid_tags, valid_values, client_handles, error_msgs)
  | tag :: tags' =>
      e ← py_index errors i;
      if decide (e = 0) then
        v ← py_index values i;
        write_validated include_error errors (S i) tags' values (n + 1)
          (valid_tags ++ [tag]) (valid_values ++ [v]) (client_handles ++ [n])
          (<[tag := ""]> error_msgs)
      else if include_error then
        write_validated include_error errors (S i) tags' values n
          valid_tags valid_values client_handles
          (<[tag := GetErrorString e]> error_msgs)
      else
        write_validated include_error errors (S i) tags' values n
          valid_tags valid_values client_handles error_msgs
  end.

(** Lines 635-642. *)
Fixpoint write_added (include_error : bool) (errors server_handles : list Z)
    (valid_values : list value) (i : nat) (valid_tags : list tag)
    (valid_tags_tmp : list tag) (valid_values_tmp : list value)
    (server_handles_tmp : list Z) (error_msgs : gmap tag string)
  : outcome (list tag * list value * list Z * gmap tag string) :=
  match valid_tags with
  | [] => Ok (valid_tags_tmp, valid_values_tmp, server_handles_tmp, error_msgs)
  | tag :: tags' =>
      e ← py_index errors i;
      if decide (e = 0) then
        v ← py_index valid_values i;
        h ← py_index server_handles i;
        write_added include_error errors server_handles valid_values (S i)
          tags' (valid_tags_tmp ++ [tag]) (valid_values_tmp ++ [v])
          (server_handles_tmp ++ [h]) (<[tag := ""]> error_msgs)
      else if include_error then
        write_added include_error errors server_handles valid_values (S i)
          tags' valid_tags_tmp valid_values_tmp server_handles_tmp
          (<[tag := GetErrorString e]> error_msgs)
      else
        write_added include_error errors server_handles valid_values (S i)
          tags' valid_tags_tmp valid_values_tmp server_handles_tmp error_msgs
  end.

(** Lines 658-685. *)
Fixpoint write_status (include_error single : bool) (errors : list Z)
    (valid_tags : list tag) (n : nat) (tags : list tag)
    (error_msgs : gmap tag string) (result : list wrecord)
  : outcome (list wrecord) :=
  match tags with
  | [] => Ok result
  | tag :: tags' =>
      r ← (if decide (tag ∈ valid_tags) then
             e ← py_index errors n;
             let status := if decide (e = 0) then "Success" else "Error" in
             let error_msgs :=
               if include_error then <[tag := GetErrorString e]> error_msgs
               else error_msgs in
             Ok (status, error_msgs, S n)
           else Ok ("Error", error_msgs, n));
      let '(status, error_msgs, n) := r in
      error_msgs ← (if include_error then
                      m ← py_getitem error_msgs tag;
                      Ok (<[tag := strip_crlf m]> error_msgs)
                    else Ok error_msgs);
      err ← (if include_error then
               m ← py_getitem error_msgs tag; Ok (Some m)
             else Ok None);
      write_status include_error single errors valid_tags n tags' error_msgs
        (result ++ [WRec (if single then None else Some tag) status err])
  end.

(** The body of the [for gid in range(num_groups)] loop, lines 586-687. *)
Definition iwrite_group (pause : Z) (include_error single : bool)
    (name_groups tag_groups : list (list tag))
    (value_groups : list (list value)) (gid : nat) (result : list wrecord)
  : M (list wrecord) :=
  (if bool_decide (0 < gid)%nat && bool_decide (0 < pause) then
     tell (EvSleep pause) (sleep_ms pause)
   else ret tt) ;;;
  opc_group <~ com (call (λ _, EvAddGroup None) (GroupsAdd None)) ;;
  names <~ lift (py_index name_groups gid) ;;
  tags <~ lift (py_index tag_groups gid) ;;
  values <~ lift (py_index value_groups gid) ;;
  errors <~ com_or []
    (call (λ _, EvValidate (Name opc_group) names)
          (Validate opc_group (Z.of_nat (length names)) names)) ;;
  r <~ lift (write_validated include_error errors 0 tags values 1 [] [] [] ∅) ;;
  let '(valid_tags, valid_values, client_handles, error_msgs) := r in
  r <~ com_or ([], [])
    (call (λ _, EvAddItems (Name opc_group) valid_tags client_handles)
          (AddItems opc_group (Z.of_nat (length client_handles))
                    valid_tags client_handles)) ;;
  let '(server_handles, errors) := r in
  r <~ lift (write_added include_error errors server_handles valid_values 0
                         valid_tags [] [] [] error_msgs) ;;
  let '(valid_tags, valid_values, server_handles, error_msgs) := r in
  errors <~ (if decide (0 < length valid_values)%nat then
               com_or []
                 (call (λ _, EvSyncWrite (Name opc_group) server_handles
                                         valid_values)
                       (SyncWrite opc_group (Z.of_nat (length server_handles))
                                  server_handles valid_values))
             else ret []) ;;
  result <~ lift (write_status include_error single errors valid_tags 0 tags
                               error_msgs result) ;;
  _ <~ com (call (λ _, EvRemoveGroup (Name opc_group))
                 (GroupsRemove (Name opc_group))) ;;
  ret result.

Fixpoint iwrite_loop (pause : Z) (include_error single : bool)
    (name_groups tag_groups : list (list tag))
    (value_groups : list (list value)) (gids : list nat)
    (result : list wrecord) : M (list wrecord) :=
  match gids with
  | [] => ret result
  | gid :: gids' =>
      result <~ iwrite_group pause include_error single name_groups tag_groups
                             value_groups gid result ;;
      iwrite_loop pause include_error single name_groups tag_groups
                  value_groups gids' result
  end.

Definition iwrite (tag_value_pairs : pairs_arg) (size : option Z) (pause : Z)
    (include_error : bool) : M (list wrecord) :=
  _ <~ com (call (λ _, EvCoInitialize) CoInitialize) ;;
  r <~ match tag_value_pairs with
       | PairsOther =>
           raise (TypeError "write(): 'tag_value_pairs' parameter must be a (tag, value) tuple or a list of (tag,value) tuples")
       | PairOne t v => ret ([(t, v)], true)
       | PairsList [] => raise IndexError
       | PairsList l => ret (l, false)
       | PairsMalformed =>
           raise (TypeError "write(): 'tag_value_pairs' parameter must be a (tag, value) tuple or a list of (tag,value) tuples")
       end ;;
  let '(pairs, single) := r in
  let names := pairs.*1 in
  let tags := pairs.*1 in
  let values := pairs.*2 in
  let name_groups := split_tags size names in
  let tag_groups := split_tags size tags in
  let value_groups := split_tags size values in
  iwrite_loop pause include_error single name_groups tag_groups value_groups
              (seq 0 (length tag_groups)) [].

End Client.

(** ** A small server to run the client against

    An address space of known tags with their values, groups of items,
    server handles handed out in sequence, refreshes answered at the next
    pump, and a clock that advances by one millisecond per reading. *)
Module Sim.

Record item := Item {
  it_tag : tag;
  it_client : Z;
  it_server : Z
}.

Record state := State {
  known : list (tag * value);
  groups : list (string * list item);
  next_handle : Z;
  next_anon : nat;
  pending : list callback;
  clock : Z;
  validate_fails : bool
}.

Definition start (known : list (tag * value)) : state :=
  State known [] 1 0 [] 0 false.

Definition find_group (name : string) (s : state) : option (list item) :=
  snd <$> list_find (λ g, g.1 = name) (groups s) ≫= λ r, Some r.2.

Definition set_group (name : string) (items : list item) (s : state) : state :=
  State (known s)
        ((λ g, if decide (g.1 = name) then (name, items) else g) <$> groups s)
        (next_handle s) (next_anon s) (pending s) (clock s) (validate_fails s).

Definition value_of (t : tag) (s : state) : option value :=
  snd <$> list_find (λ kv, kv.1 = t) (known s) ≫= λ r, Some r.2.

Definition add_group (name : option string) (s : state)
  : state * com_result OPCGroup :=
  let n := match name with
           | Some n => n
           | None => "Group" +:+ pretty (next_anon s)
           end in
  match find_group n s with
  | Some _ => (s, ComFail (-1073479679))
  | None =>
      (State (known s) (groups s ++ [(n, [])]) (next_handle s)
             (if name is None then S (next_anon s) else next_anon s)
             (pending s) (clock s) (validate_fails s),
       ComOk {| Name := n |})
  end.

Definition get_group (name : string) (s : state) : state * com_result OPCGroup :=
  match find_group name s with
  | Some _ => (s, ComOk {| Name := name |})
  | None => (s, ComFail (-1073479679))
  end.

Definition remove_group (name : string) (s : state) : state * com_result unit :=
  match find_group name s with
  | Some _ =>
      (State (known s) (filter (λ g, g.1 ≠ name) (groups s)) (next_handle s)
             (next_anon s) (pending s) (clock s) (validate_fails s),
       ComOk tt)
  | None => (s, ComFail (-1073479679))
  end.

Definition validate (g : OPCGroup) (n : Z) (names : list tag) (s : state)
  : state * com_result (list Z) :=
  if validate_fails s then (s, ComFail (-2147467259))
  else (s, ComOk ((λ t, if value_of t s is Some _ then 0 else -1073479673)
                    <$> names)).

Fixpoint new_items (tags : list tag) (client_handles : list Z) (h : Z)
  : list item :=
  match tags, client_handles with
  | t :: tags', c :: cs' => Item t c h :: new_items tags' cs' (h + 1)
  | _, _ => []
  end.

Definition add_items (g : OPCGroup) (n : Z) (tags : list tag)
    (client_handles : list Z) (s : state)
  : state * com_result (list Z * list Z) :=
  match find_group (Name g) s with
  | None => (s, ComFail (-1073479679))
  | Some items =>
      let added := new_items tags client_handles (next_handle s) in
      let s' := set_group (Name g) (items ++ added) s in
      (State (known s') (groups s') (next_handle s + Z.of_nat (length added))
             (next_anon s') (pending s') (clock s') (validate_fails s'),
       ComOk (it_server <$> added, (λ _, 0) <$> added))
  end.

Definition remove_items (g : OPCGroup) (n : Z) (handles : list Z) (s : state)
  : state * com_result (list Z) :=
  match find_group (Name g) s with
  | None => (s, ComFail (-1073479679))
  | Some items =>
      (set_group (Name g) (filter (λ it, it_server it ∉ handles) items) s,
       ComOk ((λ _, 0) <$> handles))
  end.

Definition item_value (s : state) (it : item) : value :=
  default (VInt 0) (value_of (it_tag it) s).

Definition sync_read (g : OPCGroup) (src n : Z) (handles : list Z) (s : state)
  : state * com_result (list value * list Z * list Z * list Z) :=
  match find_group (Name g) s with
  | None => (s, ComFail (-1073479679))
  | Some items =>
      let found := (λ h, snd <$> list_find (λ it, it_server it = h) items)
                     <$> handles in
      (s, ComOk ((λ o, if o is Some it then item_value s it else VInt 0) <$> found,
                 (λ o : option item, if o is Some _ then 0 else -1073479679) <$> found,
                 (λ _, 192) <$> found,
                 (λ _, clock s) <$> found))
  end.

Definition sync_write (g : OPCGroup) (n : Z) (handles : list Z)
    (values : list value) (s : state) : state * com_result (list Z) :=
  match find_group (Name g) s with
  | None => (s, ComFail (-1073479679))
  | Some items => (s, ComOk ((λ _, 0) <$> handles))
  end.

Definition async_refresh (g : OPCGroup) (src tx : Z) (s : state)
  : state * com_result unit :=
  match find_group (Name g) s with
  | None => (s, ComFail (-1073479679))
  | Some items =>
      let msg := {| cb_tx := tx;
                    cb_handles := it_client <$> items;
                    cb_values := item_value s <$> items;
                    cb_qualities := (λ _, 192) <$> items;
                    cb_timestamps := (λ _, clock s) <$> items |} in
      (State (known s) (groups s) (next_handle s) (next_anon s)
             (pending s ++ [msg]) (clock s) (validate_fails s),
       ComOk tt)
  end.

Definition tick (ms : Z) (s : state) : state :=
  State (known s) (groups s) (next_handle s) (next_anon s) (pending s)
        (clock s + ms) (validate_fails s).

Definition pump (s : state) : state * list callback :=
  (State (known s) (groups s) (next_handle s) (next_anon s) []
         (clock s) (validate_fails s),
   pending s).

Definition server_handles_of (g : OPCGroup) (s : state) : list Z :=
  it_server <$> default [] (find_group (Name g) s).

#[global] Instance server : OPCServer state := {|
  CoInitialize := λ s, (s, ComOk tt);
  SetDefaultGroupUpdateRate := λ _ s, s;
  GroupsAdd := add_group;
  GetOPCGroup := get_group;
  GroupsRemove := remove_group;
  SetSubscribedActive := λ _ s, s;
  ItemServerHandles := server_handles_of;
  Validate := validate;
  AddItems := add_items;
  RemoveItems := remove_items;
  SyncRead := sync_read;
  SyncWrite := sync_write;
  AsyncRefresh := async_refresh;
  GetErrorString := λ code, "The item is no longer available in the server address space.";
  time_ms := λ s, (tick 1 s, clock s);
  PumpWaitingMessages := pump;
  sleep_ms := tick
|}.

(** [SOURCE_CACHE = 1] and [SOURCE_DEVICE = 2], as in the OPC automation
    interface; qualities are shown by their top two bits. *)
#[global] Instance common : Common := {|
  SOURCE_CACHE := 1;
  SOURCE_DEVICE := 2;
  quality_str := λ q, if decide (Z.shiftr q 6 = 3) then "Good"
                      else if decide (Z.shiftr q 6 = 1) then "Uncertain"
                      else "Bad";
  str_time := λ t, pretty t
|}.

Definition fresh (known : list (tag * value)) : world state :=
  World new_client (start known) [].

End Sim.

(** ** A server that never refuses

    Every call succeeds: any tag validates and is added under the server
    handles 1, 2, ..., a read answers each handle with the value 0 of good
    quality, and the clock advances by one millisecond per reading. *)
Module Willing.

Record state := Clock { clock : Z }.

Definition ok {A} (a : A) (s : state) : state * com_result A := (s, ComOk a).

Definition each {A B} (b : B) (l : list A) : list B := replicate (length l) b.

Definition zeros {A} (l : list A) : list Z := each 0 l.

#[global] Instance server : OPCServer state := {|
  CoInitialize := ok tt;
  SetDefaultGroupUpdateRate := λ _ s, s;
  GroupsAdd := λ name, ok {| Name := default "anonymous" name |};
  GetOPCGroup := λ name, ok {| Name := name |};
  GroupsRemove := λ _, ok tt;
  SetSubscribedActive := λ _ s, s;
  ItemServerHandles := λ _ _, [];
  Validate := λ _ _ names, ok (zeros names);
  AddItems := λ _ _ tags _,
    ok (seqZ 1 (Z.of_nat (length tags)), zeros tags);
  RemoveItems := λ _ _ hs, ok (zeros hs);
  SyncRead := λ _ _ _ hs,
    ok (each (VInt 0) hs, zeros hs, each 192 hs, zeros hs);
  SyncWrite := λ _ _ hs _, ok (zeros hs);
  AsyncRefresh := λ _ _ _, ok tt;
  GetErrorString := λ _, "OK";
  time_ms := λ s, (Clock (clock s + 1), clock s);
  PumpWaitingMessages := λ s, (s, []);
  sleep_ms := λ ms s, Clock (clock s + ms)
|}.

Definition fresh : world state := World new_client (Clock 0) [].

End Willing.

(** ** Vocabulary of the statements *)

(** [triple Pev Pexn Q m]: whatever the world, [m] appends to the log only
    events satisfying [Pev], raises only exceptions satisfying [Pexn], and
    returns only values satisfying [Q]. *)
Definition triple {R A} (Pev : event → Prop) (Pexn : exn → Prop) (Q : A → Prop)
    (m : M R A) : Prop :=
  ∀ w, (∃ evs, log (m w).1 = log w ++ evs ∧ Forall Pev evs) ∧
       match (m w).2 with
       | Ok a => Q a
       | Raise e => Pexn e
       | Spinning => True
       end.

(** The exceptions [iread] can raise. *)
Definition iread_raises (e : exn) : Prop :=
  match e with
  | com_error _ | IndexError | KeyError | NameError | ValueError => True
  | TypeError msg =>
      msg = "iread(): 'tags' parameter must be a string or a list of strings"
      ∨ msg = "argument of type 'bool' is not iterable"
  | Exception msg => msg = "Callback: Timeout waiting for data"
  | AttributeError _ => False
  end.

Definition is_read (e : event) : bool :=
  match e with
  | EvSyncRead _ _ _ | EvAsyncRefresh _ _ _ => true
  | _ => false
  end.

(** A read event uses the data source [ds]. *)
Definition reads_from (ds : Z) (e : event) : Prop :=
  match e with
  | EvSyncRead _ d _ | EvAsyncRefresh _ d _ => d = ds
  | _ => True
  end.

Definition health_msg : string :=
  "read(): system health and OPC tags cannot be included in the same group".

(** The clock readings, the messages taken from the callback queue and
    the messages delivered by the pump among the events [evs]. *)
Definition times_of (evs : list event) : list Z :=
  omap (λ e, if e is EvTime t then Some t else None) evs.

Definition gets_of (evs : list event) : list callback :=
  omap (λ e, if e is EvQueueGet m then Some m else None) evs.

Definition pumped_of (evs : list event) : list callback :=
  mjoin (omap (λ e, if e is EvPump msgs then Some msgs else None) evs).

(** What the wait for the callback of transaction [minted] has done, given
    the events [evs] of the wait, which started at [start] and was given
    [fuel] iterations: it returned the first message of the queue that
    carries [minted], every clock reading up to then being within the
    timeout; or a clock reading exceeded the timeout before such a message
    was taken, and the timeout error was raised; or neither had happened
    after [fuel] iterations. *)
Definition waited (minted start timeout : Z) (fuel : nat) (evs : list event)
    (o : outcome (option callback)) : Prop :=
  match o with
  | Ok res =>
      ∃ stale m, gets_of evs = stale ++ [m] ∧ res = Some m ∧ cb_tx m = minted
        ∧ Forall (λ s, cb_tx s ≠ minted) stale
        ∧ Forall (λ now, now - start ≤ timeout) (times_of evs)
  | Raise e =>
      e = Exception "Callback: Timeout waiting for data"
      ∧ Forall (λ s, cb_tx s ≠ minted) (gets_of evs)
      ∧ ∃ early now, times_of evs = early ++ [now] ∧ timeout < now - start
          ∧ Forall (λ t, t - start ≤ timeout) early
  | Spinning =>
      Forall (λ s, cb_tx s ≠ minted) (gets_of evs)
      ∧ Forall (λ now, now - start ≤ timeout) (times_of evs)
      ∧ length (times_of evs) = fuel
  end.

(** The tags a validation accepts: those whose error code is 0, in the
    order of the request.  A tag beyond the end of the codes is not
    reached: the loop of lines 211-220 raises there. *)
Definition accepted (tags : list tag) (errors : list Z) : list tag :=
  (filter (λ p, p.2 = 0) (zip tags errors)).*1.

(** What the [Validate] call of [add_items] leaves in [errors] (lines
    190-197): the codes it returns, or the empty list when it fails. *)
Definition validation_codes {R} `{!OPCServer R} (g : OPCGroup)
    (tags : list tag) (r : R) : list Z :=
  match (Validate g (Z.of_nat (length tags)) tags r).2 with
  | ComOk errors => errors
  | ComFail _ => []
  end.

(** [n] is the first client handle free in a sub-group whose handle map
    is [old]: one past the largest handle in use, or 0. *)
Definition first_free (old : gmap Z tag) (n : Z) : Prop :=
  (old = ∅ ∧ n = 0)
  ∨ (is_Some (old !! (n - 1)) ∧ ∀ k, is_Some (old !! k) → k < n).


(** The session holds an entry for the sub-group [k] in each of its four
    per-sub-group maps. *)
Definition recorded (c : Client) (k : subgroup) : Prop :=
  is_Some (_group_tags c !! k) ∧ is_Some (_group_valid_tags c !! k)
  ∧ is_Some (_group_handles_tag c !! k)
  ∧ is_Some (_group_server_handles c !! k).

Definition is_found (e : event) : bool :=
  match e with
  | EvGetOPCGroup _ true => true
  | _ => false
  end.

(** No sub-group was found on the server: every [GetOPCGroup] among the
    events failed. *)
Definition found_none (evs : list event) : Prop :=
  Forall (λ e, is_found e = false) evs.

(** The events a call appended to the log, given the worlds before and
    after it. *)
Definition events_of {R} (w w' : world R) : list event :=
  drop (length (log w)) (log w').

(** A read that has to create all of its sub-groups: the group is
    anonymous, or it is being rebuilt, or the session does not know it and
    no sub-group lookup on the server succeeded during the call. *)
Definition fresh_read {R} (a : Arg.t) (w w' : world R) : Prop :=
  match Arg.group a with
  | None => True
  | Some g =>
      Arg.rebuild a = true
      ∨ (_groups (client w) !! g = None ∧ found_none (events_of w w'))
  end.

(** The tag a record carries for the requested tag [t]. *)
Definition shown (single : bool) (t : tag) : option tag :=
  if single then None else Some t.

(** ** Scenarios *)

Definition plant : list (tag * value) :=
  [("T1", VInt 5); ("T2", VStr "on"); ("T3", VTime 7)].

Definition named (g : string) (size : option Z) : Arg.t :=
  {| Arg.group := Some g; Arg.size := size; Arg.pause := 0;
     Arg.source := "hybrid"; Arg.update := -1; Arg.timeout := 5000;
     Arg.sync := false; Arg.include_error := false; Arg.rebuild := false |}.


Definition rebuild_from_cache (g : string) : Arg.t :=
  {| Arg.group := Some g; Arg.size := None; Arg.pause := 0;
     Arg.source := "cache"; Arg.update := -1; Arg.timeout := 5000;
     Arg.sync := false; Arg.include_error := false; Arg.rebuild := true |}.


(** A session whose counter has reached [0xFFFF]. *)
Definition late_session : world Sim.state :=
  World (set_tx_id 65535 new_client) (Sim.start plant) [].

(** A server on which [Validate] fails as a call. *)
Definition broken_validate : world Sim.state :=
  World new_client (Sim.State plant [("G", [])] 1 0 [] 0 true) [].

(** A session about to refresh group ["G"], with a stale message of
    transaction 7 already in its queue. *)
Definition stale_session : world Sim.state :=
  World (set_callback_queue
           [{| cb_tx := 7; cb_handles := [0]; cb_values := [VInt 0];
               cb_qualities := [0]; cb_timestamps := [0] |}]
           (set_group_handles_tag {[None := {[0 := "T1"]}]} new_client))
        (Sim.State plant [("G", [Sim.Item "T1" 0 1])] 2 0 [] 0 false) [].

(** The group ["g"] of tags T1, T2, T3 read in chunks of two. *)
Definition three_tags : world Sim.state :=
  (iread 10 (TagsList ["T1"; "T2"; "T3"]) (named "g" (Some 2))
         (Sim.fresh plant)).1.

(** The group ["g"] holding the single tag T1. *)
Definition one_tag_group : world Sim.state :=
  (iread 10 (TagsList ["T1"]) (named "g" None) (Sim.fresh plant)).1.

(** Two anonymous reads in a row. *)
Definition after_first_read : world Sim.state :=
  (iread 10 (TagsList ["T1"; "T3"]) Arg.default (Sim.fresh plant)).1.

Definition after_second_read : world Sim.state :=
  (iread 10 (TagsList ["T2"]) Arg.default after_first_read).1.

(** A server on which every call the client makes succeeds: groups can
    always be added and removed, every tag validates and is added with a
    server handle, and a synchronous read or write answers each handle
    without an error. *)
Definition agreeable (R : Type) `{!OPCServer R} : Prop :=
  (∀ r, (CoInitialize r).2 = ComOk tt)
  ∧ (∀ name r, ∃ g, (GroupsAdd name r).2 = ComOk g)
  ∧ (∀ name r, (GroupsRemove name r).2 = ComOk tt)
  ∧ (∀ g n names r,
       (Validate g n names r).2 = ComOk (replicate (length names) 0))
  ∧ (∀ g n tags handles r, ∃ shs,
       (AddItems g n tags handles r).2
       = ComOk (shs, replicate (length tags) 0)
       ∧ length shs = length tags)
  ∧ (∀ g ds n hs r, ∃ vs qs ts,
       (SyncRead g ds n hs r).2 = ComOk (vs, replicate (length hs) 0, qs, ts)
       ∧ length vs = length hs ∧ length qs = length hs
       ∧ length ts = length hs)
  ∧ (∀ g n hs vs r, (SyncWrite g n hs vs r).2 = ComOk (replicate (length hs) 0)).


(** The clock of the outside advances: [clock] is what [time.time()]
    returns next, each reading moves it forward, and pumping messages does
    not move it back. *)
Definition ticking (R : Type) `{!OPCServer R} (clock : R → Z) : Prop :=
  (∀ r, (time_ms r).2 = clock r ∧ clock r < clock (time_ms r).1)
  ∧ (∀ r, clock r ≤ clock (PumpWaitingMessages r).1).

(** [m] changes the transaction counter by allocations only: its value
    after [m] is [next_tx_id] iterated on its value before. *)
Definition mints {R A} (m : M R A) : Prop :=
  ∀ w, ∃ k : nat,
    _tx_id (client (m w).1) = Nat.iter k next_tx_id (_tx_id (client w)).

(** [obeys Pev rel Q m]: whatever the world, [m] appends to the log only
    events satisfying [Pev], takes the session from [c] to some [c'] with
    [rel c c'], however it ends, and returns only values satisfying [Q]. *)
Definition obeys {R A} (Pev : event → Prop) (rel : Client → Client → Prop)
    (Q : A → Prop) (m : M R A) : Prop :=
  ∀ w, (∃ evs, log (m w).1 = log w ++ evs ∧ Forall Pev evs)
       ∧ rel (client w) (client (m w).1)
       ∧ match (m w).2 with Ok a => Q a | _ => True end.

(** Calls that are foreign to a write: setting the update rate, looking
    up a group or adding one under a name, subscribing, registering or
    closing an event hook, removing items, reading synchronously or
    refreshing asynchronously, reading the clock, pumping messages and
    taking a callback from the queue. *)
Definition foreign_to_write (e : event) : Prop :=
  match e with
  | EvSetUpdateRate _ | EvAddGroup (Some _) | EvGetOPCGroup _ _
  | EvSubscribe _ | EvWithEvents _ | EvCloseEvents _ | EvRemoveItems _ _
  | EvSyncRead _ _ _ | EvAsyncRefresh _ _ _ | EvTime _ | EvPump _
  | EvQueueGet _ => True
  | _ => False
  end.

(** Whether a read is synchronous (lines 271-272): [include_error]
    forces it. *)
Definition effective_sync (a : Arg.t) : bool :=
  if Arg.include_error a then true else Arg.sync a.

(** The sub-group keys a read with arguments [a] works on: [None] for an
    anonymous read, the sub-groups of its group for a named one. *)
Definition own_key (a : Arg.t) (k : subgroup) : Prop :=
  match Arg.group a with
  | None => k = None
  | Some g => ∃ i, k = Some (sub_name g i)
  end.

(** The calls a read with arguments [a] may make. *)
Definition mode_event (a : Arg.t) (e : event) : Prop :=
  match e with
  | EvCoInitialize | EvSubscribe _ | EvValidate _ _ | EvAddItems _ _ _ => True
  | EvSetUpdateRate u => u = if effective_sync a then -1 else Arg.update a
  | EvAddGroup n => own_key a n
  | EvGetOPCGroup s _ => own_key a (Some s)
  | EvRemoveGroup _ => Arg.group a = None
  | EvRemoveItems _ _ => Arg.rebuild a = true
  | EvSyncRead _ _ _ => effective_sync a = true
  | EvAsyncRefresh _ _ _ | EvWithEvents _ | EvCloseEvents _ | EvTime _
  | EvPump _ | EvQueueGet _ => effective_sync a = false
  | EvSleep ms => ms = Arg.pause a ∧ 0 < ms
  | EvSyncWrite _ _ _ => False
  end.

(** The entries of the four per-sub-group maps under the key [k]. *)
Definition entries (c : Client) (k : subgroup)
  : option (list tag) * option (list tag) * option (gmap Z tag)
    * option (gmap tag Z) :=
  (_group_tags c !! k, _group_valid_tags c !! k, _group_handles_tag c !! k,
   _group_server_handles c !! k).

(** No entry of the session's six maps is deleted from [c] to [c']. *)
Definition nothing_deleted (c c' : Client) : Prop :=
  (∀ g, is_Some (_groups c !! g) → is_Some (_groups c' !! g))
  ∧ (∀ k, is_Some (_group_tags c !! k) → is_Some (_group_tags c' !! k))
  ∧ (∀ k, is_Some (_group_valid_tags c !! k) →
          is_Some (_group_valid_tags c' !! k))
  ∧ (∀ k, is_Some (_group_handles_tag c !! k) →
          is_Some (_group_handles_tag c' !! k))
  ∧ (∀ k, is_Some (_group_server_handles c !! k) →
          is_Some (_group_server_handles c' !! k))
  ∧ (∀ n, is_Some (_group_hooks c !! n) → is_Some (_group_hooks c' !! n)).

(** What a read with arguments [a] may change in the session: a
    synchronous read leaves the transaction counter, the callback queue
    and the hooks alone; entries of other groups and of other sub-groups
    stay as they are; and nothing is deleted. *)
Definition read_step (a : Arg.t) (c c' : Client) : Prop :=
  (effective_sync a = true →
   _tx_id c' = _tx_id c ∧ callback_queue c' = callback_queue c
   ∧ _group_hooks c' = _group_hooks c)
  ∧ (∀ g, Arg.group a ≠ Some g → _groups c' !! g = _groups c !! g)
  ∧ (∀ k, ¬ own_key a k → entries c' k = entries c k)
  ∧ nothing_deleted c c'.

(** The group names [remove] is given. *)
Definition names_of (groups : groups_arg) : list string :=
  match groups with
  | GroupsStr g => [g]
  | GroupsList l => l
  end.

(** The calls [remove] may make for the names [gs]. *)
Definition remove_event (gs : list string) (e : event) : Prop :=
  match e with
  | EvCoInitialize => True
  | EvCloseEvents s | EvRemoveGroup s => ∃ g i, g ∈ gs ∧ s = sub_name g i
  | _ => False
  end.

(** What [remove] may change in the session for the names [gs]: it only
    deletes, and only entries of these groups and their sub-groups; a
    hook is closed at most, never dropped; the transaction counter and
    the callback queue stay. *)
Definition remove_step (gs : list string) (c c' : Client) : Prop :=
  _tx_id c' = _tx_id c ∧ callback_queue c' = callback_queue c
  ∧ (∀ g, _groups c' !! g = _groups c !! g
          ∨ g ∈ gs ∧ _groups c' !! g = None)
  ∧ (∀ k, (∀ g i, g ∈ gs → k ≠ Some (sub_name g i)) →
          entries c' k = entries c k)
  ∧ _group_tags c' ⊆ _group_tags c
  ∧ _group_valid_tags c' ⊆ _group_valid_tags c
  ∧ _group_handles_tag c' ⊆ _group_handles_tag c
  ∧ _group_server_handles c' ⊆ _group_server_handles c
  ∧ (∀ n, _group_hooks c' !! n = _group_hooks c !! n
          ∨ is_Some (_group_hooks c !! n)
            ∧ _group_hooks c' !! n = Some HookClosed).

(** The group map and the four per-sub-group maps are the same in [c]
    and [c']. *)
Definition same_maps (c c' : Client) : Prop :=
  _groups c' = _groups c ∧ _group_tags c' = _group_tags c
  ∧ _group_valid_tags c' = _group_valid_tags c
  ∧ _group_handles_tag c' = _group_handles_tag c
  ∧ _group_server_handles c' = _group_server_handles c.

(** A sub-group lookup on the server that failed. *)
Definition is_lost (e : event) : bool :=
  match e with
  | EvGetOPCGroup _ false => true
  | _ => false
  end.

Definition is_lookup (e : event) : Prop :=
  match e with
  | EvGetOPCGroup _ _ => True
  | _ => False
  end.

(** Every sub-group lookup among the events found its group. *)
Definition found_all (evs : list event) : Prop :=
  Forall (λ e, is_lost e = false) evs.

(** A chunk size that splits a list into chunks covering it: none, 0
    (which [if size:] takes as none), or positive. *)
Definition covering (size : option Z) : Prop :=
  match size with
  | None => True
  | Some s => 0 ≤ s
  end.

(** ** Servers, by how they answer *)

(** COM is there and groups can always be added and removed. *)
Definition opens (R : Type) `{!OPCServer R} : Prop :=
  (∀ r, (CoInitialize r).2 = ComOk tt)
  ∧ (∀ name r, ∃ g, (GroupsAdd name r).2 = ComOk g)
  ∧ (∀ name r, (GroupsRemove name r).2 = ComOk tt).

(** The [Validate] call itself always fails. *)
Definition validate_fails (R : Type) `{!OPCServer R} : Prop :=
  ∀ g n names r, ∃ hr, (Validate g n names r).2 = ComFail hr.

(** [Validate] answers, with an error code other than 0 for every
    name. *)
Definition rejects_all (R : Type) `{!OPCServer R} : Prop :=
  ∀ g n names r, ∃ errors,
    (Validate g n names r).2 = ComOk errors
    ∧ length errors = length names ∧ Forall (λ e, e ≠ 0) errors.

Definition is_sync_write (e : event) : Prop :=
  match e with
  | EvSyncWrite _ _ _ => True
  | _ => False
  end.

Definition is_remove_group (e : event) : Prop :=
  match e with
  | EvRemoveGroup _ => True
  | _ => False
  end.

(** ** The record a read shows for an answer *)

Section Records.
Context `{Common} {R : Type} `{!OPCServer R}.

(** A value as a record shows it: a time is turned into text. *)
Definition text (v : value) : value :=
  match v with
  | VTime x => VStr (str_time x)
  | _ => v
  end.


(** The record of an asynchronous read for the tag [t], for which the
    callback carried the value [v], the quality [q] and the time [ts]. *)
Definition async_record (single : bool) (t : tag) (v : value) (q ts : Z)
  : record :=
  Rec (shown single t) (Some (text v)) (quality_str q) (Some (str_time ts))
      None.

End Records.

(** The group map and the tag cache are the same in [c] and [c']. *)
Definition same_groups (c c' : Client) : Prop :=
  _groups c' = _groups c ∧ _group_tags c' = _group_tags c.

(** Every sub-group looked up on the server is found. *)
Definition finds (R : Type) `{!OPCServer R} : Prop :=
  ∀ name r, ∃ g, (GetOPCGroup name r).2 = ComOk g.

(** ** Coherence of the session *)

(** Every valid tag recorded for a sub-group is among the tags recorded
    for it and has a server handle recorded for it. *)
Definition coherent (c : Client) : Prop :=
  ∀ k v, _group_valid_tags c !! k = Some v →
    (∃ t, _group_tags c !! k = Some t ∧ ∀ x, x ∈ v → x ∈ t)
    ∧ (∃ sm, _group_server_handles c !! k = Some sm
             ∧ ∀ x, x ∈ v → is_Some (sm !! x)).

(** From [c] to [c'] the tag caches are kept and the server-handle maps
    only gain entries. *)
Definition handles_grow (c c' : Client) : Prop :=
  _group_tags c' = _group_tags c
  ∧ _group_valid_tags c' = _group_valid_tags c
  ∧ ∀ k sm, _group_server_handles c !! k = Some sm →
      ∃ sm', _group_server_handles c' !! k = Some sm'
             ∧ ∀ x, is_Some (sm !! x) → is_Some (sm' !! x).

(** [keeps rel m]: whatever the world and however [m] ends, it takes the
    session from [c] to some [c'] with [rel c c']. *)
Definition keeps {R A} (rel : Client → Client → Prop) (m : M R A) : Prop :=
  ∀ w, rel (client w) (client (m w).1).

(** A property of the session that holds afterwards if it held before. *)
Definition preserves (I : Client → Prop) (c c' : Client) : Prop := I c → I c'.

(** ** More of the client: [write] and [groups] *)

Inductive write_result :=
| WriteOne (r : wrecord)
| WriteMany (l : list wrecord).

Section Write.
Context `{Common} {R : Type} `{!OPCServer R}.

(** [write_simu] is imported from [.Simu], not defined in the client. *)
Variable write_simu : pairs_arg → option Z → Z → bool → M R (list wrecord).

(** [write] (lines 700-720).  [int_simu] is what [int(simu)] gives for
    the module's global [simu]: 0, or the integer in [OPC_SIMU], or
    [ValueError] when that is not a number.  [first_is_pair] tells, for a
    malformed list, whether its first element is a list or tuple: the
    test of line 704 looks at nothing else. *)
Definition write (int_simu : outcome Z) (first_is_pair : bool)
    (tag_value_pairs : pairs_arg) (size : option Z) (pause : Z)
    (include_error : bool) : M R write_result :=
  single <~ match tag_value_pairs with
            | PairsOther => ret true
            | PairOne _ _ => ret true
            | PairsList [] => raise IndexError
            | PairsList (_ :: _) => ret false
            | PairsMalformed => ret (negb first_is_pair)
            end ;;
  simu <~ lift int_simu ;;
  status <~ (if decide (simu = 1) then
               write_simu tag_value_pairs size pause include_error
             else iwrite tag_value_pairs size pause include_error) ;;
  if single : bool then r <~ lift (py_index status 0) ;; ret (WriteOne r)
  else ret (WriteMany status).

(** [groups] (lines 723-725): the keys of the group map. *)
Definition groups : M R (gset string) := gets (λ c, dom (_groups c)).

End Write.

(** The pairs a well-formed argument of [write] holds, and whether it is
    a single pair. *)
Definition pairs_of (p : pairs_arg) : option (list (tag * value) * bool) :=
  match p with
  | PairOne t v => Some ([(t, v)], true)
  | PairsList (x :: l) => Some (x :: l, false)
  | _ => None
  end.

(** ** A server with canned answers

    How it answers is fixed by a configuration: whether the [Validate]
    call fails, and the validation error code of each tag.  Everything
    else succeeds, as on the willing server. *)
Module Canned.

Record config := Config {
  validate_raises : bool;
  code_of : tag → Z
}.

Record state (c : config) := Clock { clock : Z }.
Arguments Clock {c} _.
Arguments clock {c} _.

Definition ok {c A} (a : A) (s : state c) : state c * com_result A :=
  (s, ComOk a).

Definition each {A B} (b : B) (l : list A) : list B := replicate (length l) b.

#[global] Instance server (c : config) : OPCServer (state c) | 100 := {|
  CoInitialize := ok tt;
  SetDefaultGroupUpdateRate := λ _ s, s;
  GroupsAdd := λ name, ok {| Name := default "anonymous" name |};
  GetOPCGroup := λ name, ok {| Name := name |};
  GroupsRemove := λ _, ok tt;
  SetSubscribedActive := λ _ s, s;
  ItemServerHandles := λ _ _, [];
  Validate := λ _ _ names s,
    (s, if validate_raises c then ComFail (-2147467259)
        else ComOk (code_of c <$> names));
  AddItems := λ _ _ tags _,
    ok (seqZ 1 (Z.of_nat (length tags)), each 0 tags);
  RemoveItems := λ _ _ hs, ok (each 0 hs);
  SyncRead := λ _ _ _ hs,
    ok (each (VInt 0) hs, each 0 hs, each 192 hs, each 0 hs);
  SyncWrite := λ _ _ hs _, ok (each 0 hs);
  AsyncRefresh := λ _ _ _, ok tt;
  GetErrorString := λ _, "The item ID is not in the server address space.";
  time_ms := λ s, (Clock (clock s + 1), clock s);
  PumpWaitingMessages := λ s, (s, []);
  sleep_ms := λ ms s, Clock (clock s + ms)
|}.

(** A server whose [Validate] call fails, and one that knows no tag. *)
Definition broken : config := Config true (λ _, 0).
Definition deaf : config := Config false (λ _, -1073479673).

Definition fresh (c : config) : world (state c) :=
  World new_client (Clock 0) [].

End Canned.

(** ** The constructor and [connect] *)

(** What the constructor and [connect] use besides the server's groups:
    [win32com]'s [EnsureDispatch], the automation object's [Connect] and
    its [ClientName] property, the process environment, the host name,
    and the defaults that [from .Common import *] provides.  An
    exception raised by the assignment to [ClientName] is swallowed
    (lines 117-127), so the assignment only shows as a change of the
    outside. *)
Class Platform (R : Type) := {
  EnsureDispatch : string → R → R * com_result unit;
  Connect : string → option string → R → R * com_result unit;
  SetClientName : string → R → R;
  environ : gmap string string;
  gethostname : string;
  OPC_CLASS : string;
  OPC_SERVER : string;
  OPC_CLIENT : string
}.

(** A call for which the log has no entry. *)
Definition act {R A} (op : R → R * A) : M R A :=
  λ w, let '(r, a) := op (server w) in (World (client w) r (log w), Ok a).

(** Python's [s.split(sep)] for a one-character separator. *)
Fixpoint split_on (sep : ascii) (s : string) : list string :=
  match s with
  | EmptyString => [EmptyString]
  | String c s' =>
      if Ascii.eqb c sep then EmptyString :: split_on sep s'
      else match split_on sep s' with
           | [] => [String c EmptyString]
           | x :: l => String c x :: l
           end
  end.

(** The attributes of the client that only the constructor and
    [connect] use. *)
Record link := Link {
  opc_server : option string;
  opc_host : option string;
  client_name : option string
}.

Section Connect.
Context {R : Type} `{!OPCServer R} `{!Platform R}.

(** Lines 49-60: the first class that dispatches is bound; a failure is
    passed over unless it is the failure of the last class. *)
Fixpoint dispatch (classes : list string) (i n : nat) : M R (option string) :=
  match classes with
  | [] => ret None
  | c :: classes' =>
      r <~ act (EnsureDispatch c) ;;
      match r with
      | ComOk _ => ret (Some c)
      | ComFail hr =>
          if decide (Z.of_nat i = Z.of_nat n - 1) then raise (com_error hr)
          else dispatch classes' (S i) n
      end
  end.

(** [__init__] (lines 35-79).  It returns the attributes of [link] and
    the class that was bound. *)
Definition init (opc_class client_name : option string)
  : M R (link * option string) :=
  modify (set_callback_queue []) ;;;
  _ <~ com (call (λ _, EvCoInitialize) CoInitialize) ;;
  let opc_class :=
    match opc_class with
    | None => default OPC_CLASS (environ !! "OPC_CLASS")
    | Some c => c
    end in
  let opc_class_list := split_on ";" opc_class in
  bound <~ dispatch opc_class_list 0 (length opc_class_list) ;;
  modify (set_groups ∅) ;;;
  modify (set_group_tags ∅) ;;;
  modify (set_group_valid_tags ∅) ;;;
  modify (set_group_server_handles ∅) ;;;
  modify (set_group_handles_tag ∅) ;;;
  modify (set_group_hooks ∅) ;;;
  modify (set_tx_id 0) ;;;
  ret (Link None None client_name, bound).

(** Lines 91-101: the server string and the host that [connect] uses. *)
Definition requested (self : link) (host server : option string)
  : string * option string :=
  match server with
  | None =>
      match opc_server self with
      | None => (default OPC_SERVER (environ !! "OPC_SERVER"), host)
      | Some s => (s, opc_host self)
      end
  | Some s => (s, host)
  end.

(** Lines 106-129: whether one of the servers accepted the connection. *)
Fixpoint try_servers (self : link) (servers : list string) (n : nat)
    (host : option string) : M R bool :=
  match servers with
  | [] => ret false
  | s :: servers' =>
      r <~ act (Connect s host) ;;
      match r with
      | ComFail hr =>
          if decide (n = 1%nat) then raise (com_error hr)
          else try_servers self servers' n host
      | ComOk _ =>
          let name :=
            match client_name self with
            | None => default OPC_CLIENT (environ !! "OPC_CLIENT")
            | Some c => c
            end in
          act (λ r, (SetClientName name r, tt)) ;;;
          ret true
      end
  end.

(** [connect] (lines 82-150).  It returns the attributes of [link] as it
    leaves them. *)
Definition connect (self : link) (host server : option string) : M R link :=
  _ <~ com (call (λ _, EvCoInitialize) CoInitialize) ;;
  let '(opc_server, opc_host) := requested self host server in
  let opc_server_list := split_on ";" opc_server in
  connected <~ try_servers self opc_server_list (length opc_server_list)
                 opc_host ;;
  if negb connected then
    raise (Exception
      "Connect: Cannot connect to any of the servers in the OPC_SERVER list")
  else
    tell (EvSleep 10) (sleep_ms 10) ;;;
    let opc_host := if decide (opc_host = Some "localhost")
                    then Some gethostname else opc_host in
    modify (set_groups ∅) ;;;
    modify (set_group_tags ∅) ;;;
    modify (set_group_valid_tags ∅) ;;;
    modify (set_group_server_handles ∅) ;;;
    modify (set_group_handles_tag ∅) ;;;
    modify (set_group_hooks ∅) ;;;
    ret (Link (Some opc_server) opc_host (client_name self)).

End Connect.

(** The session after [connect]: no group is known any more; the
    transaction counter and the callback queue are as before. *)
Definition forgotten (c c' : Client) : Prop :=
  _groups c' = ∅ ∧ _group_tags c' = ∅ ∧ _group_valid_tags c' = ∅
  ∧ _group_server_handles c' = ∅ ∧ _group_handles_tag c' = ∅
  ∧ _group_hooks c' = ∅
  ∧ _tx_id c' = _tx_id c ∧ callback_queue c' = callback_queue c.

(** A platform whose [Connect] and [EnsureDispatch] answer by name only:
    [f] gives the error code of a name that is refused. *)
Definition connect_answers (R : Type) `{!Platform R}
    (f : string → option Z) : Prop :=
  ∀ s h r, (Connect s h r).2
           = match f s with None => ComOk tt | Some hr => ComFail hr end.

Definition dispatch_answers (R : Type) `{!Platform R}
    (f : string → option Z) : Prop :=
  ∀ c r, (EnsureDispatch c r).2
         = match f c with None => ComOk tt | Some hr => ComFail hr end.

(** ** A platform with one server and one automation class *)
Module Desk.

#[global] Instance platform (c : Canned.config)
  : Platform (Canned.state c) := {|
  EnsureDispatch := λ cl s,
    (s, if decide (cl = "OPC.Automation") then ComOk tt
        else ComFail (-2147221005));
  Connect := λ srv _ s,
    (s, if decide (srv = "Matrikon.OPC.Simulation") then ComOk tt
        else ComFail (-2147467259));
  SetClientName := λ _ s, s;
  environ := ∅;
  gethostname := "plant-pc";
  OPC_CLASS := "Matrikon.OPC.Automation;OPC.Automation";
  OPC_SERVER := "Hci.TPNServer;Matrikon.OPC.Simulation";
  OPC_CLIENT := "OpenOPC"
|}.

Definition dispatches (cl : string) : option Z :=
  if decide (cl = "OPC.Automation") then None else Some (-2147221005).

Definition connects (srv : string) : option Z :=
  if decide (srv = "Matrikon.OPC.Simulation") then None
  else Some (-2147467259).

End Desk.

(** ** More scenarios *)

(** The session of [one_tag_group] facing a server that has restarted
    and knows no group. *)
Definition lost_group : world Sim.state :=
  World (client one_tag_group) (Sim.start plant) [].

(** A synchronous rebuild of the group [g]. *)
Definition rebuild_sync (g : string) : Arg.t :=
  {| Arg.group := Some g; Arg.size := None; Arg.pause := 0;
     Arg.source := "hybrid"; Arg.update := -1; Arg.timeout := 5000;
     Arg.sync := true; Arg.include_error := false; Arg.rebuild := true |}.

(** A session that holds T1 as the valid tag of the sub-group ["g.0"]. *)
Definition cached_tag : world (Canned.state Canned.deaf) :=
  World (set_group_valid_tags {[Some "g.0" := ["T1"]]} new_client)
        (Canned.Clock 0) [].

(** A session whose group map counts one sub-group for ["g"] while the
    per-sub-group maps hold nothing. *)
Definition counted_only : world (Canned.state Canned.deaf) :=
  World (set_groups {["g" := 1%nat]} new_client) (Canned.Clock 0) [].

(** A client that has not connected yet. *)
Definition unconnected : link := Link None None None.

(** * Proofs *)

(** ** Running the monad *)

Section Logic.
Context `{Common} {R : Type} `{!OPCServer R}.
Local Abbreviation M := (M R).
Local Abbreviation triple := (triple (R:=R)).

(** Running the primitives. *)
Lemma run_bind {A B} (m : M A) (f : A → M B) w :
  bind m f w = match m w with
               | (w', Ok a) => f a w'
               | (w', Raise e) => (w', Raise e)
               | (w', Spinning) => (w', Spinning)
               end.
Proof. reflexivity. Qed.

Lemma run_ret {A} (a : A) (w : world R) : ret a w = (w, Ok a).
Proof. reflexivity. Qed.

Lemma run_raise {A} e (w : world R) : raise (A:=A) e w = (w, Raise e).
Proof. reflexivity. Qed.

Lemma run_lift {A} (o : outcome A) (w : world R) : lift o w = (w, o).
Proof. reflexivity. Qed.

Lemma run_gets {A} (f : Client → A) (w : world R) :
  gets f w = (w, Ok (f (client w))).
Proof. reflexivity. Qed.

Lemma run_ask {A} (f : R → A) (w : world R) : ask f w = (w, Ok (f (server w))).
Proof. reflexivity. Qed.

Lemma run_modify f (w : world R) :
  modify f w = (World (f (client w)) (server w) (log w), Ok tt).
Proof. reflexivity. Qed.

Lemma run_note ev (w : world R) :
  note ev w = (World (client w) (server w) (log w ++ [ev]), Ok tt).
Proof. reflexivity. Qed.

Lemma run_tell ev op (w : world R) :
  tell ev op w = (World (client w) (op (server w)) (log w ++ [ev]), Ok tt).
Proof. reflexivity. Qed.

Lemma run_call {A} (ev : A → event) (op : R → R * A) w :
  call ev op w = (World (client w) (op (server w)).1
                        (log w ++ [ev (op (server w)).2]),
                  Ok (op (server w)).2).
Proof. unfold call. by destruct (op (server w)). Qed.

Lemma run_com {A} (m : M (com_result A)) w :
  com m w = match m w with
            | (w', Ok (ComOk a)) => (w', Ok a)
            | (w', Ok (ComFail hr)) => (w', Raise (com_error hr))
            | (w', Raise e) => (w', Raise e)
            | (w', Spinning) => (w', Spinning)
            end.
Proof. unfold com, bind. by destruct (m w) as [? [[]| |]]. Qed.

Lemma run_com_or {A} (d : A) (m : M (com_result A)) w :
  com_or d m w = match m w with
                 | (w', Ok (ComOk a)) => (w', Ok a)
                 | (w', Ok (ComFail hr)) => (w', Ok d)
                 | (w', Raise e) => (w', Raise e)
                 | (w', Spinning) => (w', Spinning)
                 end.
Proof. unfold com_or, bind. by destruct (m w) as [? [[]| |]]. Qed.

Lemma run_dict_get `{Countable K} {V} (f : Client → gmap K V) k (w : world R) :
  dict_get f k w = (w, py_getitem (f (client w)) k).
Proof. reflexivity. Qed.

Lemma triple_ret {A} Pev Pexn (Q : A → Prop) a : Q a → triple Pev Pexn Q (ret a).
Proof. intros HQ w. split; [exists []; by rewrite app_nil_r|done]. Qed.

Lemma triple_raise {A} Pev Pexn (Q : A → Prop) e :
  Pexn e → triple Pev Pexn Q (raise e).
Proof. intros HQ w. split; [exists []; by rewrite app_nil_r|done]. Qed.

Lemma triple_lift {A} Pev Pexn (Q : A → Prop) (o : outcome A) :
  match o with Ok a => Q a | Raise e => Pexn e | Spinning => True end →
  triple Pev Pexn Q (lift o).
Proof. intros HQ w. split; [exists []; by rewrite app_nil_r|done]. Qed.

Lemma triple_gets {A} Pev Pexn (Q : A → Prop) (f : Client → A) :
  (∀ c, Q (f c)) → triple Pev Pexn Q (gets f).
Proof. intros HQ w. split; [exists []; by rewrite app_nil_r|apply HQ]. Qed.

Lemma triple_ask {A} Pev Pexn (Q : A → Prop) (f : R → A) :
  (∀ c, Q (f c)) → triple Pev Pexn Q (ask f).
Proof. intros HQ w. split; [exists []; by rewrite app_nil_r|apply HQ]. Qed.

Lemma triple_modify Pev Pexn (Q : unit → Prop) f :
  Q tt → triple Pev Pexn Q (modify f).
Proof. intros HQ w. split; [exists []; by rewrite app_nil_r|done]. Qed.

Lemma triple_call {A} Pev Pexn (Q : A → Prop) ev (op : R → R * A) :
  (∀ a, Pev (ev a) ∧ Q a) → triple Pev Pexn Q (call ev op).
Proof.
  intros HQ w. unfold call. destruct (op (server w)) as [r a]. simpl.
  split; [exists [ev a]; split; [done|]; constructor; [apply HQ|constructor]|apply HQ].
Qed.

Lemma triple_tell Pev Pexn (Q : unit → Prop) ev (op : R → R) :
  Pev ev → Q tt → triple Pev Pexn Q (tell ev op).
Proof.
  intros HP HQ w. split; [exists [ev]; split; [done|]; by repeat constructor|done].
Qed.

Lemma triple_note Pev Pexn (Q : unit → Prop) ev :
  Pev ev → Q tt → triple Pev Pexn Q (note ev).
Proof.
  intros HP HQ w. split; [exists [ev]; split; [done|]; by repeat constructor|done].
Qed.

Lemma triple_bind {A B} Pev Pexn (Q : A → Prop) (Q' : B → Prop) m (f : A → M B) :
  triple Pev Pexn Q m → (∀ a, Q a → triple Pev Pexn Q' (f a)) →
  triple Pev Pexn Q' (bind m f).
Proof.
  intros Hm Hf w. unfold bind. destruct (Hm w) as [(evs & Hlog & Hevs) Hres].
  destruct (m w) as [w1 [a|e|]]; simpl in *.
  - destruct (Hf a Hres w1) as [(evs' & Hlog' & Hevs') Hres'].
    split; [|done]. exists (evs ++ evs'). rewrite Hlog', Hlog, app_assoc.
    split; [done|by apply Forall_app].
  - split; [by exists evs|done].
  - split; [by exists evs|done].
Qed.

Lemma triple_weaken {A} Pev Pexn (Q Q' : A → Prop) m :
  triple Pev Pexn Q m → (∀ a, Q a → Q' a) → triple Pev Pexn Q' m.
Proof.
  intros Hm HQ w. destruct (Hm w) as [Hlog Hres]. split; [done|].
  destruct (m w).2; auto.
Qed.

Lemma triple_com {A} Pev Pexn (Q : A → Prop) (m : M (com_result A)) :
  triple Pev Pexn (λ r, match r with ComOk a => Q a | ComFail hr => Pexn (com_error hr) end) m →
  triple Pev Pexn Q (com m).
Proof.
  intros Hm. unfold com. eapply triple_bind; [exact Hm|].
  intros [a|hr] Hr; [by apply triple_ret|by apply triple_raise].
Qed.

Lemma triple_com_or {A} Pev Pexn (Q : A → Prop) d (m : M (com_result A)) :
  Q d →
  triple Pev Pexn (λ r, match r with ComOk a => Q a | ComFail hr => True end) m →
  triple Pev Pexn Q (com_or d m).
Proof.
  intros Hd Hm. unfold com_or. eapply triple_bind; [exact Hm|].
  intros [a|hr] Hr; by apply triple_ret.
Qed.

End Logic.

Ltac wsimpl :=
  repeat match goal with
         | w : world _ |- _ => destruct w as [[] ? ?]
         end;
  cbn [client server log fst snd callback_queue _groups _group_tags
       _group_valid_tags _group_server_handles _group_handles_tag
       _group_hooks _tx_id set_callback_queue set_groups set_group_tags
       set_group_valid_tags set_group_server_handles set_group_handles_tag
       set_group_hooks set_tx_id] in *.

Ltac mnorm H :=
  cbn [client server log fst snd] in H; cbv beta iota in H;
  cbn [client server log fst snd] in H.

Ltac mstep H :=
  first
    [ rewrite run_bind in H | rewrite run_ret in H | rewrite run_raise in H
    | rewrite run_lift in H | rewrite run_gets in H | rewrite run_ask in H
    | rewrite run_modify in H | rewrite run_note in H | rewrite run_tell in H
    | rewrite run_call in H | rewrite run_com in H | rewrite run_com_or in H
    | rewrite run_dict_get in H ];
  mnorm H.

Ltac mrun H := mnorm H; repeat mstep H.

(** ** What [iread] logs and raises *)

Section Traverse.
Context `{Common} {R : Type} `{!OPCServer R}.
Local Abbreviation M := (M R).
Variables (a : Arg.t) (Pev : event → Prop) (Inv : Z → Prop).
Hypothesis Pev_other : ∀ e, is_read e = false → Pev e.
Hypothesis Pev_sync : ∀ g d hs,
  Inv d → Pev (EvSyncRead g (pick_source (Arg.source a) d) hs).
Hypothesis Pev_async : ∀ g d tx,
  Inv d → Pev (EvAsyncRefresh g (pick_source (Arg.source a) d) tx).
Hypothesis Inv_pick : ∀ d, Inv d → Inv (pick_source (Arg.source a) d).
Hypothesis Inv_rebuild : ∀ d,
  Inv d → Inv (if decide (Arg.source a = "hybrid") then SOURCE_DEVICE else d).

Local Abbreviation T := (triple (R:=R) Pev iread_raises).

Lemma triple_seq {A B} (Q' : B → Prop) (m : M A) (f : A → M B) :
  T (λ _, True) m → (∀ x, T Q' (f x)) → T Q' (bind m f).
Proof. intros Hm Hf. eapply triple_bind; [exact Hm|]. intros x _. apply Hf. Qed.

Lemma py_index_raises {A} (l : list A) i :
  match py_index l i with Ok _ => True | Raise e => iread_raises e | Spinning => True end.
Proof. unfold py_index. by destruct (l !! i). Qed.

Lemma py_getitem_raises `{Countable K} {V} (d : gmap K V) k :
  match py_getitem d k with Ok _ => True | Raise e => iread_raises e | Spinning => True end.
Proof. unfold py_getitem. by destruct (d !! k). Qed.

Lemma py_max_raises l :
  match py_max l with Ok _ => True | Raise e => iread_raises e | Spinning => True end.
Proof. by destruct l. Qed.

Ltac gcase :=
  match goal with
  | |- context [match ?x with _ => _ end] =>
      lazymatch x with
      | context [match _ with _ => _ end] => fail
      | _ => destruct x eqn:?
      end
  end.

Ltac gdec :=
  match goal with
  | |- context [decide ?P] => destruct (decide P)
  end.

Ltac leaf :=
  first
    [ apply triple_ret | apply triple_raise | apply triple_gets
    | apply triple_ask | apply triple_modify
    | apply triple_lift; first [apply py_index_raises | apply py_getitem_raises | apply py_max_raises | idtac]
    | apply triple_note; [apply Pev_other; reflexivity|]
    | apply triple_tell; [apply Pev_other; reflexivity|]
    | apply triple_call; intros ?; split; [apply Pev_other; reflexivity|] ].

Ltac tstep :=
  lazymatch goal with
  | |- triple _ _ _ (bind _ _) => apply triple_seq; [|intros ?]
  | |- triple _ _ _ (com _) => apply triple_com
  | |- triple _ _ _ (com_or _ _) => apply triple_com_or
  | |- triple _ _ _ (dict_get _ _) => unfold dict_get
  | |- triple _ _ _ (match ?x with _ => _ end) => destruct x eqn:?
  | |- triple _ _ _ _ => leaf
  end.

Ltac triv :=
  lazymatch goal with
  | |- True => exact I
  | |- match ?x with _ => _ end => destruct x eqn:?; try exact I
  | |- ∀ _, _ => intros ?
  | |- iread_raises _ => exact I
  | _ => idtac
  end.


Lemma assign_handles_triple sub ie errors tags : ∀ i n vt ch msgs,
  T (λ _, True) (assign_handles sub ie errors i tags n vt ch msgs).
Proof.
  induction tags as [|t tags IH]; intros; simpl.
  - by apply triple_ret.
  - repeat (tstep; repeat triv; auto).
Qed.


Lemma record_server_handles_triple sub ie errors shs tags : ∀ i vt sh msgs,
  T (λ _, True) (record_server_handles sub ie errors shs i tags vt sh msgs).
Proof.
  induction tags as [|t tags IH]; intros; simpl.
  - by apply triple_ret.
  - repeat (tstep; repeat triv; auto).
Qed.

Lemma first_handle_triple sub : T (λ _, True) (first_handle sub).
Proof. unfold first_handle. repeat (tstep; repeat triv; auto). Qed.

Lemma add_items_triple g sub ie msgs tags :
  T (λ _, True) (add_items g sub ie msgs tags).
Proof.
  unfold add_items.
  repeat (first [apply first_handle_triple | apply assign_handles_triple
                | apply record_server_handles_triple | tstep]; repeat triv; auto).
Qed.

Lemma lookup_server_handles_triple sub tags :
  T (λ _, True) (lookup_server_handles sub tags).
Proof.
  induction tags as [|t tags IH]; simpl.
  - by apply triple_ret.
  - repeat (tstep; repeat triv; auto).
Qed.

Lemma remove_items_triple g sub tags : T (λ _, True) (remove_items g sub tags).
Proof.
  unfold remove_items.
  repeat (first [apply lookup_server_handles_triple | tstep]; repeat triv; auto).
Qed.

Lemma open_group_triple group gid tgs : T (λ _, True) (open_group group gid tgs).
Proof. unfold open_group. repeat (tstep; repeat triv; auto). Qed.

Lemma chunk_of_triple tgs gid : T (λ _, True) (chunk_of tgs gid).
Proof. unfold chunk_of. repeat (tstep; repeat triv; auto). Qed.

Lemma resolve_items_triple sync g sub new_group tgs gid loc :
  Inv (data_source loc) →
  T (λ r, Inv (data_source r.1.2))
    (resolve_items a sync g sub new_group tgs gid loc).
Proof.
  intros HI. unfold resolve_items.
  repeat (first [apply add_items_triple | apply remove_items_triple
                | apply chunk_of_triple | tstep]; repeat triv; auto).
  simpl. by apply Inv_rebuild.
Qed.

Lemma fill_sync_raises vs es qs ts tags : ∀ i tm,
  match fill_sync vs es qs ts i tags tm with
  | Raise e => iread_raises e
  | _ => True
  end.
Proof.
  induction tags as [|t tags IH]; intros; simpl; [done|].
  destruct (vs !! i), (qs !! i), (ts !! i), (es !! i); try done. apply IH.
Qed.

Lemma fill_async_raises hm sub vs qs ts hs : ∀ i tm,
  match fill_async hm sub vs qs ts i hs tm with
  | Raise e => iread_raises e
  | _ => True
  end.
Proof.
  induction hs as [|h hs IH]; intros; simpl; [done|].
  destruct (hm !! sub) as [m|]; [|done]. destruct (m !! h); [|done].
  destruct (vs !! i), (qs !! i), (ts !! i); try done. apply IH.
Qed.

Lemma sync_read_triple g valid loc :
  Inv (data_source loc) →
  T (λ r, Inv (data_source r.2)) (sync_read a g valid loc).
Proof.
  intros HI. unfold sync_read.
  gdec; [|by apply triple_ret].
  destruct (server_handles loc) as [hs|]; [|by apply triple_raise].
  apply triple_seq.
  - apply triple_com, triple_call. intros [x|hr]; split; simpl; auto.
  - intros [[[vs es] qs] ts]. apply triple_seq.
    + apply triple_lift. pose proof (fill_sync_raises vs es qs ts valid 0 no_tagmaps).
      by destruct fill_sync.
    + intros tm. apply triple_ret. simpl. by apply Inv_pick.
Qed.

Lemma wait_callback_triple fuel start timeout : ∀ tx msg,
  T (λ _, True) (wait_callback fuel start timeout tx msg).
Proof.
  induction fuel as [|fuel IH]; intros; simpl.
  all: apply triple_seq; [by apply triple_gets|intros self].
  all: destruct (decide (tx ≠ self)); [|by apply triple_ret].
  - intros w. split; [exists []; by rewrite app_nil_r|done].
  - apply triple_seq.
    { apply triple_call. intros; split; [by apply Pev_other|done]. }
    intros now. gdec; [by apply triple_raise|].
    apply triple_seq; [by apply triple_gets|intros q].
    destruct q as [|m q].
    + apply triple_seq.
      { apply triple_call. intros; split; [by apply Pev_other|done]. }
      intros msgs. apply triple_seq; [by apply triple_modify|intros _].
      apply IH.
    + apply triple_seq; [by apply triple_modify|intros _].
      apply triple_seq; [apply triple_note; [by apply Pev_other|done]|intros _].
      apply IH.
Qed.

Lemma async_read_triple fuel g sub valid loc :
  Inv (data_source loc) →
  T (λ r, Inv (data_source r.2)) (async_read fuel a g sub valid loc).
Proof.
  intros HI. unfold async_read.
  gdec; [|by apply triple_ret].
  apply triple_seq; [by apply triple_modify|intros _].
  apply triple_seq; [by apply triple_gets|intros minted].
  apply triple_seq.
  { apply triple_com, triple_call. intros [x|hr]; split; simpl; auto. }
  intros _. apply triple_seq.
  { apply triple_call. intros ?; split; [by apply Pev_other|done]. }
  intros start. apply triple_seq; [apply wait_callback_triple|].
  intros [m|]; [|by apply triple_raise].
  apply triple_seq; [by apply triple_gets|intros hm].
  apply triple_seq.
  - apply triple_lift.
    pose proof (fill_async_raises hm sub (cb_values m) (cb_qualities m)
                  (cb_timestamps m) (cb_handles m) 0 no_tagmaps).
    by destruct fill_async.
  - intros tm. apply triple_ret. simpl. by apply Inv_pick.
Qed.

Lemma tag_status_raises sync ie valid tm t msgs :
  match tag_status sync ie valid tm t msgs with
  | Raise e => iread_raises e
  | _ => True
  end.
Proof.
  unfold tag_status, py_in_bool, py_getitem. simpl.
  repeat (gcase; simpl; try done); auto.
Qed.

Lemma assemble_raises sync ie single valid tm tags : ∀ msgs status,
  match assemble sync ie single valid tm tags msgs status with
  | Raise e => iread_raises e
  | _ => True
  end.
Proof.
  induction tags as [|t tags IH]; intros; simpl; [done|].
  pose proof (tag_status_raises sync ie valid tm t msgs) as Ht.
  destruct tag_status as [[[[v q] ts] msgs']|e|]; simpl; try done.
  unfold py_getitem. destruct ie; simpl; [|apply IH].
  destruct (msgs' !! t); simpl; [apply IH|done].
Qed.

Lemma close_anonymous_triple sync g : T (λ _, True) (close_anonymous sync g).
Proof. unfold close_anonymous. repeat (tstep; repeat triv; auto). Qed.

Lemma iread_group_triple fuel sync update single tgs gid loc status :
  Inv (data_source loc) →
  T (λ r, Inv (data_source r.1))
    (iread_group fuel a sync update single tgs gid loc status).
Proof.
  intros HI. unfold iread_group.
  apply triple_seq; [repeat (tstep; repeat triv; auto)|intros _].
  apply triple_seq; [repeat (tstep; repeat triv; auto)|intros _].
  apply triple_seq; [apply open_group_triple|intros [[g sub] new_group]].
  eapply triple_bind; [by apply resolve_items_triple|].
  intros [[[tags valid] loc1] msgs] HI1. simpl in HI1.
  eapply triple_bind.
  { instantiate (1 := λ r, Inv (data_source r.2)).
    destruct sync; [by apply sync_read_triple|by apply async_read_triple]. }
  intros [tm loc2] HI2. simpl in HI2.
  apply triple_seq.
  { apply triple_lift.
    pose proof (assemble_raises sync (Arg.include_error a) single valid tm tags
                  msgs status).
    by destruct assemble. }
  intros status'. apply triple_seq.
  { destruct (Arg.group a); [by apply triple_ret|apply close_anonymous_triple]. }
  intros _. by apply triple_ret.
Qed.

Lemma iread_loop_triple fuel sync update single tgs gids : ∀ loc status,
  Inv (data_source loc) →
  T (λ _, True) (iread_loop fuel a sync update single tgs gids loc status).
Proof.
  induction gids as [|gid gids IH]; intros loc status HI; simpl.
  - by apply triple_ret.
  - eapply triple_bind; [by apply iread_group_triple|].
    intros [loc' status'] HI'. by apply IH.
Qed.

Lemma iread_triple fuel tags :
  Inv SOURCE_DEVICE → (Arg.rebuild a = false → Inv SOURCE_CACHE) →
  T (λ _, True) (iread fuel tags a).
Proof.
  intros Hdev Hcache. unfold iread.
  apply triple_seq.
  { apply triple_com, triple_call. intros [x|hr]; split; simpl; auto. }
  intros _. destruct (type_check tags) as [[l single] valid].
  destruct valid; simpl; [|apply triple_raise; simpl; auto].
  apply triple_seq; [by apply triple_gets|intros groups].
  destruct (Arg.group a ≫= _) as [n|].
  - destruct (Arg.rebuild a) eqn:Hre; apply iread_loop_triple; auto.
  - by apply iread_loop_triple.
Qed.

End Traverse.

(** ** The wait for the callback *)

Section Wait.
Context `{Common} {R : Type} `{!OPCServer R}.
Local Abbreviation M := (M R).

Lemma wait_callback_done fuel start timeout tx msg (w : world R) :
  tx = _tx_id (client w) →
  wait_callback fuel start timeout tx msg w = (w, Ok msg).
Proof.
  intros ->. destruct fuel; simpl; unfold bind, gets; simpl;
    by destruct (decide _).
Qed.

Lemma set_callback_queue_id c : set_callback_queue (callback_queue c) c = c.
Proof. by destruct c. Qed.

Lemma set_callback_queue_twice q q' c :
  set_callback_queue q (set_callback_queue q' c) = set_callback_queue q c.
Proof. by destruct c. Qed.

Lemma wait_callback_stop start timeout tx msg (w : world R) :
  tx ≠ _tx_id (client w) →
  wait_callback 0 start timeout tx msg w = (w, Spinning).
Proof.
  intros Htx. simpl. unfold bind, gets; simpl. by destruct (decide _).
Qed.

Lemma wait_callback_step fuel start timeout tx msg (w : world R) :
  tx ≠ _tx_id (client w) →
  wait_callback (S fuel) start timeout tx msg w =
  let w1 := World (client w) (time_ms (server w)).1
                  (log w ++ [EvTime (time_ms (server w)).2]) in
  if decide ((time_ms (server w)).2 - start > timeout) then
    (w1, Raise (Exception "Callback: Timeout waiting for data"))
  else
    match callback_queue (client w) with
    | [] =>
        let p := PumpWaitingMessages (server w1) in
        wait_callback fuel start timeout tx msg
          (World (set_callback_queue (callback_queue (client w) ++ p.2) (client w))
                 p.1 (log w1 ++ [EvPump p.2]))
    | m :: q =>
        wait_callback fuel start timeout (cb_tx m) (Some m)
          (World (set_callback_queue q (client w)) (server w1)
                 (log w1 ++ [EvQueueGet m]))
    end.
Proof.
  intros Htx. simpl. unfold bind at 1, gets at 1. simpl.
  destruct (decide _); [|done].
  unfold bind at 1, call at 1. destruct (time_ms (server w)) as [r1 tn].
  simpl. destruct (decide _); [done|].
  unfold bind at 1, gets at 1. simpl.
  destruct (callback_queue (client w)) as [|m q] eqn:Hq.
  - unfold bind at 1, call at 1. simpl.
    destruct (PumpWaitingMessages r1) as [r2 msgs]. simpl.
    unfold bind at 1, modify at 1. simpl. by rewrite Hq.
  - unfold bind at 1, modify at 1. simpl. by unfold bind at 1, note at 1.
Qed.

Lemma wait_callback_spec fuel start timeout : ∀ tx msg (w w' : world R) o,
  tx ≠ _tx_id (client w) →
  wait_callback fuel start timeout tx msg w = (w', o) →
  ∃ evs,
    log w' = log w ++ evs
    ∧ client w' = set_callback_queue (callback_queue (client w')) (client w)
    ∧ callback_queue (client w) ++ pumped_of evs
      = gets_of evs ++ callback_queue (client w')
    ∧ waited (_tx_id (client w)) start timeout fuel evs o.
Proof.
  induction fuel as [|fuel IH]; intros tx msg w w' o Htx Hrun.
  - rewrite wait_callback_stop in Hrun by done. injection Hrun as <- <-.
    exists []. unfold pumped_of. simpl. rewrite 2!app_nil_r.
    rewrite set_callback_queue_id. split_and!; try done; constructor.
  - rewrite wait_callback_step in Hrun by done. simpl in Hrun.
    destruct (time_ms (server w)) as [r1 tn]. simpl in Hrun.
    destruct (decide (tn - start > timeout)) as [Hto|Hto].
    { injection Hrun as <- <-. exists [EvTime tn]. simpl. rewrite app_nil_r.
      rewrite set_callback_queue_id. split_and!; try done. exists [], tn. split_and!; [done|lia|constructor]. }
    destruct (callback_queue (client w)) as [|m q] eqn:Hq.
    + destruct (PumpWaitingMessages r1) as [r2 msgs]. simpl in Hrun.
      apply IH in Hrun as (evs & Hlog & Htxid & Hqueue & Hwait);
        [|by destruct w as [[] ? ?]].
      exists (EvTime tn :: EvPump msgs :: evs).
      simpl in Hlog, Htxid, Hqueue, Hwait.
      split; [rewrite Hlog, <- !app_assoc; done|].
      split; [rewrite Htxid at 1; by rewrite set_callback_queue_twice|].
      split.
      { unfold pumped_of, gets_of in *. simpl. exact Hqueue. }
      replace (_tx_id (set_callback_queue ([] ++ msgs) (client w)))
        with (_tx_id (client w)) in Hwait by by destruct w as [[] ? ?].
      unfold waited in *. destruct o as [res|e|]; simpl.
      * destruct Hwait as (stale & m & ? & ? & ? & ? & ?).
        exists stale, m. split_and!; try done. constructor; [lia|done].
      * destruct Hwait as (? & ? & early & tn' & ? & ? & ?).
        split_and!; try done. exists (tn :: early), tn'.
        split_and!; [simpl; congruence|done|constructor; [lia|done]].
      * destruct Hwait as (? & ? & ?). split_and!; try done.
        -- constructor; [lia|done].
        -- simpl. by f_equal.
    + simpl in Hrun.
      destruct (decide (cb_tx m = _tx_id (client w))) as [Hm|Hm].
      * rewrite wait_callback_done in Hrun by (by destruct w as [[] ? ?]).
        injection Hrun as <- <-.
        exists [EvTime tn; EvQueueGet m]. simpl.
        split; [by rewrite <- app_assoc|].
        split; [done|].
        split; [unfold pumped_of, gets_of; simpl; by rewrite app_nil_r|].
        exists [], m. split_and!; try done. constructor; [lia|constructor].
      * apply IH in Hrun as (evs & Hlog & Htxid & Hqueue & Hwait);
          [|by destruct w as [[] ? ?]].
        exists (EvTime tn :: EvQueueGet m :: evs).
        simpl in Hlog, Htxid, Hqueue, Hwait.
        split; [rewrite Hlog, <- !app_assoc; done|].
        split; [rewrite Htxid at 1; by rewrite set_callback_queue_twice|].
        split.
        { unfold pumped_of, gets_of in *. simpl. f_equal. exact Hqueue. }
        replace (_tx_id (set_callback_queue q (client w)))
          with (_tx_id (client w)) in Hwait by by destruct w as [[] ? ?].
        unfold waited in *. destruct o as [res|e|]; simpl.
        -- destruct Hwait as (stale & m' & Hg & ? & ? & ? & ?).
           exists (m :: stale), m'. unfold gets_of in *. simpl. rewrite Hg.
           split_and!; try done; constructor; [done|done|lia|done].
        -- destruct Hwait as (? & ? & early & tn' & ? & ? & ?).
           split_and!; try done; [by constructor|]. exists (tn :: early), tn'.
           split_and!; [simpl; congruence|done|constructor; [lia|done]].
        -- destruct Hwait as (? & ? & ?). split_and!; try done.
           ++ by constructor.
           ++ constructor; [lia|done].
           ++ simpl. by f_equal.
Qed.

(** The wait ends: on a ticking clock, with more fuel than the readings
    left before the timeout, the loop returns or raises. *)
Lemma wait_callback_ends clock fuel start timeout : ∀ tx msg (w : world R),
  ticking R clock →
  Z.max 0 (timeout + start - clock (server w) + 1) < Z.of_nat fuel →
  (wait_callback fuel start timeout tx msg w).2 ≠ Spinning.
Proof.
  induction fuel as [|fuel IH]; intros tx msg w Htick Hfuel; [lia|].
  destruct (decide (tx = _tx_id (client w))) as [->|Hne].
  { by rewrite wait_callback_done. }
  rewrite wait_callback_step by done. cbv zeta.
  destruct Htick as [Htime Hpump]. destruct (Htime (server w)) as [Hnow Hnext].
  rewrite Hnow. destruct (decide _) as [|Hin]; [done|].
  destruct (callback_queue (client w)) as [|m q]; cbn [server].
  - apply IH; [done|]. cbn [server].
    pose proof (Hpump (time_ms (server w)).1). lia.
  - apply IH; [done|]. cbn [server]. lia.
Qed.

Lemma next_tx_id_pos tx : 0 ≤ tx → 1 ≤ next_tx_id tx ≤ 65535.
Proof. unfold next_tx_id. case_decide; lia. Qed.

(** C1: an asynchronous read of a non-empty valid tag set issues exactly
    one [AsyncRefresh], under the transaction id it has just minted, and if
    the call fails raises its error at once.  Otherwise it notes the time
    and waits: every message it takes from the queue before the last
    carries another id and is dropped, messages are taken in the order
    they were queued and pumped, the wait stops at the first message
    carrying the minted id or raises the timeout error once a reading of
    the clock exceeds the start by more than [timeout], and the result is
    filled from the matched message only.  On a ticking clock, fuel above
    the timeout is enough for the wait to end. *)
Theorem async_read_correlates fuel a g sub valid loc (w w' : world R) o :
  (0 < length valid)%nat → 0 ≤ _tx_id (client w) →
  async_read fuel a g sub valid loc w = (w', o) →
  let minted := next_tx_id (_tx_id (client w)) in
  let ds := pick_source (Arg.source a) (data_source loc) in
  ∃ evs,
    log w' = log w ++ EvAsyncRefresh (Name g) ds minted :: evs
    ∧ match (AsyncRefresh g ds minted (server w)).2 with
      | ComFail hr => o = Raise (com_error hr) ∧ evs = []
      | ComOk _ =>
          ∃ start wait_evs ow,
            evs = EvTime start :: wait_evs
            ∧ waited minted start (Arg.timeout a) fuel wait_evs ow
            ∧ callback_queue (client w) ++ pumped_of wait_evs
              = gets_of wait_evs ++ callback_queue (client w')
            ∧ o = match ow with
                  | Ok (Some m) =>
                      tm ← fill_async (_group_handles_tag (client w)) sub
                             (cb_values m) (cb_qualities m) (cb_timestamps m)
                             0 (cb_handles m) no_tagmaps;
                      Ok (tm, Locals ds (server_handles loc) (Some m))
                  | Ok None => Raise NameError
                  | Raise e => Raise e
                  | Spinning => Spinning
                  end
            ∧ (∀ clock, ticking R clock →
                 Z.max 0 (Arg.timeout a) < Z.of_nat fuel → ow ≠ Spinning)
      end.
Proof.
  intros Hvalid Htx Hrun minted ds. unfold async_read in Hrun.
  destruct (decide _) as [_|]; [|done]. mrun Hrun.
  replace (_tx_id (set_tx_id (next_tx_id (_tx_id (client w))) (client w)))
    with minted in Hrun by by destruct w as [[] ? ?].
  fold ds in Hrun.
  destruct (AsyncRefresh g ds minted (server w)) as [r1 [[]|hr]];
    cbn [fst snd] in *; cbv beta iota in Hrun.
  2:{ injection Hrun as <- <-. by exists []. }
  mrun Hrun. destruct (time_ms r1) as [r2 start] eqn:Htime.
  cbn [fst snd] in Hrun.
  match type of Hrun with context [wait_callback ?f ?s ?t ?x ?m ?w0] =>
    assert (Hends : ∀ clock, ticking R clock →
              Z.max 0 (t + s - clock (server w0) + 1) < Z.of_nat f →
              (wait_callback f s t x m w0).2 ≠ Spinning)
      by (intros clock' ? ?; by apply (wait_callback_ends clock'));
    destruct (wait_callback f s t x m w0) as [w1 ow] eqn:Hwait
  end.
  apply wait_callback_spec in Hwait as (evs & Hlog & Hframe & Hqueue & Hwaited).
  2:{ simpl. pose proof (next_tx_id_pos _ Htx). destruct w as [[] ? ?]; simpl in *.
      subst minted. simpl in *. lia. }
  simpl in Hlog, Hframe, Hqueue, Hwaited.
  replace (_tx_id (set_tx_id (next_tx_id (_tx_id (client w))) (client w)))
    with minted in Hwaited by by destruct w as [[] ? ?].
  replace (callback_queue (set_tx_id (next_tx_id (_tx_id (client w))) (client w)))
    with (callback_queue (client w)) in Hqueue by by destruct w as [[] ? ?].
  assert (Hlog' : log w' = log w1 ∧ callback_queue (client w') = callback_queue (client w1)
                  ∧ o = match ow with
                  | Ok (Some m) =>
                      tm ← fill_async (_group_handles_tag (client w)) sub
                             (cb_values m) (cb_qualities m) (cb_timestamps m)
                             0 (cb_handles m) no_tagmaps;
                      Ok (tm, Locals ds (server_handles loc) (Some m))
                  | Ok None => Raise NameError
                  | Raise e => Raise e
                  | Spinning => Spinning
                  end).
  { destruct ow as [[m|]|e|]; mrun Hrun; try by injection Hrun as <- <-.
    replace (_group_handles_tag (client w1)) with (_group_handles_tag (client w))
      in Hrun by (rewrite Hframe; by destruct w as [[] ? ?]).
    destruct fill_async; mrun Hrun; simpl; by injection Hrun as <- <-. }
  destruct Hlog' as (-> & -> & ->).
  exists (EvTime start :: evs). split.
  { rewrite Hlog, <- !app_assoc. done. }
  exists start, evs, ow. split_and!; try done.
  intros clock Htick Hfuel. apply (Hends clock Htick). cbn [server].
  destruct Htick as [Hclock _]. specialize (Hclock r1).
  rewrite Htime in Hclock. cbn [fst snd] in Hclock. lia.
Qed.

End Wait.

(** ** Client handles *)

Lemma py_max_spec (l : list Z) :
  l ≠ [] → ∃ m, py_max l = Ok m ∧ m ∈ l ∧ ∀ x, x ∈ l → x ≤ m.
Proof.
  destruct l as [|x l]; [done|intros _]. exists (foldl Z.max x l).
  split; [done|]. revert x. induction l as [|y l IH]; intros x; simpl.
  - split; [by left|]. intros z Hz. apply list_elem_of_singleton in Hz. lia.
  - destruct (IH (Z.max x y)) as [Hin Hle]. split.
    + apply elem_of_cons in Hin as [Hin|Hin]; [|by right; right].
      rewrite Hin. destruct (Z.max_spec x y) as [[_ ->]|[_ ->]];
        [right; left|left].
    + intros z Hz.
      assert (Z.max x y ≤ foldl Z.max (Z.max x y) l) by (apply Hle; left).
      apply elem_of_cons in Hz as [->|Hz]; [lia|].
      apply elem_of_cons in Hz as [->|Hz]; [lia|]. apply Hle. by right.
Qed.

Lemma zip_seqZ_fresh (n k : Z) (l : list tag) (i : Z) :
  i < n → (list_to_map (zip (seqZ n k) l) : gmap Z tag) !! i = None.
Proof.
  intros Hi. apply not_elem_of_list_to_map_1. intros Hin.
  apply list_elem_of_fmap in Hin as ([a b] & -> & Hin).
  apply elem_of_zip_l in Hin. apply elem_of_seqZ in Hin. simpl in *. lia.
Qed.

Lemma handles_tag_set m c : _group_handles_tag (set_group_handles_tag m c) = m.
Proof. by destruct c. Qed.

Lemma set_handles_tag_twice m m' c :
  set_group_handles_tag m (set_group_handles_tag m' c) = set_group_handles_tag m c.
Proof. by destruct c. Qed.

Lemma set_handles_tag_id c : set_group_handles_tag (_group_handles_tag c) c = c.
Proof. by destruct c. Qed.

Section AddItems.
Context `{Common} {R : Type} `{!OPCServer R}.

Lemma accepted_nil_r tags : accepted tags [] = [].
Proof. by destruct tags. Qed.

Lemma accepted_cons t tags e errors :
  accepted (t :: tags) (e :: errors)
  = if decide (e = 0) then t :: accepted tags errors else accepted tags errors.
Proof.
  unfold accepted. cbn [zip zip_with]. rewrite filter_cons. cbn [snd].
  by destruct (decide (e = 0)).
Qed.

Lemma assign_handles_spec sub ie errors tags : ∀ i n vt ch msgs (w w' : world R) o hm,
  assign_handles sub ie errors i tags n vt ch msgs w = (w', o) →
  _group_handles_tag (client w) !! sub = Some hm →
  let assigned := accepted tags (drop i errors) in
    client w' = set_group_handles_tag
                  (<[sub := list_to_map (zip (seqZ n (Z.of_nat (length assigned))) assigned) ∪ hm]>
                     (_group_handles_tag (client w))) (client w)
    ∧ server w' = server w ∧ log w' = log w
    ∧ ∀ r, o = Ok r →
        r.1.1 = vt ++ assigned ∧ r.1.2 = ch ++ seqZ n (Z.of_nat (length assigned)).
Proof.
  assert (Hnone : ∀ n (w : world R) (hm : gmap Z tag),
    _group_handles_tag (client w) !! sub = Some hm →
    client w = set_group_handles_tag
      (<[sub := list_to_map (zip (seqZ n (Z.of_nat (length (@nil tag)))) [])
                ∪ hm]> (_group_handles_tag (client w))) (client w)).
  { intros n w hm Hhm.
    replace (list_to_map (zip (seqZ n (Z.of_nat (length (@nil tag)))) []))
      with (∅ : gmap Z tag) by done.
    rewrite (left_id_L ∅ (∪)), insert_id by done.
    by rewrite set_handles_tag_id. }
  induction tags as [|t tags IH]; intros i n vt ch msgs w w' o hm Hrun Hhm.
  - simpl in Hrun. mrun Hrun. injection Hrun as <- <-. cbn zeta.
    change (accepted [] (drop i errors)) with (@nil tag).
    split_and!; try done; [by apply Hnone|].
    intros r [= <-]. simpl. by rewrite !app_nil_r.
  - simpl in Hrun. mrun Hrun. unfold py_index in Hrun. cbn zeta.
    destruct (errors !! i) as [e|] eqn:Hi; mrun Hrun.
    2:{ injection Hrun as <- <-.
        rewrite drop_ge by (by apply lookup_ge_None).
        rewrite accepted_nil_r. split_and!; try done. by apply Hnone. }
    rewrite (drop_S _ _ _ Hi), accepted_cons.
    destruct (decide (e = 0)) as [->|He]; mrun Hrun.
    + unfold py_getitem in Hrun. rewrite Hhm in Hrun. mrun Hrun.
      eapply IH in Hrun as (Hc & Hs & Hl & Hr).
      2:{ cbn [client]. rewrite handles_tag_set. apply lookup_insert_eq. }
      set (assigned := accepted tags (drop (S i) errors)) in *.
      cbn [client server log] in *. split_and!; try done.
      * rewrite Hc, handles_tag_set, set_handles_tag_twice, insert_insert_eq.
        do 2 f_equal.
        rewrite length_cons, Nat2Z.inj_succ. rewrite (seqZ_cons n) by lia.
        rewrite Z.pred_succ. change (Z.succ n) with (n + 1).
        cbn [zip zip_with list_to_map]. simpl.
        rewrite <- insert_union_l. rewrite <- insert_union_r; [done|].
        apply zip_seqZ_fresh. lia.
      * intros r Hro. destruct (Hr r Hro) as [-> ->].
        rewrite <- !app_assoc. split; [done|]. f_equal.
        rewrite length_cons, Nat2Z.inj_succ. rewrite (seqZ_cons n) by lia.
        by rewrite Z.pred_succ.
    + destruct ie; eapply IH in Hrun as (Hc & Hs & Hl & Hr); done.
Qed.

Lemma record_server_handles_frame sub ie errors shs tags :
  ∀ i vt sh msgs (w w' : world R) o,
  record_server_handles sub ie errors shs i tags vt sh msgs w = (w', o) →
  _group_handles_tag (client w') = _group_handles_tag (client w)
  ∧ server w' = server w ∧ log w' = log w.
Proof.
  induction tags as [|t tags IH]; intros i vt sh msgs w w' o Hrun.
  - simpl in Hrun. mrun Hrun. by injection Hrun as <- <-.
  - simpl in Hrun. mrun Hrun. unfold py_index in Hrun.
    destruct (errors !! i) as [e|]; mrun Hrun; [|by injection Hrun as <- <-].
    destruct (decide (e = 0)) as [->|He]; mrun Hrun.
    + destruct (shs !! i) as [h|]; mrun Hrun; [|by injection Hrun as <- <-].
      unfold py_getitem in Hrun.
      destruct (_group_server_handles (client w) !! sub) as [sm|]; mrun Hrun;
        [|by injection Hrun as <- <-].
      apply IH in Hrun as (-> & -> & ->). by destruct w as [[] ? ?].
    + destruct ie; by apply IH in Hrun.
Qed.

Lemma first_handle_spec sub (w w' : world R) o :
  first_handle sub w = (w', o) →
  let old := default ∅ (_group_handles_tag (client w) !! sub) in
  ∃ n, o = Ok n ∧ first_free old n
       ∧ _group_handles_tag (client w') !! sub = Some old
       ∧ server w' = server w ∧ log w' = log w.
Proof.
  intros Hrun old. unfold first_handle in Hrun. mrun Hrun. subst old.
  destruct (_group_handles_tag (client w) !! sub) as [hm|] eqn:Hsub; mrun Hrun.
  - destruct (decide (0 < size hm)%nat) as [Hsz|Hsz]; mrun Hrun.
    + destruct (py_max_spec ((map_to_list hm).*1)) as (m & Hmax & Hin & Hle).
      { intros Hnil. apply fmap_nil_inv, map_to_list_empty_iff in Hnil.
        subst hm. rewrite map_size_empty in Hsz. lia. }
      rewrite Hmax in Hrun. mrun Hrun. injection Hrun as <- <-.
      exists (m + 1). split_and!; try done. right. split.
      * replace (m + 1 - 1) with m by lia.
        apply list_elem_of_fmap in Hin as ([k t] & -> & Hin).
        apply elem_of_map_to_list in Hin. by exists t.
      * intros k [t Hk]. enough (k ≤ m) by lia. apply Hle.
        apply list_elem_of_fmap. exists (k, t). split; [done|].
        by apply elem_of_map_to_list.
    + injection Hrun as <- <-. exists 0. split_and!; try done. left.
      split; [|done]. apply map_size_empty_iff. simpl. lia.
  - injection Hrun as <- <-. exists 0. split_and!; try done.
    + by left.
    + cbn [client]. rewrite handles_tag_set. apply lookup_insert_eq.
Qed.

(** C6: the client handles [add_items] hands out in a sub-group go to
    the tags the validation accepted, in the order of the request, and are
    consecutive integers starting one past the largest handle already in
    the sub-group's map, or at 0 when the map is empty or missing: the
    i-th accepted tag gets the i-th of them.  None of them is already a
    key of the map, so every handle-to-tag entry already present is still
    there afterwards, and the tags submitted to the server's [AddItems] are
    the accepted tags with exactly these handles. *)
Theorem add_items_client_handles g sub ie msgs tags (w : world R) :
  let old := default ∅ (_group_handles_tag (client w) !! sub) in
  let w' := (add_items g sub ie msgs tags w).1 in
  let assigned := accepted tags (validation_codes g tags (server w)) in
  ∃ n,
    let handles := seqZ n (Z.of_nat (length assigned)) in
    first_free old n
    ∧ _group_handles_tag (client w') !! sub
      = Some (list_to_map (zip handles assigned) ∪ old)
    ∧ (∀ i t, assigned !! i = Some t →
         ∃ hm, _group_handles_tag (client w') !! sub = Some hm
               ∧ hm !! (n + Z.of_nat i) = Some t)
    ∧ (∀ h, h ∈ handles → old !! h = None)
    ∧ (∀ h t, old !! h = Some t →
         (list_to_map (zip handles assigned) ∪ old : gmap Z tag) !! h = Some t)
    ∧ (∀ r, (add_items g sub ie msgs tags w).2 = Ok r →
         EvAddItems (Name g) assigned handles ∈ log w').
Proof.
  intros old w' assigned. subst w'.
  destruct (add_items g sub ie msgs tags w) as [w' o] eqn:Hrun.
  cbn [fst snd].
  unfold add_items in Hrun. mrun Hrun.
  set (errors := validation_codes g tags (server w)) in *.
  set (r1 := (Validate g (Z.of_nat (length tags)) tags (server w)).1) in *.
  set (w0 := World (client w) r1 (log w ++ [EvValidate (Name g) tags])).
  assert (Hrun' : (n <~ first_handle sub ;;
      r1 <~ assign_handles sub ie errors 0 tags n [] [] msgs ;;
      let '(valid_tags, client_handles, error_msgs) := r1 in
      r <~ com_or ([], [])
        (call (λ _, EvAddItems (Name g) valid_tags client_handles)
              (AddItems g (Z.of_nat (length client_handles))
                        valid_tags client_handles)) ;;
      let '(server_handles, errors) := r in
      server_map <~ gets _group_server_handles ;;
      (if decide (server_map !! sub = None) then
         modify (set_group_server_handles (<[sub := ∅]> server_map))
       else ret tt) ;;;
      record_server_handles sub ie errors server_handles 0
        valid_tags [] [] error_msgs) w0 = (w', o)).
  { subst errors w0. unfold validation_codes.
    by destruct (Validate g (Z.of_nat (length tags)) tags (server w)).2. }
  clear Hrun. rename Hrun' into Hrun. mrun Hrun.
  destruct (first_handle sub w0) as [w1 o1] eqn:Hfirst.
  apply first_handle_spec in Hfirst as (n & -> & Hfree & Hsub & Hs1 & Hl1).
  subst w0. cbn [client server log] in *. fold old in Hfree, Hsub. mrun Hrun.
  destruct (assign_handles sub ie errors 0 tags n [] [] msgs w1) as [w2 o2] eqn:Hassign.
  eapply assign_handles_spec in Hassign as (Hc2 & Hs2 & Hl2 & Hr2); [|done].
  rewrite drop_0 in Hc2, Hr2. fold assigned in Hc2, Hr2.
  exists n. cbn zeta.
  assert (Hfresh : ∀ h, h ∈ seqZ n (Z.of_nat (length assigned)) → old !! h = None).
  { intros h Hh. apply elem_of_seqZ in Hh.
    destruct Hfree as [[-> _]|[_ Hlt]]; [done|].
    destruct (old !! h) eqn:Hoh; [|done]. specialize (Hlt h (mk_is_Some _ _ Hoh)). lia. }
  assert (Hmap2 : _group_handles_tag (client w2) !! sub
                  = Some (list_to_map (zip (seqZ n (Z.of_nat (length assigned))) assigned) ∪ old)).
  { rewrite Hc2, handles_tag_set. apply lookup_insert_eq. }
  assert (Hrest : _group_handles_tag (client w') = _group_handles_tag (client w2)
            ∧ ∀ r, o = Ok r →
                log w' = log w2 ++ [EvAddItems (Name g) assigned
                                      (seqZ n (Z.of_nat (length assigned)))]).
  { destruct o2 as [[[vt ch] msgs2]|e|]; mrun Hrun;
      try (injection Hrun as <- <-; by split).
    destruct (Hr2 _ eq_refl) as [Hvt Hch]. cbn [fst snd] in Hvt, Hch.
    rewrite app_nil_l in Hvt, Hch. subst vt ch.
    destruct (AddItems g _ assigned _ (server w2)) as [r3 [[shs errs]|hr]];
      mrun Hrun.
    all: match type of Hrun with
         | context [decide ?P] => destruct (decide P); mrun Hrun
         end.
    all: destruct record_server_handles as [w4 o4] eqn:Hrec in Hrun; mrun Hrun;
      apply record_server_handles_frame in Hrec as (Hh & _ & Hl4);
      cbn [client log] in Hh, Hl4;
      assert (w4 = w') as <- by (by destruct o4; injection Hrun);
      rewrite Hh, Hl4; split; try done; by destruct w2 as [[] ? ?]. }
  destruct Hrest as [Hh Hlog].
  split; [done|]. split_and!.
  - by rewrite Hh.
  - intros i t Hi. eexists. split; [by rewrite Hh|].
    apply lookup_union_Some_raw. left.
    apply elem_of_list_to_map_1.
    + rewrite fst_zip by (rewrite length_seqZ; lia). apply NoDup_seqZ.
    + apply list_elem_of_lookup. exists i. apply lookup_zip_with_Some.
      exists (n + Z.of_nat i), t. split_and!; [done| |done].
      apply lookup_seqZ. split; [done|]. apply lookup_lt_Some in Hi. lia.
  - done.
  - intros h t Hold. apply lookup_union_Some_raw. right. split; [|done].
    apply not_elem_of_list_to_map_1. intros Hin.
    apply list_elem_of_fmap in Hin as ([a b] & -> & Hin).
    apply elem_of_zip_l in Hin. apply Hfresh in Hin. simpl in *. congruence.
  - intros r Hro. rewrite (Hlog r Hro). apply elem_of_app. right. by left.
Qed.

End AddItems.

(** ** Removing groups *)

Lemma sub_name_inj g i j : sub_name g i = sub_name g j → i = j.
Proof.
  unfold sub_name. intros Heq. apply (inj (String.app g)) in Heq.
  apply (inj (String.app ".")) in Heq. by apply (inj pretty) in Heq.
Qed.


Section Remove.
Context `{Common} {R : Type} `{!OPCServer R}.




End Remove.

(** ** Chunks *)

Lemma py_range_from_concat {A} (l : list A) (s : nat) : ∀ fuel i,
  (0 < s)%nat → (length l - i ≤ fuel)%nat →
  concat ((λ i, py_slice l i (i + s)) <$> py_range_from fuel i (length l) s)
  = drop i l.
Proof.
  intros fuel. induction fuel as [|fuel IH]; intros i Hs Hfuel; simpl.
  - rewrite drop_ge; [done|lia].
  - destruct (Nat.ltb_spec i (length l)) as [Hlt|Hge]; simpl.
    + rewrite IH by lia. unfold py_slice.
      replace (i + s - i)%nat with s by lia.
      rewrite <- (take_drop s (drop i l)) at 2. by rewrite drop_drop.
    + rewrite drop_ge; [done|lia].
Qed.

Lemma py_range_from_length (stop s : nat) : ∀ fuel i,
  (0 < s)%nat → (stop - i ≤ fuel)%nat →
  length (py_range_from fuel i stop s) = ((stop - i + s - 1) / s)%nat.
Proof.
  intros fuel. induction fuel as [|fuel IH]; intros i Hs Hfuel; simpl.
  - symmetry. apply Nat.div_small. lia.
  - destruct (Nat.ltb_spec i stop) as [Hlt|Hge]; simpl.
    + rewrite IH by lia.
      destruct (decide (stop - i ≤ s)%nat) as [Hle|Hgt].
      * replace (stop - (i + s))%nat with 0%nat by lia.
        rewrite (Nat.div_small (0 + s - 1)) by lia.
        apply (Nat.div_unique _ _ 1%nat (stop - i - 1)%nat); lia.
      * replace (stop - i + s - 1)%nat with ((stop - (i + s) + s - 1) + 1 * s)%nat
          by lia.
        rewrite Nat.div_add by lia. lia.
    + symmetry. apply Nat.div_small. lia.
Qed.

Lemma py_range_from_bound (stop s : nat) : ∀ fuel i,
  Forall (λ j, j < stop)%nat (py_range_from fuel i stop s).
Proof.
  intros fuel. induction fuel as [|fuel IH]; intros i; simpl; [constructor|].
  destruct (Nat.ltb_spec i stop); constructor; [done|apply IH].
Qed.

(** The chunking of lines 292 and 573-575: for a positive [size] there
    are [ceil(len / size)] chunks, none empty and none longer than [size],
    and put back together they are the list. *)
Lemma chunks_spec {A} (l : list A) (size : Z) :
  0 < size →
  concat (chunks l size) = l
  ∧ Z.of_nat (length (chunks l size)) = (Z.of_nat (length l) + size - 1) / size
  ∧ Forall (λ c, 0 < Z.of_nat (length c) ≤ size) (chunks l size).
Proof.
  intros Hsize. unfold chunks. destruct (decide (0 < size)); [|done].
  assert (Hs : (0 < Z.to_nat size)%nat) by lia. split_and!.
  - unfold py_range. rewrite py_range_from_concat by lia. apply drop_0.
  - rewrite length_fmap. unfold py_range. rewrite py_range_from_length by lia.
    rewrite Nat.sub_0_r.
    rewrite Nat2Z.inj_div, Nat2Z.inj_sub, Nat2Z.inj_add by lia.
    rewrite Z2Nat.id by lia. done.
  - apply Forall_fmap. eapply Forall_impl; [apply py_range_from_bound|].
    intros i Hi. simpl. unfold py_slice.
    rewrite length_take, length_drop. simpl in Hi. lia.
Qed.

(** ** The tags of the records *)

Section ReadTags.
Context `{Common} {R : Type} `{!OPCServer R}.

Lemma log_grows {A} (Q : A → Prop) (m : M R A) (w w' : world R) o :
  triple (λ _, True) iread_raises Q m → m w = (w', o) →
  ∃ evs, log w' = log w ++ evs.
Proof.
  intros Hm Hrun. destruct (Hm w) as [(evs & Hlog & _) _].
  rewrite Hrun in Hlog. by exists evs.
Qed.

Lemma assemble_tags sync ie single valid tm tags : ∀ msgs status status',
  assemble sync ie single valid tm tags msgs status = Ok status' →
  ∃ recs, status' = status ++ recs ∧ r_tag <$> recs = shown single <$> tags.
Proof.
  induction tags as [|t tags IH]; intros msgs status status' Hrun; simpl in Hrun.
  - injection Hrun as <-. exists []. by rewrite app_nil_r.
  - destruct (tag_status sync ie valid tm t msgs) as [[[[v q] ts] msgs']|e|];
      simpl in Hrun; try done.
    destruct (if ie then _ else _) as [err|e|] in Hrun; simpl in Hrun; try done.
    apply IH in Hrun as (recs & -> & Htags).
    eexists (_ :: recs). rewrite <- app_assoc. split; [done|].
    rewrite !fmap_cons. by rewrite Htags.
Qed.

Lemma open_group_spec group gid tgs (w w' : world R) g sub new :
  open_group group gid tgs w = (w', Ok (g, sub, new)) →
  ∃ evs, log w' = log w ++ evs
    ∧ (new = false → ∃ n, EvGetOPCGroup n true ∈ evs)
    ∧ (group = None → new = true).
Proof.
  intros Hrun. unfold open_group in Hrun. destruct group as [name|]; mrun Hrun.
  - destruct (GetOPCGroup (sub_name name gid) (server w)) as [r1 [g1|hr]];
      mrun Hrun.
    + injection Hrun as <- <- <- <-. eexists [_]. split; [done|].
      split; [|done]. intros _. eexists. by left.
    + destruct (GroupsAdd (Some (sub_name name gid)) r1) as [r2 [g2|hr2]];
        mrun Hrun; [|done].
      destruct tgs as [l|]; mrun Hrun; [|done].
      injection Hrun as <- <- <- <-. eexists [_; _]. cbn [log].
      rewrite <- app_assoc. done.
  - destruct (GroupsAdd None (server w)) as [r1 [g1|hr]]; mrun Hrun; [|done].
    injection Hrun as <- <- <- <-. eexists [_]. done.
Qed.

Lemma resolve_items_tags a sync g sub new tgs gid loc (w w' : world R)
    tags valid loc' msgs :
  resolve_items a sync g sub new tgs gid loc w = (w', Ok (tags, valid, loc', msgs)) →
  new = true ∨ Arg.rebuild a = true →
  ∃ l, tgs = Some l ∧ l !! gid = Some tags.
Proof.
  intros Hrun Hnew. unfold resolve_items in Hrun.
  assert (Hchunk : ∀ (w1 w2 : world R) t,
            chunk_of tgs gid w1 = (w2, Ok t) →
            w2 = w1 ∧ ∃ l, tgs = Some l ∧ l !! gid = Some t).
  { intros w1 w2 t Hc. unfold chunk_of in Hc. destruct tgs as [l|]; [|done].
    rewrite run_lift in Hc. unfold py_index in Hc.
    destruct (l !! gid) eqn:Hl; [|done]. injection Hc as <- <-. eauto. }
  destruct new.
  - mrun Hrun.
    match type of Hrun with
    | context [(if ?c then ?x else ?y) ?w1] =>
        destruct ((if c then x else y) w1) as [w2 [[]|e|]]; mrun Hrun; try done
    end.
    destruct (chunk_of tgs gid w2) as [w3 [t|e|]] eqn:Hc; mrun Hrun; try done.
    apply Hchunk in Hc as [-> Htags].
    destruct add_items as [w4 [[[vt sh] ms]|e|]] in Hrun; mrun Hrun; try done.
    by injection Hrun as <- <- <- <- <-.
  - destruct Hnew as [|Hre]; [done|]. rewrite Hre in Hrun. mrun Hrun.
    destruct (chunk_of tgs gid w) as [w3 [t|e|]] eqn:Hc; mrun Hrun; try done.
    apply Hchunk in Hc as [-> Htags].
    destruct (py_getitem _ _) as [cached|e|] in Hrun; mrun Hrun; try done.
    match type of Hrun with
    | context [(if ?c then ?x else ?y) ?w1] =>
        destruct ((if c then x else y) w1) as [w4 [[[vt sh] ms]|e|]];
          mrun Hrun; try done
    end.
    match type of Hrun with
    | context [(if ?c then ?x else ?y) ?w1] =>
        destruct ((if c then x else y) w1) as [w5 [vt'|e|]];
          mrun Hrun; try done
    end.
    by injection Hrun as <- <- <- <- <-.
Qed.

Lemma found_none_app evs1 evs2 :
  found_none (evs1 ++ evs2) ↔ found_none evs1 ∧ found_none evs2.
Proof. apply Forall_app. Qed.

Lemma iread_group_tags fuel a sync update single tgs gid loc status
    (w w' : world R) loc' status' :
  iread_group fuel a sync update single tgs gid loc status w
    = (w', Ok (loc', status')) →
  ∃ evs tags recs,
    log w' = log w ++ evs ∧ status' = status ++ recs
    ∧ r_tag <$> recs = shown single <$> tags
    ∧ (Arg.group a = None ∨ Arg.rebuild a = true ∨ found_none evs →
       ∃ l, tgs = Some l ∧ l !! gid = Some tags).
Proof.
  intros Hrun.
  assert (Hall : ∃ evs, log w' = log w ++ evs).
  { eapply log_grows; [|exact Hrun].
    apply (iread_group_triple a (λ _, True) (λ _, True)); done. }
  destruct Hall as [evs Hlog].
  unfold iread_group in Hrun. mrun Hrun.
  match type of Hrun with
  | context [(if ?c then ?x else ?y) w] =>
      assert (Hpre : ∃ w0 evs0, (if c then x else y) w = (w0, Ok tt)
                                ∧ log w0 = log w ++ evs0)
  end.
  { destruct (_ && _); [eexists _, [_]|eexists _, []]; split; try done.
    by rewrite app_nil_r. }
  destruct Hpre as (w0 & evs0 & Hpre & Hlog0). rewrite Hpre in Hrun. clear Hpre.
  mrun Hrun.
  destruct open_group as [w1 [[[g sub] new]|e|]] eqn:Hopen in Hrun;
    mrun Hrun; try done.
  apply open_group_spec in Hopen as (evs1 & Hlog1 & Hfound & Hanon).
  cbn [log] in Hlog1.
  destruct resolve_items as [w2 [[[[tags valid] loc1] msgs]|e|]] eqn:Hres in Hrun;
    mrun Hrun; try done.
  pose proof Hres as Hlog2. eapply log_grows in Hlog2 as [evs2 Hlog2].
  2:{ apply (resolve_items_triple a (λ _, True) (λ _, True)); done. }
  match type of Hrun with
  | context [(if sync then ?x else ?y) w2] =>
      destruct ((if sync then x else y) w2) as [w3 [[tm loc2]|e|]] eqn:Hread;
        mrun Hrun; try done
  end.
  pose proof Hread as Hlog3. eapply log_grows in Hlog3 as [evs3 Hlog3].
  2:{ instantiate (1 := λ _, True). destruct sync.
      - eapply triple_weaken;
          [apply (sync_read_triple a (λ _, True) (λ _, True)); done|done].
      - eapply triple_weaken;
          [apply (async_read_triple a (λ _, True) (λ _, True)); done|done]. }
  destruct (assemble _ _ _ _ _ _ _ _) as [st|e|] eqn:Hasm in Hrun;
    mrun Hrun; try done.
  apply assemble_tags in Hasm as (recs & -> & Htags).
  match type of Hrun with
  | context [match ?m w3 with _ => _ end] =>
      destruct (m w3) as [w4 [[]|e|]] eqn:Hclose; mrun Hrun; try done
  end.
  pose proof Hclose as Hlog4. eapply log_grows in Hlog4 as [evs4 Hlog4].
  2:{ instantiate (1 := λ _, True). destruct (Arg.group a).
      - by apply triple_ret.
      - apply (close_anonymous_triple (λ _, True)); done. }
  injection Hrun as <- <- <-.
  exists evs, tags, recs. split_and!; try done.
  intros Hfresh. eapply resolve_items_tags; [exact Hres|].
  destruct new; [by left|]. destruct Hfresh as [Hn|[Hr|Hf]].
  - by left; apply Hanon.
  - by right.
  - destruct (Hfound eq_refl) as [n Hin]. exfalso.
    unfold found_none in Hf. rewrite Forall_forall in Hf.
    enough (is_found (EvGetOPCGroup n true) = false) by done. apply Hf.
    assert (evs = evs0 ++ [EvSetUpdateRate update] ++ evs1 ++ evs2 ++ evs3 ++ evs4)
      as ->.
    { apply (app_inv_head (log w)).
      rewrite <- Hlog, Hlog4, Hlog3, Hlog2, Hlog1, Hlog0.
      by rewrite <- !app_assoc. }
    rewrite !elem_of_app. tauto.
Qed.

Lemma iread_loop_tags fuel a sync update single tgs gids : ∀ loc status
    (w w' : world R) status',
  iread_loop fuel a sync update single tgs gids loc status w = (w', Ok status') →
  ∃ evs chunks recs,
    log w' = log w ++ evs ∧ status' = status ++ recs
    ∧ r_tag <$> recs = shown single <$> concat chunks
    ∧ (Arg.group a = None ∨ Arg.rebuild a = true ∨ found_none evs →
       Forall2 (λ gid c, ∃ l, tgs = Some l ∧ l !! gid = Some c) gids chunks).
Proof.
  induction gids as [|gid gids IH]; intros loc status w w' status' Hrun;
    simpl in Hrun.
  - injection Hrun as <- <-. exists [], [], []. rewrite !app_nil_r.
    split_and!; done.
  - mrun Hrun.
    destruct iread_group as [w1 [[loc1 st1]|e|]] eqn:Hgrp in Hrun; mrun Hrun;
      try done.
    apply iread_group_tags in Hgrp as (evs1 & tags & recs1 & Hl1 & -> & Ht1 & Hf1).
    apply IH in Hrun as (evs2 & chunks & recs2 & Hl2 & -> & Ht2 & Hf2).
    exists (evs1 ++ evs2), (tags :: chunks), (recs1 ++ recs2).
    split_and!.
    + by rewrite Hl2, Hl1, app_assoc.
    + by rewrite app_assoc.
    + simpl. by rewrite !fmap_app, Ht1, Ht2.
    + intros Hfresh. constructor.
      * apply Hf1. destruct Hfresh as [?|[?|Hf]]; auto.
        right; right. by apply found_none_app in Hf as [? ?].
      * apply Hf2. destruct Hfresh as [?|[?|Hf]]; auto.
        right; right. by apply found_none_app in Hf as [? ?].
Qed.

Lemma Forall2_lookup_seq {A} (l chunks : list A) :
  Forall2 (λ gid c, l !! gid = Some c) (seq 0 (length l)) chunks → chunks = l.
Proof.
  intros Hall. apply list_eq. intros i.
  destruct (decide (i < length l)%nat) as [Hi|Hi].
  - eapply Forall2_lookup_l in Hall as (c & Hc & Hl).
    2:{ apply lookup_seq. split; [done|]. exact Hi. }
    simpl in Hl. by rewrite Hc, Hl.
  - apply Forall2_length in Hall. rewrite length_seq in Hall.
    rewrite !lookup_ge_None_2; [done|lia|lia].
Qed.

Lemma events_of_app (w w' : world R) evs :
  log w' = log w ++ evs → events_of w w' = evs.
Proof. intros Hl. unfold events_of. by rewrite Hl, drop_app_length. Qed.


End ReadTags.

Section WriteTags.
Context `{Common} {R : Type} `{!OPCServer R}.

Lemma write_status_tags ie single errors valid tags : ∀ n msgs result result',
  write_status ie single errors valid n tags msgs result = Ok result' →
  ∃ recs, result' = result ++ recs ∧ w_tag <$> recs = shown single <$> tags.
Proof.
  induction tags as [|t tags IH]; intros n msgs result result' Hrun;
    simpl in Hrun.
  - injection Hrun as <-. exists []. by rewrite app_nil_r.
  - destruct (if decide (t ∈ valid) then _ else _) as [[[st ms] n']|e|] in Hrun;
      simpl in Hrun; try done.
    destruct (if ie then _ else _) as [ms'|e|] in Hrun; simpl in Hrun; try done.
    destruct (if ie then _ else _) as [err|e|] in Hrun; simpl in Hrun; try done.
    apply IH in Hrun as (recs & -> & Htags).
    eexists (_ :: recs). rewrite <- app_assoc. split; [done|].
    rewrite !fmap_cons. by rewrite Htags.
Qed.

Lemma iwrite_group_tags pause ie single ngs tgs vgs gid result
    (w w' : world R) result' :
  iwrite_group pause ie single ngs tgs vgs gid result w = (w', Ok result') →
  ∃ tags recs, tgs !! gid = Some tags ∧ result' = result ++ recs
               ∧ w_tag <$> recs = shown single <$> tags.
Proof.
  intros Hrun. unfold iwrite_group in Hrun. mrun Hrun.
  match type of Hrun with
  | context [(if ?c then ?x else ?y) w] =>
      destruct ((if c then x else y) w) as [w0 [[]|e|]]; mrun Hrun; try done
  end.
  destruct (GroupsAdd None (server w0)) as [r1 [g|hr]]; mrun Hrun; [|done].
  unfold py_index in Hrun.
  destruct (ngs !! gid) as [names|]; mrun Hrun; [|done].
  destruct (tgs !! gid) as [tags|] eqn:Htags; mrun Hrun; [|done].
  destruct (vgs !! gid) as [values|]; mrun Hrun; [|done].
  destruct (Validate g _ names r1) as [r2 res]. mrun Hrun.
  set (errors := match res with ComOk x => x | ComFail _ => [] end).
  assert (Hrun' : ∃ w2, match
      (w2, write_validated ie errors 0 tags values 1 [] [] [] ∅)
    with
    | (w'0, Ok a) =>
        (let
         '(valid_tags, valid_values, client_handles, error_msgs) := a in
          r <~ com_or ([], [])
            (call (λ _, EvAddItems (Name g) valid_tags client_handles)
                  (AddItems g (Z.of_nat (length client_handles)) valid_tags
                            client_handles));;
          (let
           '(server_handles, errors) := r in
            r0 <~ lift (write_added ie errors server_handles valid_values 0
                          valid_tags [] [] [] error_msgs);;
            (let
             '(valid_tags0, valid_values0, server_handles0, error_msgs0) := r0 in
              errors0 <~ (if decide (0 < length valid_values0)%nat then
                   com_or []
                     (call (λ _, EvSyncWrite (Name g) server_handles0 valid_values0)
                           (SyncWrite g (Z.of_nat (length server_handles0))
                                      server_handles0 valid_values0))
                 else ret []);;
              result0 <~ lift (write_status ie single errors0 valid_tags0 0 tags
                                 error_msgs0 result);;
              _ <~ com (call (λ _, EvRemoveGroup (Name g)) (GroupsRemove (Name g)));;
              ret result0))) w'0
    | (w'0, Raise e) => (w'0, Raise e)
    | (w'0, Spinning) => (w'0, Spinning)
    end = (w', Ok result')).
  { subst errors. destruct res; mrun Hrun; eauto. }
  clear Hrun. destruct Hrun' as [w2 Hrun].
  destruct write_validated as [[[[vt vv] ch] ms]|e|] in Hrun; mrun Hrun; try done.
  destruct (AddItems g _ vt ch (server w2)) as [r3 res3]. mrun Hrun.
  destruct res3 as [[shs errs]|hr]; mrun Hrun.
  all: destruct write_added as [[[[vt' vv'] sh'] ms']|e|] in Hrun; mrun Hrun;
    try done.
  all: match type of Hrun with
       | context [(if ?c then ?x else ?y) ?w3] =>
           destruct ((if c then x else y) w3) as [w4 [errs4|e|]]; mrun Hrun;
             try done
       end.
  all: destruct write_status as [res4|e|] eqn:Hst in Hrun; mrun Hrun; try done.
  all: apply write_status_tags in Hst as (recs & -> & Hrecs).
  all: destruct (GroupsRemove (Name g) (server w4)) as [r5 [[]|hr5]]; mrun Hrun;
    try done.
  all: injection Hrun as <- <-; eauto.
Qed.

Lemma iwrite_loop_tags pause ie single ngs tgs vgs gids : ∀ result
    (w w' : world R) result',
  iwrite_loop pause ie single ngs tgs vgs gids result w = (w', Ok result') →
  ∃ chunks recs, result' = result ++ recs
    ∧ w_tag <$> recs = shown single <$> concat chunks
    ∧ Forall2 (λ gid c, tgs !! gid = Some c) gids chunks.
Proof.
  induction gids as [|gid gids IH]; intros result w w' result' Hrun;
    simpl in Hrun.
  - injection Hrun as <- <-. exists [], []. rewrite app_nil_r.
    split_and!; done.
  - mrun Hrun.
    destruct iwrite_group as [w1 [res1|e|]] eqn:Hgrp in Hrun; mrun Hrun;
      try done.
    apply iwrite_group_tags in Hgrp as (tags & recs1 & Htg & -> & Ht1).
    apply IH in Hrun as (chunks & recs2 & -> & Ht2 & Hall).
    exists (tags :: chunks), (recs1 ++ recs2). split_and!.
    + by rewrite app_assoc.
    + simpl. by rewrite !fmap_app, Ht1, Ht2.
    + by constructor.
Qed.


End WriteTags.

(** ** Data source and argument checks *)

Section Source.
Context `{Common} {R : Type} `{!OPCServer R}.

(** C5, as the code has it: in a read with [rebuild=True] every
    synchronous read and every asynchronous refresh the call issues uses the
    cache when the caller asked for [source='cache'], and the device for
    any other source mode, whether or not tags were added. *)
Theorem rebuild_read_source fuel tags a (w : world R) :
  Arg.rebuild a = true →
  Forall (reads_from (if decide (Arg.source a = "cache") then SOURCE_CACHE
                      else SOURCE_DEVICE))
         (events_of w (iread fuel tags a w).1).
Proof.
  intros Hre.
  set (ds := if decide (Arg.source a = "cache") then SOURCE_CACHE else SOURCE_DEVICE).
  assert (Hpick : ∀ d, (Arg.source a = "hybrid" → d = SOURCE_DEVICE) →
                       pick_source (Arg.source a) d = ds).
  { intros d Hd. unfold pick_source, ds. destruct (decide (Arg.source a ≠ "hybrid")) as [|Hh];
      [done|]. apply dec_stable in Hh. rewrite decide_False by (by rewrite Hh).
    auto. }
  destruct (iread_triple a (reads_from ds)
              (λ d, Arg.source a = "hybrid" → d = SOURCE_DEVICE)) with
    (fuel := fuel) (tags := tags) (w := w) as [(evs & Hlog & Hevs) _].
  - by intros [].
  - intros g d hs Hd. simpl. by apply Hpick.
  - intros g d tx Hd. simpl. by apply Hpick.
  - intros d Hd Hh. rewrite Hpick by done. unfold ds. by rewrite decide_False by (by rewrite Hh).
  - intros d Hd Hh. by rewrite decide_True.
  - done.
  - intros Hf. congruence.
  - by rewrite (events_of_app _ _ evs).
Qed.

Lemma health_count P `{∀ x : tag, Decision (P x)} (l : list tag) :
  (0 < length (filter P l))%nat ↔ Exists P l.
Proof.
  induction l as [|t l IH]; simpl.
  - split; [lia|by intros ?%Exists_nil].
  - rewrite filter_cons. destruct (decide (P t)); simpl.
    + split; [by left|lia].
    + rewrite IH. split; [by right|]. by intros [?|?]%Exists_cons.
Qed.

(** C10: a tag list with both a health tag (a name starting with ['@'])
    and an OPC tag makes [read] raise its [TypeError] with nothing called
    and nothing changed; a list without a health tag, or without an OPC
    tag, never raises that error. *)
Theorem read_rejects_mixed_tags fuel l a (w : world R) :
  (Exists (λ t, is_health t = true) l ∧ Exists (λ t, is_health t ≠ true) l →
   read fuel (TagsList l) a w = (w, Raise (TypeError health_msg)))
  ∧ (Forall (λ t, is_health t = true) l ∨ Forall (λ t, is_health t ≠ true) l →
     (read fuel (TagsList l) a w).2 ≠ Raise (TypeError health_msg)).
Proof.
  unfold read. simpl. split.
  - intros [Hh Ho]. apply (proj2 (health_count _ _)) in Hh, Ho.
    rewrite run_bind. rewrite !decide_True by done. done.
  - intros Hall. rewrite run_bind.
    destruct (decide (0 < length (filter (λ t, is_health t = true) l))%nat) as [Hh|Hh].
    + destruct (decide (0 < length (filter (λ t, is_health t ≠ true) l))%nat) as [Ho|Ho];
        [|done].
      apply health_count in Hh, Ho. exfalso.
      apply Exists_exists in Hh as (t1 & Hin1 & Ht1).
      apply Exists_exists in Ho as (t2 & Hin2 & Ht2).
      destruct Hall as [Hall|Hall]; rewrite Forall_forall in Hall.
      * by apply Ht2, Hall.
      * by apply (Hall t1).
    + destruct (iread_triple a (λ _, True) (λ _, True)) with
        (fuel := fuel) (tags := TagsList l) (w := w) as [_ Hres]; try done.
      destruct (iread fuel (TagsList l) a w) as [w' [st|e|]]; simpl in *; try done.
      intros [= ->]. simpl in Hres. by destruct Hres.
Qed.

End Source.

(** ** The transaction counter, validation failures, missing tags *)

Section Small.
Context `{Common} {R : Type} `{!OPCServer R}.

Lemma wait_callback_client fuel start timeout : ∀ tx msg (w : world R),
  client (wait_callback fuel start timeout tx msg w).1
  = set_callback_queue
      (callback_queue (client (wait_callback fuel start timeout tx msg w).1))
      (client w).
Proof.
  intros tx msg w. destruct (decide (tx = _tx_id (client w))) as [->|Hne].
  - rewrite wait_callback_done by done. simpl. by rewrite set_callback_queue_id.
  - destruct wait_callback as [w' o] eqn:Hrun.
    by apply wait_callback_spec in Hrun as (? & ? & ? & ? & ?).
Qed.

Lemma async_read_tx_id fuel a g sub valid loc (w : world R) :
  _tx_id (client (async_read fuel a g sub valid loc w).1)
  = if decide (0 < length valid)%nat then next_tx_id (_tx_id (client w))
    else _tx_id (client w).
Proof.
  destruct (async_read fuel a g sub valid loc w) as [w' o] eqn:Hrun.
  unfold async_read in Hrun. cbn [fst].
  destruct (decide _); [|by injection Hrun as <- <-]. mrun Hrun.
  destruct (AsyncRefresh _ _ _ _) as [r1 [[]|hr]] in Hrun; mrun Hrun.
  2:{ injection Hrun as <- <-. by destruct w as [[] ? ?]. }
  destruct (time_ms r1) as [r2 start]. mrun Hrun.
  match type of Hrun with
  | context [wait_callback ?f ?s ?t ?x ?m ?w0] =>
      pose proof (wait_callback_client f s t x m w0) as Hc;
        destruct (wait_callback f s t x m w0) as [w1 ow]
  end.
  cbn [fst client] in Hc.
  assert (_tx_id (client w') = _tx_id (client w1)) as ->.
  { destruct ow as [[m|]|e|]; mrun Hrun; try by injection Hrun as <- <-.
    destruct fill_async; mrun Hrun; by injection Hrun as <- <-. }
  rewrite Hc. by destruct w as [[] ? ?].
Qed.

Local Abbreviation M := (M R).

Lemma mints_ret {A} (a : A) : mints (ret (R:=R) a).
Proof. intros w. by exists 0%nat. Qed.

Lemma mints_same {A} (m : M A) :
  (∀ w, _tx_id (client (m w).1) = _tx_id (client w)) → mints m.
Proof. intros Hm w. exists 0%nat. apply Hm. Qed.

Lemma mints_bind {A B} (m : M A) (f : A → M B) :
  mints m → (∀ a, mints (f a)) → mints (bind m f).
Proof.
  intros Hm Hf w. unfold bind. destruct (Hm w) as [k Hk].
  destruct (m w) as [w1 [a|e|]]; simpl in *; try by exists k.
  destruct (Hf a w1) as [k' Hk']. exists (k' + k)%nat.
  by rewrite Hk', Hk, Nat.iter_add.
Qed.

Lemma mints_com {A} (m : M (com_result A)) : mints m → mints (com m).
Proof.
  intros Hm. unfold com. apply mints_bind; [done|].
  intros [a|hr]; by apply mints_same.
Qed.

Lemma mints_com_or {A} (d : A) (m : M (com_result A)) :
  mints m → mints (com_or d m).
Proof.
  intros Hm. unfold com_or. apply mints_bind; [done|].
  intros [a|hr]; by apply mints_same.
Qed.

Lemma mints_call {A} ev (op : R → R * A) : mints (call ev op).
Proof. apply mints_same. intros w. by rewrite run_call. Qed.

Lemma mints_modify f :
  (∀ c, _tx_id (f c) = _tx_id c) → mints (modify (R:=R) f).
Proof. intros Hf. apply mints_same. intros w. apply Hf. Qed.

Ltac same := apply mints_same; intros ?; reflexivity.

Ltac mint_step :=
  lazymatch goal with
  | |- mints (bind _ _) => apply mints_bind; [|intros ?]
  | |- mints (com _) => apply mints_com
  | |- mints (com_or _ _) => apply mints_com_or
  | |- mints (call _ _) => apply mints_call
  | |- mints (modify _) => apply mints_modify; intros []; reflexivity
  | |- mints (dict_get _ _) => same
  | |- mints (ret _) => same
  | |- mints (raise _) => same
  | |- mints (lift _) => same
  | |- mints (gets _) => same
  | |- mints (ask _) => same
  | |- mints (note _) => same
  | |- mints (tell _ _) => same
  | |- mints (match ?x with _ => _ end) => destruct x
  end.

Lemma assign_handles_mints sub ie errors tags : ∀ i n vt ch msgs,
  mints (R:=R) (assign_handles sub ie errors i tags n vt ch msgs).
Proof.
  induction tags as [|t tags IH]; intros; simpl; [same|].
  repeat first [apply IH | mint_step].
Qed.

Lemma record_server_handles_mints sub ie errors shs tags : ∀ i vt sh msgs,
  mints (R:=R) (record_server_handles sub ie errors shs i tags vt sh msgs).
Proof.
  induction tags as [|t tags IH]; intros; simpl; [same|].
  repeat first [apply IH | mint_step].
Qed.

Lemma add_items_mints g sub ie msgs tags : mints (add_items g sub ie msgs tags).
Proof.
  unfold add_items, first_handle.
  repeat first [apply assign_handles_mints | apply record_server_handles_mints
               | mint_step].
Qed.

Lemma lookup_server_handles_mints sub tags :
  mints (R:=R) (lookup_server_handles sub tags).
Proof.
  induction tags as [|t tags IH]; simpl; [same|].
  repeat first [apply IH | mint_step].
Qed.

Lemma remove_items_mints g sub tags : mints (remove_items g sub tags).
Proof.
  unfold remove_items.
  repeat first [apply lookup_server_handles_mints | mint_step].
Qed.

Lemma wait_callback_mints fuel start timeout : ∀ tx msg,
  mints (wait_callback fuel start timeout tx msg).
Proof.
  intros tx msg. apply mints_same. intros w.
  rewrite (wait_callback_client fuel start timeout tx msg w).
  by destruct (client w).
Qed.

Lemma async_read_mints fuel a g sub valid loc :
  mints (async_read fuel a g sub valid loc).
Proof.
  intros w. rewrite async_read_tx_id. destruct (decide _).
  - by exists 1%nat.
  - by exists 0%nat.
Qed.

Lemma iread_group_mints fuel a sync update single tgs gid loc status :
  mints (iread_group fuel a sync update single tgs gid loc status).
Proof.
  unfold iread_group, open_group, resolve_items, chunk_of, sync_read,
    close_anonymous.
  repeat first [apply add_items_mints | apply remove_items_mints
               | apply async_read_mints | mint_step].
Qed.

Lemma iread_loop_mints fuel a sync update single tgs gids : ∀ loc status,
  mints (iread_loop fuel a sync update single tgs gids loc status).
Proof.
  induction gids as [|gid gids IH]; intros; simpl; [same|].
  apply mints_bind; [apply iread_group_mints|intros ?; apply IH].
Qed.

Lemma iread_mints fuel tags a : mints (iread fuel tags a).
Proof.
  unfold iread.
  repeat first [apply iread_loop_mints | mint_step].
Qed.

Lemma next_tx_id_iter_range (k : nat) c :
  0 ≤ c ≤ 65535 → 0 ≤ Nat.iter k next_tx_id c ≤ 65535.
Proof.
  intros Hc. induction k as [|k IH]; [done|].
  rewrite Nat.iter_succ. set (x := Nat.iter k next_tx_id c) in *.
  unfold next_tx_id. cbv zeta. case_decide; lia.
Qed.

(** C4, as the code has it: an allocation sets the counter to
    [next_tx_id] of its value; from a counter in [0, 0xFFFF] the minted
    value lies in [1, 0xFFFF], is the next integer below [0xFFFF], and is 1
    when the counter has reached [0xFFFF].  Reads over an empty valid tag
    set allocate nothing, and a whole [iread], however it ends, changes the
    counter by allocations only and so leaves it in [0, 0xFFFF]. *)
Theorem tx_id_allocation fuel a g sub valid loc (w : world R) :
  0 ≤ _tx_id (client w) ≤ 65535 →
  let tx := _tx_id (client w) in
  let tx' := _tx_id (client (async_read fuel a g sub valid loc w).1) in
  (valid = [] → tx' = tx)
  ∧ (valid ≠ [] →
     tx' = next_tx_id tx ∧ 1 ≤ tx' ≤ 65535
     ∧ (tx < 65535 → tx' = tx + 1) ∧ (tx = 65535 → tx' = 1))
  ∧ (∀ tags args, ∃ k : nat,
       _tx_id (client (iread fuel tags args w).1) = Nat.iter k next_tx_id tx
       ∧ 0 ≤ _tx_id (client (iread fuel tags args w).1) ≤ 65535).
Proof.
  intros Htx tx tx'. subst tx'. rewrite async_read_tx_id. fold tx. split_and!.
  - intros ->. done.
  - intros Hv. rewrite decide_True by (destruct valid; simpl; [done|lia]).
    unfold next_tx_id. case_decide; lia.
  - intros tags args. destruct (iread_mints fuel tags args w) as [k Hk].
    exists k. split; [done|]. rewrite Hk. by apply next_tx_id_iter_range.
Qed.

(** C2: when the [Validate] call itself fails, [add_items] on a non-empty
    tag list does not carry on with every tag invalid: its first loop
    indexes the empty error list and raises [IndexError]. *)
Theorem add_items_validate_failure g sub ie msgs tags hr (w : world R) :
  tags ≠ [] →
  (Validate g (Z.of_nat (length tags)) tags (server w)).2 = ComFail hr →
  (add_items g sub ie msgs tags w).2 = Raise IndexError.
Proof.
  intros Htags Hval. destruct (add_items g sub ie msgs tags w) as [w' o] eqn:Hrun.
  unfold add_items in Hrun. mrun Hrun. rewrite Hval in Hrun. mrun Hrun.
  destruct first_handle as [w1 o1] eqn:Hfirst in Hrun.
  apply first_handle_spec in Hfirst as (n & -> & _). mrun Hrun.
  destruct tags as [|t tags]; [done|]. simpl in Hrun. mrun Hrun.
  by injection Hrun as <- <-.
Qed.

(** C3: a requested tag that is missing from the response map never
    yields a record: the membership test [tag in include_error] on the
    boolean flag raises [TypeError], at once when the tag is the first of
    the sub-group, and in any position no record list is returned. *)
Theorem absent_tag_raises sync ie single valid tm tags msgs status t :
  tag_value tm !! t = None →
  assemble sync ie single valid tm (t :: tags) msgs status
  = Raise (TypeError "argument of type 'bool' is not iterable")
  ∧ ∀ before st,
      assemble sync ie single valid tm (before ++ t :: tags) msgs status ≠ Ok st.
Proof.
  intros Habs.
  assert (Hfirst : ∀ ms st, assemble sync ie single valid tm (t :: tags) ms st
                   = Raise (TypeError "argument of type 'bool' is not iterable")).
  { intros ms st. simpl. unfold tag_status. rewrite Habs.
    destruct (decide (is_Some None)) as [[? ?]|]; done. }
  split; [apply Hfirst|].
  intros before. revert msgs status.
  induction before as [|b before IH]; intros msgs status st.
  - simpl app. by rewrite Hfirst.
  - simpl. destruct tag_status as [[[[v q] ts] ms]|e|]; simpl; try done.
    destruct (if ie then _ else _) as [err|e|]; simpl; try done; apply IH.
Qed.

End Small.

(** C4 as stated fails: at [0xFFFF] the allocation gives 1, not 0, and at
    [0xFFFE] it gives [0xFFFF], which is outside [0, 0xFFFF). *)
Lemma tx_id_wrap_counterexample :
  next_tx_id 65535 ≠ 0 ∧ ¬ (0 ≤ next_tx_id 65534 < 65535)
  ∧ _tx_id (client (async_read 10 Arg.default {| Name := "G" |} None ["T1"]
                      (Locals 2 None None) late_session).1) = 1.
Proof. vm_compute. split; [done|]. split; [|done]. intros [_ ?]. done. Qed.

(** ** Reads and writes that return *)

Ltac gnorm :=
  cbn [client server log fst snd negb andb]; cbv beta iota;
  cbn [client server log fst snd negb andb].

Ltac gstep :=
  first
    [ rewrite run_bind | rewrite run_ret | rewrite run_raise
    | rewrite run_lift | rewrite run_gets | rewrite run_ask
    | rewrite run_modify | rewrite run_note | rewrite run_tell
    | rewrite run_call | rewrite run_com | rewrite run_com_or
    | rewrite run_dict_get ];
  gnorm.

Ltac grun := gnorm; repeat gstep.

Section Total.
Context `{Common} {R : Type} `{!OPCServer R}.










Lemma write_validated_ok ie errors tags values : ∀ i n vt vv ch msgs,
  (∀ j, (j < length tags)%nat →
        errors !! (i + j)%nat = Some 0 ∧ is_Some (values !! (i + j)%nat)) →
  ∃ vv' ch' msgs',
    write_validated ie errors i tags values n vt vv ch msgs
    = Ok (vt ++ tags, vv', ch', msgs')
    ∧ length vv' = (length vv + length tags)%nat.
Proof.
  induction tags as [|t tags IH]; intros i n vt vv ch msgs Hlen.
  - exists vv, ch, msgs. simpl. rewrite app_nil_r. split; [done|lia].
  - simpl. destruct (Hlen 0%nat) as [He [v Hv]]; [simpl; lia|].
    rewrite Nat.add_0_r in He, Hv. unfold py_index. rewrite He. simpl.
    rewrite ?decide_True by done. rewrite Hv. simpl.
    match goal with
    | |- context [write_validated ie errors (S i) tags values ?n' ?vt' ?vv1 ?ch1 ?ms1] =>
        destruct (IH (S i) n' vt' vv1 ch1 ms1) as (vv' & ch' & ms' & Hrun & Hl)
    end.
    + intros j Hj. replace (S i + j)%nat with (i + S j)%nat by lia.
      apply Hlen. simpl. lia.
    + exists vv', ch', ms'. rewrite Hrun, <- app_assoc. split; [done|].
      rewrite Hl, length_app. simpl. lia.
Qed.

Lemma write_added_ok ie errors shs vvs tags : ∀ i vt vv sh msgs,
  (∀ j, (j < length tags)%nat →
        errors !! (i + j)%nat = Some 0 ∧ is_Some (vvs !! (i + j)%nat)
        ∧ is_Some (shs !! (i + j)%nat)) →
  ∃ vv' sh' msgs',
    write_added ie errors shs vvs i tags vt vv sh msgs
    = Ok (vt ++ tags, vv', sh', msgs')
    ∧ length vv' = (length vv + length tags)%nat
    ∧ length sh' = (length sh + length tags)%nat.
Proof.
  induction tags as [|t tags IH]; intros i vt vv sh msgs Hlen.
  - exists vv, sh, msgs. simpl. rewrite app_nil_r. split_and!; [done|lia|lia].
  - simpl. destruct (Hlen 0%nat) as (He & [v Hv] & [h Hh]); [simpl; lia|].
    rewrite Nat.add_0_r in He, Hv, Hh. unfold py_index. rewrite He. simpl.
    rewrite ?decide_True by done. rewrite Hv. simpl. rewrite Hh. simpl.
    match goal with
    | |- context [write_added ie errors shs vvs (S i) tags ?vt' ?vv1 ?sh1 ?ms1] =>
        destruct (IH (S i) vt' vv1 sh1 ms1) as (vv' & sh' & ms' & Hrun & Hl1 & Hl2)
    end.
    + intros j Hj. replace (S i + j)%nat with (i + S j)%nat by lia.
      apply Hlen. simpl. lia.
    + exists vv', sh', ms'. rewrite Hrun, <- app_assoc. split; [done|].
      rewrite Hl1, Hl2, !length_app. simpl. lia.
Qed.




Lemma split_tags_lengths {A B} size (l1 : list A) (l2 : list B) :
  length l1 = length l2 →
  length <$> split_tags size l1 = length <$> split_tags size l2.
Proof.
  intros Hlen. unfold split_tags.
  assert (Hchunks : ∀ s, length <$> chunks l1 s = length <$> chunks l2 s).
  { intros s. unfold chunks. destruct (decide (0 < s)); [|done].
    rewrite <- !list_fmap_compose, Hlen. apply list_fmap_ext.
    intros _ i _. simpl. unfold py_slice.
    rewrite !length_take, !length_drop. lia. }
  destruct size as [s|]; [|by simpl; rewrite Hlen].
  destruct (bool_decide (s ≠ 0)); [apply Hchunks|by simpl; rewrite Hlen].
Qed.


End Total.

(** ** Chunking, and scenarios on the simulated server *)

Section Chunked.
Context `{Common} {R : Type} `{!OPCServer R}.


End Chunked.

(** The willing server refuses nothing, and its clock ticks, as does the
    simulated server's. *)
Lemma willing_agreeable : agreeable Willing.state.
Proof.
  split_and!; intros; cbn; unfold Willing.zeros, Willing.each; eauto.
  - eexists. split; [done|]. rewrite length_seqZ. lia.
  - do 3 eexists. split; [done|]. by rewrite !length_replicate.
Qed.

Lemma willing_ticking : ticking Willing.state Willing.clock.
Proof. split; intros r; cbn; [split; [done|]|]; lia. Qed.

Lemma sim_ticking : ticking Sim.state Sim.clock.
Proof.
  split; intros r.
  - split; [done|]. destruct r. cbn. lia.
  - destruct r. cbn. lia.
Qed.

(** C1 at work: the stale message of transaction 7 is taken first and
    dropped, the pump then delivers the answer to transaction 1, and the
    read ends with that message. *)
Lemma async_read_correlates_witness :
  ∃ evs,
    log (async_read 10 Arg.default {| Name := "G" |} None ["T1"]
           (Locals 2 None None) stale_session).1
    = log stale_session ++ EvAsyncRefresh "G" 2 1 :: evs
    ∧ (cb_tx <$> gets_of evs) = [7; 1].
Proof.
  destruct (async_read_correlates 10 Arg.default {| Name := "G" |} None ["T1"]
              (Locals 2 None None) stale_session
              (async_read 10 Arg.default {| Name := "G" |} None ["T1"]
                 (Locals 2 None None) stale_session).1
              (async_read 10 Arg.default {| Name := "G" |} None ["T1"]
                 (Locals 2 None None) stale_session).2)
    as (evs & Hlog & _).
  - vm_compute. lia.
  - vm_compute. discriminate.
  - apply surjective_pairing.
  - exists evs. split; [exact Hlog|].
    vm_compute in Hlog. injection Hlog as <-. reflexivity.
Defined.

(** C4 at work on a session whose counter has reached [0xFFFF]. *)
Lemma tx_id_allocation_witness :
  _tx_id (client (async_read 10 Arg.default {| Name := "G" |} None ["T1"]
                    (Locals 2 None None) late_session).1) = 1.
Proof.
  apply (tx_id_allocation 10 Arg.default {| Name := "G" |} None ["T1"]
           (Locals 2 None None) late_session).
  - vm_compute. split; discriminate.
  - discriminate.
  - reflexivity.
Defined.

(** C2 at work: one tag, and a server whose [Validate] call fails. *)
Lemma add_items_validate_failure_witness :
  (add_items {| Name := "G" |} None false ∅ ["T1"] broken_validate).2
  = Raise IndexError.
Proof.
  apply (add_items_validate_failure {| Name := "G" |} None false ∅ ["T1"]
           (-2147467259) broken_validate).
  - discriminate.
  - reflexivity.
Defined.

(** C3 at work: a sub-group whose only tag got no value. *)
Lemma absent_tag_raises_witness :
  assemble true false false [] no_tagmaps ["T9"] ∅ []
  = Raise (TypeError "argument of type 'bool' is not iterable").
Proof.
  apply (absent_tag_raises (H := Sim.common) (OPCServer0 := Sim.server)
           true false false [] no_tagmaps [] ∅ [] "T9").
  reflexivity.
Defined.

(** The same through [iread]: T9 is unknown to the server, fails
    validation, and the read raises instead of reporting an error record
    for it. *)
Lemma read_of_invalid_tag_raises :
  (iread 10 (TagsList ["T1"; "T9"]) Arg.default (Sim.fresh plant)).2
  = Raise (TypeError "argument of type 'bool' is not iterable")
  ∧ (iread 10 (TagsList ["T1"]) Arg.default broken_validate).2
    = Raise IndexError.
Proof. split; vm_compute; reflexivity. Qed.

(** C5 as stated fails: rebuilding the group adds T2 to its sub-group,
    and the refresh that follows still reads from the cache, as the caller
    asked. *)
Lemma rebuild_cache_counterexample :
  let w' := (iread 10 (TagsList ["T1"; "T2"]) (rebuild_from_cache "g")
                   one_tag_group).1 in
  omap (λ e, if e is EvAddItems g tags _ then Some (g, tags) else None)
       (events_of one_tag_group w') = [("g.0", ["T2"])]
  ∧ omap (λ e, if e is EvAsyncRefresh g ds _ then Some (g, ds) else None)
         (events_of one_tag_group w') = [("g.0", SOURCE_CACHE)]
  ∧ SOURCE_CACHE ≠ SOURCE_DEVICE.
Proof. vm_compute. split_and!; [reflexivity|reflexivity|discriminate]. Qed.

(** C5 at work on the same call. *)
Lemma rebuild_read_source_witness :
  Forall (reads_from SOURCE_CACHE)
    (events_of one_tag_group
       (iread 10 (TagsList ["T1"; "T2"]) (rebuild_from_cache "g")
              one_tag_group).1).
Proof.
  apply (rebuild_read_source 10 (TagsList ["T1"; "T2"]) (rebuild_from_cache "g")
           one_tag_group).
  reflexivity.
Defined.


(** C6 at work: in the sub-group ["g.0"], which holds T1 and T2 under the
    handles 0 and 1, T3, the unknown T9 and T1 are added: the validation
    accepts T3 and T1, and they get the handles 2 and 3. *)
Lemma add_items_client_handles_witness :
  accepted ["T3"; "T9"; "T1"]
    (validation_codes {| Name := "g.0" |} ["T3"; "T9"; "T1"] (server three_tags))
  = ["T3"; "T1"]
  ∧ _group_handles_tag
      (client (add_items {| Name := "g.0" |} (Some "g.0") false ∅
                 ["T3"; "T9"; "T1"] three_tags).1) !! Some "g.0"
    = Some {[0 := "T1"; 1 := "T2"; 2 := "T3"; 3 := "T1"]}.
Proof.
  split; [reflexivity|].
  destruct (add_items_client_handles {| Name := "g.0" |} (Some "g.0") false ∅
              ["T3"; "T9"; "T1"] three_tags) as (n & Hfree & Hmap & _).
  match type of Hfree with
  | first_free ?o _ =>
      assert (Hold : o = {[0 := "T1"; 1 := "T2"]}) by (vm_compute; reflexivity);
      rewrite Hold in Hfree, Hmap
  end.
  assert (Hn : n = 2).
  { destruct Hfree as [[Hempty _]|[Hlast Hmax]].
    - apply (f_equal (λ m : gmap Z tag, m !! 0)) in Hempty.
      vm_compute in Hempty. discriminate Hempty.
    - pose proof (Hmax 1 ltac:(by eexists)) as H1.
      destruct Hlast as [t Ht].
      apply lookup_insert_Some in Ht as [[Ht _]|[_ Ht]]; [lia|].
      apply lookup_singleton_Some in Ht as [Ht _]. lia. }
  subst n. etrans; [exact Hmap|]. apply (f_equal Some). vm_compute.
  reflexivity.
Defined.



(** C10 at work. *)
Lemma read_rejects_mixed_tags_witness :
  read 10 (TagsList ["@MemFree"; "T1"]) Arg.default (Sim.fresh plant)
  = (Sim.fresh plant, Raise (TypeError health_msg))
  ∧ (read 10 (TagsList ["T1"; "T2"]) Arg.default (Sim.fresh plant)).2
    ≠ Raise (TypeError health_msg)
  ∧ (read 10 (TagsList ["@MemFree"]) Arg.default (Sim.fresh plant)).2
    ≠ Raise (TypeError health_msg).
Proof.
  split_and!.
  - apply (read_rejects_mixed_tags 10 ["@MemFree"; "T1"] Arg.default
             (Sim.fresh plant)).
    split; [left; reflexivity|right; left; discriminate].
  - apply (read_rejects_mixed_tags 10 ["T1"; "T2"] Arg.default
             (Sim.fresh plant)).
    right. repeat constructor; discriminate.
  - apply (read_rejects_mixed_tags 10 ["@MemFree"] Arg.default
             (Sim.fresh plant)).
    left. repeat constructor.
Defined.

(** C9 fails on the code: after an anonymous read has returned, its
    sub-group, keyed [None], still has its entry in the tag cache, the
    valid-tag cache and both handle maps; the closed hook stays registered;
    and a second anonymous read adds its handle to the ones of the first. *)
Theorem anonymous_read_leaves_entries :
  (∃ status, (iread 10 (TagsList ["T1"; "T3"]) Arg.default (Sim.fresh plant)).2
             = Ok status)
  ∧ _group_tags (client after_first_read) !! None = Some ["T1"; "T3"]
  ∧ _group_valid_tags (client after_first_read) !! None = Some ["T1"; "T3"]
  ∧ _group_handles_tag (client after_first_read) !! None
    = Some {[0 := "T1"; 1 := "T3"]}
  ∧ _group_server_handles (client after_first_read) !! None
    = Some {["T1" := 1; "T3" := 2]}
  ∧ _group_hooks (client after_first_read) !! "Group0" = Some HookClosed
  ∧ _group_handles_tag (client after_second_read) !! None
    = Some {[0 := "T1"; 1 := "T3"; 2 := "T2"]}.
Proof. vm_compute. split_and!; try reflexivity. by eexists. Qed.

(** * More of the client *)

(** ** Events and session changes of a whole method *)

Section Obeys.
Context `{Common} {R : Type} `{!OPCServer R}.
Context (Pev : event → Prop) (rel : Client → Client → Prop) `{!PreOrder rel}.
Local Abbreviation M := (M R).
Local Abbreviation obeys := (obeys (R:=R) Pev rel).

Lemma obeys_same {A} (Q : A → Prop) (m : M A) :
  (∀ w, (m w).1 = w) → (∀ w a, (m w).2 = Ok a → Q a) → obeys Q m.
Proof.
  intros Hw HQ w. rewrite Hw. split_and!.
  - exists []. by rewrite app_nil_r.
  - done.
  - destruct (m w).2 eqn:Ho; try done. by eapply HQ.
Qed.

Lemma obeys_ret {A} (Q : A → Prop) a : Q a → obeys Q (ret a).
Proof. intros HQ. apply obeys_same; [done|]. by intros w ? [= <-]. Qed.

Lemma obeys_raise {A} (Q : A → Prop) e : obeys Q (raise e).
Proof. by apply obeys_same. Qed.

Lemma obeys_lift {A} (Q : A → Prop) (o : outcome A) :
  (∀ a, o = Ok a → Q a) → obeys Q (lift o).
Proof. intros HQ. apply obeys_same; [done|]. intros w a. apply HQ. Qed.

Lemma obeys_gets {A} (Q : A → Prop) (f : Client → A) :
  (∀ c, Q (f c)) → obeys Q (gets f).
Proof. intros HQ. apply obeys_same; [done|]. by intros w ? [= <-]. Qed.

Lemma obeys_ask {A} (Q : A → Prop) (f : R → A) :
  (∀ r, Q (f r)) → obeys Q (ask f).
Proof. intros HQ. apply obeys_same; [done|]. by intros w ? [= <-]. Qed.

Lemma obeys_dict_get `{Countable K} {V} (f : Client → gmap K V) k :
  obeys (λ _, True) (dict_get f k).
Proof.
  apply obeys_same; [|done]. intros w. by rewrite run_dict_get.
Qed.

Lemma obeys_modify (Q : unit → Prop) f :
  (∀ c, rel c (f c)) → Q tt → obeys Q (modify f).
Proof.
  intros Hf HQ w. rewrite run_modify. cbn. split_and!; [|apply Hf|done].
  exists []. by rewrite app_nil_r.
Qed.

Lemma obeys_call {A} (Q : A → Prop) ev (op : R → R * A) :
  (∀ a, Pev (ev a)) → (∀ a, Q a) → obeys Q (call ev op).
Proof.
  intros Hev HQ w. rewrite run_call. cbn. split_and!; [|done|done].
  eexists [_]. split; [done|]. by constructor.
Qed.

Lemma obeys_tell (Q : unit → Prop) ev (op : R → R) :
  Pev ev → Q tt → obeys Q (tell ev op).
Proof.
  intros Hev HQ w. rewrite run_tell. cbn. split_and!; [|done|done].
  eexists [_]. split; [done|]. by constructor.
Qed.

Lemma obeys_note (Q : unit → Prop) ev : Pev ev → Q tt → obeys Q (note ev).
Proof.
  intros Hev HQ w. rewrite run_note. cbn. split_and!; [|done|done].
  eexists [_]. split; [done|]. by constructor.
Qed.

Lemma obeys_bind {A B} (Q : A → Prop) (Q' : B → Prop) (m : M A) (f : A → M B) :
  obeys Q m → (∀ a, Q a → obeys Q' (f a)) → obeys Q' (bind m f).
Proof.
  intros Hm Hf w. rewrite run_bind.
  destruct (Hm w) as ((evs & Hlog & Hevs) & Hrel & HQ).
  destruct (m w) as [w1 [a|e|]]; cbn [fst snd] in *.
  - destruct (Hf a HQ w1) as ((evs' & Hlog' & Hevs') & Hrel' & HQ').
    split_and!; try done.
    + exists (evs ++ evs'). split; [by rewrite Hlog', Hlog, app_assoc|].
      by apply Forall_app.
    + by trans (client w1).
  - split_and!; eauto.
  - split_and!; eauto.
Qed.

Lemma obeys_weaken {A} (Q Q' : A → Prop) (m : M A) :
  obeys Q m → (∀ a, Q a → Q' a) → obeys Q' m.
Proof.
  intros Hm HQ w. destruct (Hm w) as (Hev & Hrel & Ha). split_and!; try done.
  destruct (m w).2; try done. by apply HQ.
Qed.

Lemma obeys_com {A} (Q : A → Prop) (m : M (com_result A)) :
  obeys (λ r, if r is ComOk a then Q a else True) m → obeys Q (com m).
Proof.
  intros Hm. unfold com. eapply obeys_bind; [exact Hm|].
  intros [a|hr] HQ; [by apply obeys_ret|apply obeys_raise].
Qed.

Lemma obeys_com_or {A} (Q : A → Prop) d (m : M (com_result A)) :
  Q d → obeys (λ r, if r is ComOk a then Q a else True) m →
  obeys Q (com_or d m).
Proof.
  intros Hd Hm. unfold com_or. eapply obeys_bind; [exact Hm|].
  intros [a|hr] HQ; by apply obeys_ret.
Qed.

End Obeys.

(** A step of a traversal with trivial postconditions; [ev] closes the
    obligations on events and [rl] the ones on session changes. *)
Ltac inst := try (solve [typeclasses eauto]).

Ltac ostep ev rl :=
  lazymatch goal with
  | |- obeys _ _ _ (bind _ _) =>
      eapply (obeys_bind _ _ (λ _, True)); inst; [|intros ? _]
  | |- obeys _ _ _ (com _) => apply obeys_com; inst
  | |- obeys _ _ _ (com_or _ _) => apply obeys_com_or; inst; [done|]
  | |- obeys _ _ _ (call _ _) =>
      apply obeys_call; inst; [intros ?; ev|by intros []]
  | |- obeys _ _ _ (tell _ _) => apply obeys_tell; inst; [ev|done]
  | |- obeys _ _ _ (note _) => apply obeys_note; inst; [ev|done]
  | |- obeys _ _ _ (modify _) => apply obeys_modify; inst; [intros ?; rl|done]
  | |- obeys _ _ _ (dict_get _ _) =>
      eapply obeys_weaken; [apply obeys_dict_get; inst|done]
  | |- obeys _ _ _ (ret _) => by (apply obeys_ret; inst)
  | |- obeys _ _ _ (raise _) => apply obeys_raise; inst
  | |- obeys _ _ _ (lift _) => by (apply obeys_lift; inst)
  | |- obeys _ _ _ (gets _) => by (apply obeys_gets; inst)
  | |- obeys _ _ _ (ask _) => by (apply obeys_ask; inst)
  | |- obeys _ _ _ (match ?x with _ => _ end) => destruct x
  end.

Section Write.
Context `{Common} {R : Type} `{!OPCServer R}.

Local Abbreviation W :=
  (obeys (R:=R) (λ e, ¬ foreign_to_write e) eq (λ _, True)).

Lemma iwrite_group_obeys pause ie single ngs tgs vgs gid result :
  W (iwrite_group pause ie single ngs tgs vgs gid result).
Proof. unfold iwrite_group. repeat ostep ltac:(cbn; tauto) ltac:(done). Qed.

Lemma iwrite_loop_obeys pause ie single ngs tgs vgs gids : ∀ result,
  W (iwrite_loop pause ie single ngs tgs vgs gids result).
Proof.
  induction gids as [|gid gids IH]; intros result; simpl.
  - by apply obeys_ret; inst.
  - eapply obeys_bind; inst; [apply iwrite_group_obeys|]. intros ? _. apply IH.
Qed.

Lemma iwrite_obeys p size pause ie : W (iwrite p size pause ie).
Proof.
  unfold iwrite.
  repeat first [apply iwrite_loop_obeys | ostep ltac:(cbn; tauto) ltac:(done)].
Qed.

(** X1: a write never changes the session, whatever its argument and
    however it ends, and it stays clear of what only a read does: it sets
    no update rate, looks up no group and adds none under a name,
    subscribes to nothing, registers or closes no event hook, removes no
    item, issues no synchronous read and no asynchronous refresh, reads
    no clock and takes no callback. *)
Theorem iwrite_leaves_session p size pause ie (w : world R) :
  client (iwrite p size pause ie w).1 = client w
  ∧ Forall (λ e, ¬ foreign_to_write e)
      (events_of w (iwrite p size pause ie w).1).
Proof.
  destruct (iwrite_obeys p size pause ie w) as ((evs & Hlog & Hevs) & Hrel & _).
  split; [done|]. unfold events_of. by rewrite Hlog, drop_app_length.
Qed.

End Write.

(** ** What a read calls and changes *)

Lemma nothing_deleted_refl c : nothing_deleted c c.
Proof. by repeat split. Qed.

Lemma nothing_deleted_trans c1 c2 c3 :
  nothing_deleted c1 c2 → nothing_deleted c2 c3 → nothing_deleted c1 c3.
Proof.
  intros (A1 & A2 & A3 & A4 & A5 & A6) (B1 & B2 & B3 & B4 & B5 & B6).
  split_and!; eauto.
Qed.

Global Instance read_step_preorder a : PreOrder (read_step a).
Proof.
  split.
  - intros c. split_and!; try done; apply nothing_deleted_refl.
  - intros c1 c2 c3 (S1 & G1 & E1 & D1) (S2 & G2 & E2 & D2). split_and!.
    + intros Hs. destruct (S1 Hs) as (? & ? & ?), (S2 Hs) as (? & ? & ?).
      split_and!; congruence.
    + intros g Hg. by rewrite G2, G1.
    + intros k Hk. by rewrite E2, E1.
    + by eapply nothing_deleted_trans.
Qed.

Section Steps.
Context (a : Arg.t).

Lemma insert_kept `{Countable K} {V} (m : gmap K V) k v j :
  is_Some (m !! j) → is_Some (<[k := v]> m !! j).
Proof. intros Hj. rewrite lookup_insert_is_Some. destruct (decide (k = j)); eauto. Qed.

Lemma step_tags sub x c :
  own_key a sub →
  read_step a c (set_group_tags (<[sub := x]> (_group_tags c)) c).
Proof.
  intros Hown. unfold read_step, entries, nothing_deleted. cbn.
  split_and!; try done.
  - intros k Hk. rewrite lookup_insert_ne; [done|]. by intros ->.
  - intros k. apply insert_kept.
Qed.

Lemma step_valid sub x c :
  own_key a sub →
  read_step a c (set_group_valid_tags (<[sub := x]> (_group_valid_tags c)) c).
Proof.
  intros Hown. unfold read_step, entries, nothing_deleted. cbn.
  split_and!; try done.
  - intros k Hk. rewrite lookup_insert_ne; [done|]. by intros ->.
  - intros k. apply insert_kept.
Qed.

Lemma step_handles sub x c :
  own_key a sub →
  read_step a c (set_group_handles_tag (<[sub := x]> (_group_handles_tag c)) c).
Proof.
  intros Hown. unfold read_step, entries, nothing_deleted. cbn.
  split_and!; try done.
  - intros k Hk. rewrite lookup_insert_ne; [done|]. by intros ->.
  - intros k. apply insert_kept.
Qed.

Lemma step_server sub x c :
  own_key a sub →
  read_step a c
    (set_group_server_handles (<[sub := x]> (_group_server_handles c)) c).
Proof.
  intros Hown. unfold read_step, entries, nothing_deleted. cbn.
  split_and!; try done.
  - intros k Hk. rewrite lookup_insert_ne; [done|]. by intros ->.
  - intros k. apply insert_kept.
Qed.

Lemma step_groups g n c :
  Arg.group a = Some g →
  read_step a c (set_groups (<[g := n]> (_groups c)) c).
Proof.
  intros Hg. unfold read_step, entries, nothing_deleted. cbn.
  split_and!; try done.
  - intros g' Hg'. rewrite lookup_insert_ne; [done|]. congruence.
  - intros k. apply insert_kept.
Qed.

Lemma step_hooks n h c :
  effective_sync a = false →
  read_step a c (set_group_hooks (<[n := h]> (_group_hooks c)) c).
Proof.
  intros Hs. unfold read_step, entries, nothing_deleted. cbn.
  split_and!; try done; [congruence|].
  intros k. apply insert_kept.
Qed.

Lemma step_tx x c : effective_sync a = false → read_step a c (set_tx_id x c).
Proof.
  intros Hs. unfold read_step, entries, nothing_deleted. cbn.
  split_and!; try done. congruence.
Qed.

Lemma step_queue q c :
  effective_sync a = false → read_step a c (set_callback_queue q c).
Proof.
  intros Hs. unfold read_step, entries, nothing_deleted. cbn.
  split_and!; try done. congruence.
Qed.

End Steps.

Ltac step_rl :=
  first [ apply step_tags | apply step_valid | apply step_handles
        | apply step_server | apply step_groups | apply step_hooks
        | apply step_tx | apply step_queue ]; eauto.

Ltac step_ev := cbn; eauto.

Ltac rstep := ostep ltac:(step_ev) ltac:(step_rl).

Ltac still :=
  split_and!; [exists []; by rewrite app_nil_r | reflexivity | done].

Section ReadObeys.
Context `{Common} {R : Type} `{!OPCServer R}.
Variable a : Arg.t.
Local Abbreviation M := (M R).
Local Abbreviation O := (obeys (R:=R) (mode_event a) (read_step a) (λ _, True)).

Lemma assign_handles_obeys sub ie errors tags :
  own_key a sub → ∀ i n vt ch msgs,
  O (assign_handles sub ie errors i tags n vt ch msgs).
Proof.
  intros Hown. induction tags as [|t tags IH]; intros; simpl.
  - by apply obeys_ret; inst.
  - repeat first [apply IH | rstep].
Qed.

Lemma record_server_handles_obeys sub ie errors shs tags :
  own_key a sub → ∀ i vt sh msgs,
  O (record_server_handles sub ie errors shs i tags vt sh msgs).
Proof.
  intros Hown. induction tags as [|t tags IH]; intros; simpl.
  - by apply obeys_ret; inst.
  - repeat first [apply IH | rstep].
Qed.

(** A step that first reads a map of the session and then writes it back
    with one key set. *)
Lemma obeys_at_bind {A B} (m : M A) (f : A → M B) (w : world R) :
  (m w).1 = w →
  (∀ x, (m w).2 = Ok x →
     (∃ evs, log (f x w).1 = log w ++ evs ∧ Forall (mode_event a) evs)
     ∧ read_step a (client w) (client (f x w).1)) →
  (∃ evs, log (bind m f w).1 = log w ++ evs ∧ Forall (mode_event a) evs)
  ∧ read_step a (client w) (client (bind m f w).1)
  ∧ match (bind m f w).2 with Ok _ => True | _ => True end.
Proof.
  intros Hw Hf. rewrite run_bind. destruct (m w) as [w1 [x|e|]]; cbn in *;
    subst w1.
  - destruct (Hf x eq_refl) as [? ?]. split_and!; try done. by destruct (f x w).2.
  - split_and!; try done. exists []. by rewrite app_nil_r.
  - split_and!; try done. exists []. by rewrite app_nil_r.
Qed.

Lemma first_handle_obeys sub : own_key a sub → O (first_handle sub).
Proof.
  intros Hown w. destruct (first_handle sub w) as [w' o] eqn:Hrun.
  cbn [fst snd]. unfold first_handle in Hrun. mrun Hrun.
  destruct (_group_handles_tag (client w) !! sub) as [hm|]; mrun Hrun.
  - destruct (decide _) in Hrun; mrun Hrun.
    + destruct (py_max _) in Hrun; mrun Hrun; injection Hrun as <- <-; still.
    + injection Hrun as <- <-. still.
  - injection Hrun as <- <-. cbn. split_and!; try done.
    + exists []. by rewrite app_nil_r.
    + by apply step_handles.
Qed.

Lemma add_items_obeys g sub ie msgs tags :
  own_key a sub → O (add_items g sub ie msgs tags).
Proof.
  intros Hown. unfold add_items.
  repeat first [ by apply first_handle_obeys | by apply assign_handles_obeys
               | by apply record_server_handles_obeys
               | lazymatch goal with
                 | |- obeys _ _ _ (bind (gets _group_server_handles) _) => fail
                 | _ => rstep
                 end ].
  intros w. rewrite run_bind, run_gets. cbn [fst snd].
  match goal with
  | |- context [record_server_handles sub ie ?es ?shs 0 ?vt [] [] ?ms] =>
      pose proof (record_server_handles_obeys sub ie es shs vt Hown 0%nat [] [] ms)
        as Hrec
  end.
  destruct (decide _).
  - rewrite run_bind, run_modify. cbn [fst snd].
    match goal with
    | |- context [record_server_handles _ _ _ _ _ _ _ _ _ ?w1] =>
        destruct (Hrec w1) as ((evs & Hlog & Hevs) & Hrel & _)
    end.
    cbn [client log] in *. split_and!; eauto.
    + etrans; [|exact Hrel]. by apply step_server.
    + by destruct (record_server_handles _ _ _ _ _ _ _ _ _ _).2.
  - rewrite run_bind, run_ret. cbn [fst snd]. apply Hrec.
Qed.

Lemma lookup_server_handles_obeys sub tags :
  O (lookup_server_handles sub tags).
Proof.
  induction tags as [|t tags IH]; simpl.
  - by apply obeys_ret; inst.
  - repeat first [apply IH | rstep].
Qed.

Lemma remove_items_obeys g sub tags :
  Arg.rebuild a = true → O (remove_items g sub tags).
Proof.
  intros Hre. unfold remove_items.
  repeat first [apply lookup_server_handles_obeys | rstep].
Qed.

Lemma open_group_obeys gid tgs :
  obeys (R:=R) (mode_event a) (read_step a) (λ r, own_key a r.1.2)
    (open_group (Arg.group a) gid tgs).
Proof.
  assert (Hkey : ∀ g, Arg.group a = Some g → own_key a (Some (sub_name g gid))).
  { intros g Hg. unfold own_key. rewrite Hg. by exists gid. }
  unfold open_group. destruct (Arg.group a) as [g|] eqn:Hg.
  - specialize (Hkey g eq_refl).
    repeat first [ apply obeys_ret; inst; by cbn | rstep ].
  - repeat first [ apply obeys_ret; inst; unfold own_key; by rewrite Hg
                 | rstep; try (unfold own_key; by rewrite Hg) ].
Qed.

Lemma chunk_of_obeys tgs gid : O (chunk_of tgs gid).
Proof. unfold chunk_of. repeat rstep. Qed.

Lemma resolve_items_obeys sync g sub new tgs gid loc :
  effective_sync a = sync → own_key a sub →
  O (resolve_items a sync g sub new tgs gid loc).
Proof.
  intros Hsync Hown. unfold resolve_items. destruct new.
  - destruct sync; cbn [negb];
      repeat first [ by apply add_items_obeys | apply chunk_of_obeys | rstep ].
  - destruct (Arg.rebuild a) eqn:Hre.
    + repeat first [ by apply add_items_obeys | apply chunk_of_obeys
                   | by apply remove_items_obeys | rstep ].
    + repeat rstep.
Qed.

Lemma sync_read_obeys g valid loc :
  effective_sync a = true → O (sync_read a g valid loc).
Proof. intros Hsync. unfold sync_read. repeat rstep. Qed.

Lemma wait_callback_obeys fuel start timeout :
  effective_sync a = false → ∀ tx msg,
  O (wait_callback fuel start timeout tx msg).
Proof.
  intros Hsync. induction fuel as [|fuel IH]; intros tx msg; simpl.
  - rstep; [rstep|]. rstep; [|rstep]. intros w. still.
  - repeat first [apply IH | rstep].
Qed.

Lemma async_read_obeys fuel g sub valid loc :
  effective_sync a = false → O (async_read fuel a g sub valid loc).
Proof.
  intros Hsync. unfold async_read.
  repeat first [by apply wait_callback_obeys | rstep].
Qed.

Lemma close_anonymous_obeys sync g :
  effective_sync a = sync → Arg.group a = None →
  O (close_anonymous sync g).
Proof.
  intros Hsync Hanon. unfold close_anonymous.
  destruct sync; cbn [negb andb]; repeat rstep.
Qed.

Lemma iread_group_obeys fuel sync single tgs gid loc status :
  effective_sync a = sync →
  O (iread_group fuel a sync (if sync then -1 else Arg.update a) single tgs
                 gid loc status).
Proof.
  intros Hsync. unfold iread_group.
  rstep.
  { destruct (bool_decide (0 < gid)%nat); cbn [andb]; [|rstep].
    case_bool_decide; rstep. }
  rstep; [rstep; by rewrite Hsync|].
  eapply obeys_bind; inst; [apply open_group_obeys|].
  intros [[g sub] new] Hown. cbn in Hown.
  rstep; [by apply resolve_items_obeys|].
  destruct sync;
    repeat first
      [ by apply sync_read_obeys | by apply async_read_obeys
      | lazymatch goal with
        | |- obeys _ _ _ (match Arg.group a with _ => _ end) =>
            destruct (Arg.group a) eqn:Hg;
              [rstep|by apply close_anonymous_obeys]
        | _ => rstep
        end ].
Qed.

Lemma iread_loop_obeys fuel sync single tgs gids :
  effective_sync a = sync → ∀ loc status,
  O (iread_loop fuel a sync (if sync then -1 else Arg.update a) single tgs
                gids loc status).
Proof.
  intros Hsync. induction gids as [|gid gids IH]; intros; simpl.
  - by apply obeys_ret; inst.
  - eapply obeys_bind; inst; [by apply iread_group_obeys|]. intros ? _. apply IH.
Qed.

Lemma iread_obeys fuel tags : O (iread fuel tags a).
Proof.
  unfold iread. fold (effective_sync a).
  repeat first [by apply iread_loop_obeys | rstep].
Qed.

End ReadObeys.

Section ReadFrame.
Context `{Common} {R : Type} `{!OPCServer R}.

(** X2: the calls of a read follow its mode.  A synchronous read
    ([sync] or [include_error] set) sets the update rate to -1, reads with
    [SyncRead] only, never refreshes asynchronously, registers or closes no
    event hook, reads no clock and pumps no message, and it leaves the
    transaction counter, the callback queue and the hooks as they were; an
    asynchronous read never calls [SyncRead].  Groups are looked up and
    added under the read's own sub-group names only, removed only by an
    anonymous read, items are removed only when rebuilding, the only pause
    is the positive [pause] asked for, and nothing is ever written. *)
Theorem read_calls_follow_mode fuel tags a (w : world R) :
  Forall (mode_event a) (events_of w (iread fuel tags a w).1)
  ∧ (effective_sync a = true →
     _tx_id (client (iread fuel tags a w).1) = _tx_id (client w)
     ∧ callback_queue (client (iread fuel tags a w).1)
       = callback_queue (client w)
     ∧ _group_hooks (client (iread fuel tags a w).1)
       = _group_hooks (client w)).
Proof.
  destruct (iread_obeys a fuel tags w) as ((evs & Hlog & Hevs) & Hrel & _).
  split; [|apply Hrel]. unfold events_of. by rewrite Hlog, drop_app_length.
Qed.

(** X3: a read touches the entries of its own group only, and deletes
    nothing.  However the read ends, the group map holds what it held for
    every other group name, the four per-sub-group maps hold what they
    held under every key that is not a sub-group of the read (every named
    sub-group, for an anonymous read), and every entry of the six maps
    that was there is still there. *)
Theorem read_touches_own_group_only fuel tags a (w : world R) :
  (∀ g, Arg.group a ≠ Some g →
     _groups (client (iread fuel tags a w).1) !! g = _groups (client w) !! g)
  ∧ (∀ k, ¬ own_key a k →
       entries (client (iread fuel tags a w).1) k = entries (client w) k)
  ∧ nothing_deleted (client w) (client (iread fuel tags a w).1).
Proof.
  destruct (iread_obeys a fuel tags w) as (_ & (_ & Hg & Hk & Hd) & _).
  done.
Qed.

End ReadFrame.

(** ** What [remove] calls and changes *)

Global Instance remove_step_preorder gs : PreOrder (remove_step gs).
Proof.
  split.
  - intros c. unfold remove_step. split_and!; try done; eauto.
  - intros c1 c2 c3 (T1 & Q1 & G1 & E1 & A1 & B1 & C1 & D1 & H1)
      (T2 & Q2 & G2 & E2 & A2 & B2 & C2 & D2 & H2).
    unfold remove_step. split_and!; try congruence; try (by etrans).
    + intros g. destruct (G2 g) as [->|[? ->]]; [apply G1|by right].
    + intros k Hk. by rewrite E2, E1.
    + intros n. destruct (H2 n) as [->|[Hs ->]]; [apply H1|].
      right. split; [|done]. destruct (H1 n) as [<-|[? ?]]; done.
Qed.

Section RemoveObeys.
Context `{Common} {R : Type} `{!OPCServer R}.
Variable gs : list string.
Local Abbreviation M := (M R).
Local Abbreviation O := (obeys (R:=R) (remove_event gs) (remove_step gs)).

(** [del self.m[k]] followed by [cont], for a map [m] of the session read
    by [get] and written by [set]. *)
Lemma obeys_del `{Countable K} {V B} (get : Client → gmap K V)
    (set : gmap K V → Client → Client) k (Q : B → Prop) (cont : M B) :
  (∀ c, remove_step gs c (set (delete k (get c)) c)) →
  O Q cont →
  O Q (d <~ gets get ;; d <~ lift (py_del d k) ;; modify (set d) ;;; cont).
Proof.
  intros Hset Hcont w. rewrite run_bind, run_gets. cbn [fst snd].
  rewrite run_bind, run_lift. cbn [fst snd]. unfold py_del.
  destruct (get (client w) !! k); cbn [fst snd].
  - rewrite run_bind, run_modify. cbn [fst snd].
    match goal with
    | |- context [cont ?w1] =>
        destruct (Hcont w1) as ((evs & Hlog & Hevs) & Hrel & HQ)
    end.
    cbn [client log] in *. split_and!; eauto.
    etrans; [apply Hset|exact Hrel].
  - split_and!; try done. exists []. by rewrite app_nil_r.
Qed.

Lemma del_sub_tags g i c :
  g ∈ gs →
  remove_step gs c
    (set_group_tags (delete (Some (sub_name g i)) (_group_tags c)) c).
Proof.
  intros Hg. unfold remove_step, entries. cbn. split_and!; try done; eauto.
  - intros k Hk. rewrite lookup_delete_ne; [done|]. intros <-. by eapply Hk.
  - apply delete_subseteq.
Qed.

Lemma del_sub_valid g i c :
  g ∈ gs →
  remove_step gs c
    (set_group_valid_tags (delete (Some (sub_name g i)) (_group_valid_tags c)) c).
Proof.
  intros Hg. unfold remove_step, entries. cbn. split_and!; try done; eauto.
  - intros k Hk. rewrite lookup_delete_ne; [done|]. intros <-. by eapply Hk.
  - apply delete_subseteq.
Qed.

Lemma del_sub_handles g i c :
  g ∈ gs →
  remove_step gs c
    (set_group_handles_tag
       (delete (Some (sub_name g i)) (_group_handles_tag c)) c).
Proof.
  intros Hg. unfold remove_step, entries. cbn. split_and!; try done; eauto.
  - intros k Hk. rewrite lookup_delete_ne; [done|]. intros <-. by eapply Hk.
  - apply delete_subseteq.
Qed.

Lemma del_sub_server g i c :
  g ∈ gs →
  remove_step gs c
    (set_group_server_handles
       (delete (Some (sub_name g i)) (_group_server_handles c)) c).
Proof.
  intros Hg. unfold remove_step, entries. cbn. split_and!; try done; eauto.
  - intros k Hk. rewrite lookup_delete_ne; [done|]. intros <-. by eapply Hk.
  - apply delete_subseteq.
Qed.

Lemma del_group g c :
  g ∈ gs → remove_step gs c (set_groups (delete g (_groups c)) c).
Proof.
  intros Hg. unfold remove_step, entries. cbn. split_and!; try done; eauto.
  intros g'. destruct (decide (g = g')) as [<-|Hne].
  - right. split; [done|]. apply lookup_delete_eq.
  - left. by apply lookup_delete_ne.
Qed.

Lemma close_hook s c :
  is_Some (_group_hooks c !! s) →
  remove_step gs c (set_group_hooks (<[s := HookClosed]> (_group_hooks c)) c).
Proof.
  intros Hs. unfold remove_step, entries. cbn. split_and!; try done; eauto.
  intros n. destruct (decide (s = n)) as [<-|Hne].
  - right. split; [done|]. apply lookup_insert_eq.
  - left. by apply lookup_insert_ne.
Qed.

Lemma remove_sub_groups_obeys g gids :
  g ∈ gs → O (λ _, True) (remove_sub_groups g gids).
Proof.
  intros Hg. induction gids as [|i gids IH]; simpl.
  - by apply obeys_ret; inst.
  - (* the hook *)
    intros w. rewrite run_bind, run_gets. cbn [fst snd]. revert w.
    assert (Hrest : O (λ _, True)
      (_ <~ com (call (λ _, EvRemoveGroup (sub_name g i))
                      (GroupsRemove (sub_name g i))) ;;
       d <~ gets _group_tags ;;
       d <~ lift (py_del d (Some (sub_name g i))) ;;
       modify (set_group_tags d) ;;;
       d <~ gets _group_valid_tags ;;
       d <~ lift (py_del d (Some (sub_name g i))) ;;
       modify (set_group_valid_tags d) ;;;
       d <~ gets _group_handles_tag ;;
       d <~ lift (py_del d (Some (sub_name g i))) ;;
       modify (set_group_handles_tag d) ;;;
       d <~ gets _group_server_handles ;;
       d <~ lift (py_del d (Some (sub_name g i))) ;;
       modify (set_group_server_handles d) ;;;
       remove_sub_groups g gids)).
    { eapply (obeys_bind _ _ (λ _, True)); inst.
      { apply obeys_com; inst. apply obeys_call; inst; [|by intros []].
        intros _. cbn. eauto. }
      intros _ _.
      apply obeys_del; [intros; by apply del_sub_tags|].
      apply obeys_del; [intros; by apply del_sub_valid|].
      apply obeys_del; [intros; by apply del_sub_handles|].
      apply obeys_del; [intros; by apply del_sub_server|].
      exact IH. }
    intros w. rewrite run_bind. destruct (decide _) as [Hs|Hs].
    + rewrite run_bind, run_note. cbn [fst snd]. rewrite run_modify.
      cbn [fst snd].
      match goal with
      | |- context [bind _ _ ?w1] =>
          destruct (Hrest w1) as ((evs & Hlog & Hevs) & Hrel & HQ)
      end.
      cbn [client log] in *. split_and!; try done.
      * eexists (_ :: evs). rewrite Hlog, <- app_assoc. split; [done|].
        constructor; [|done]. cbn. eauto.
      * etrans; [|exact Hrel]. by apply close_hook.
    + rewrite run_ret. cbn [fst snd]. apply Hrest.
Qed.

Lemma remove_groups_obeys l :
  l ⊆ gs → O (λ _, True) (remove_groups l).
Proof.
  induction l as [|g l IH]; intros Hl; simpl.
  - by apply obeys_ret; inst.
  - assert (Hg : g ∈ gs) by (apply Hl; by left).
    assert (Hl' : l ⊆ gs) by (intros x Hx; apply Hl; by right).
    eapply (obeys_bind _ _ (λ _, True)); inst; [by apply obeys_gets; inst|].
    intros known _. destruct (known !! g); [|by apply IH].
    eapply (obeys_bind _ _ (λ _, True)); inst;
      [by apply remove_sub_groups_obeys|].
    intros _ _. apply obeys_del; [intros; by apply del_group|]. by apply IH.
Qed.

Lemma remove_obeys groups :
  names_of groups ⊆ gs → O (λ _, True) (remove groups).
Proof.
  intros Hgs. unfold remove.
  eapply (obeys_bind _ _ (λ _, True)); inst.
  { apply obeys_com; inst. apply obeys_call; inst; [done|by intros []]. }
  intros _ _. apply remove_groups_obeys. by destruct groups.
Qed.

End RemoveObeys.

Section RemoveFrame.
Context `{Common} {R : Type} `{!OPCServer R}.

(** X4: [remove] only deletes, and only what belongs to the groups it is
    given.  However it ends, its calls are [CoInitialize] and the closing
    of hooks and removal of groups named as sub-groups of the given
    names; the group map keeps every other name and loses at most the
    given ones; the four per-sub-group maps keep every key that is not
    such a sub-group and gain nothing; a hook is at most marked closed,
    its entry is never dropped; and the transaction counter and the
    callback queue are not touched. *)
Theorem remove_only_deletes_named groups (w : world R) :
  Forall (remove_event (names_of groups)) (events_of w (remove groups w).1)
  ∧ remove_step (names_of groups) (client w) (client (remove groups w).1).
Proof.
  destruct (remove_obeys (names_of groups) groups ltac:(done) w)
    as ((evs & Hlog & Hevs) & Hrel & _).
  split; [|done]. unfold events_of. by rewrite Hlog, drop_app_length.
Qed.

End RemoveFrame.

(** ** Chunk sizes that are not positive *)

Section Sizes.
Context `{Common} {R : Type} `{!OPCServer R}.

(** X5: a negative chunk size makes a read or a write do nothing.  The
    [range] over the tags is empty, so there is no chunk: a read that
    would build its groups (the group is unknown to the session, or
    anonymous, or being rebuilt) and a write of one or more pairs return
    the empty list after [CoInitialize], with no other call and no change
    to the session. *)
Theorem negative_size_does_nothing s (w : world R) :
  s < 0 → (CoInitialize (server w)).2 = ComOk tt →
  let w' := World (client w) (CoInitialize (server w)).1
                  (log w ++ [EvCoInitialize]) in
  (∀ fuel tags T single a,
     Arg.size a = Some s → type_check tags = (T, single, true) →
     (g ← Arg.group a; _groups (client w) !! g) = None
     ∨ Arg.rebuild a = true →
     iread fuel tags a w = (w', Ok []))
  ∧ (∀ p l pause ie, iwrite (PairsList (p :: l)) (Some s) pause ie w = (w', Ok []))
  ∧ (∀ t v pause ie, iwrite (PairOne t v) (Some s) pause ie w = (w', Ok [])).
Proof.
  intros Hs Hco w'.
  assert (Hsplit : ∀ A (l : list A), split_tags (Some s) l = []).
  { intros A l. unfold split_tags, chunks.
    rewrite bool_decide_eq_true_2 by lia. by rewrite decide_False by lia. }
  split_and!.
  - intros fuel tags T single a Hsize Htc Hfresh. unfold iread.
    grun. rewrite Hco. grun. rewrite Htc. grun. rewrite Hsize, Hsplit.
    destruct Hfresh as [-> | Hre]; [done|]. rewrite Hre.
    by destruct (_ ≫= _).
  - intros p l pause ie. unfold iwrite. grun. rewrite Hco. grun.
    by rewrite !Hsplit.
  - intros t v pause ie. unfold iwrite. grun. rewrite Hco. grun.
    by rewrite !Hsplit.
Qed.

End Sizes.

(** ** Reading a group the session knows *)

Global Instance same_maps_preorder : PreOrder same_maps.
Proof.
  split.
  - by intros c.
  - intros c1 c2 c3 (A1 & B1 & C1 & D1 & E1) (A2 & B2 & C2 & D2 & E2).
    unfold same_maps. split_and!; congruence.
Qed.

Ltac dget H E :=
  match type of H with
  | context [match ?x with Some v => @?f v | None => Raise KeyError end] =>
      destruct x eqn:E
  end.

Ltac kstep := ostep ltac:(cbn; tauto) ltac:(by cbn).

Section Known.
Context `{Common} {R : Type} `{!OPCServer R}.
Variable a : Arg.t.
Hypothesis no_rebuild : Arg.rebuild a = false.
Local Abbreviation M := (M R).
Local Abbreviation K := (obeys (R:=R) (λ e, ¬ is_lookup e) same_maps (λ _, True)).

Lemma resolve_items_known sync g sub new gid loc :
  K (resolve_items a sync g sub new None gid loc).
Proof.
  unfold resolve_items. rewrite no_rebuild. destruct new.
  - kstep; [kstep|].
    kstep; [destruct (negb sync); repeat kstep|].
    eapply (obeys_bind _ _ (λ _, False)); inst; [|by intros ? []].
    unfold chunk_of. apply obeys_raise; inst.
  - repeat kstep.
Qed.

Lemma sync_read_known g valid loc : K (sync_read a g valid loc).
Proof. unfold sync_read. repeat kstep. Qed.

Lemma wait_callback_known fuel start timeout : ∀ tx msg,
  K (wait_callback fuel start timeout tx msg).
Proof.
  induction fuel as [|fuel IH]; intros tx msg; simpl.
  - kstep; [kstep|]. kstep; [|kstep].
    intros w. split_and!; [exists []; by rewrite app_nil_r|done|done].
  - repeat first [apply IH | kstep].
Qed.

Lemma async_read_known fuel g sub valid loc :
  K (async_read fuel a g sub valid loc).
Proof.
  unfold async_read.
  repeat first [apply wait_callback_known | kstep].
Qed.

Lemma open_group_known g gid :
  obeys (R:=R) (λ _, True) same_maps (λ _, True) (open_group (Some g) gid None).
Proof. unfold open_group. repeat kstep. Qed.

Lemma no_lookup_found evs : Forall (λ e, ¬ is_lookup e) evs → found_all evs.
Proof.
  intros Hevs. eapply Forall_impl; [exact Hevs|].
  by intros [].
Qed.

Lemma iread_group_known fuel sync update single g gid loc status
    (w w' : world R) o :
  Arg.group a = Some g →
  iread_group fuel a sync update single None gid loc status w = (w', o) →
  same_maps (client w) (client w')
  ∧ ∃ evs, log w' = log w ++ evs
    ∧ match o with
      | Ok r =>
          found_all evs
          ∧ ∃ tags recs,
              _group_tags (client w) !! Some (sub_name g gid) = Some tags
              ∧ r.2 = status ++ recs ∧ r_tag <$> recs = shown single <$> tags
      | Raise e => found_all evs ∨ e = NameError ∨ ∃ hr, e = com_error hr
      | Spinning => found_all evs
      end.
Proof.
  intros Hg Hrun. unfold iread_group in Hrun. mrun Hrun.
  match type of Hrun with
  | context [(if ?c then ?x else ?y) w] =>
      assert (Hpre : ∃ w0 evs0, (if c then x else y) w = (w0, Ok tt)
                ∧ log w0 = log w ++ evs0 ∧ client w0 = client w
                ∧ found_all evs0)
  end.
  { destruct (_ && _); [eexists _, [_]|eexists _, []]; split_and!; try done;
      first [by repeat constructor | by rewrite app_nil_r]. }
  destruct Hpre as (w0 & evs0 & Hpre & Hlog0 & Hc0 & Hf0).
  rewrite Hpre in Hrun. clear Hpre. mrun Hrun.
  rewrite Hg in Hrun. unfold open_group in Hrun. mrun Hrun.
  destruct (GetOPCGroup (sub_name g gid) _) as [r1 [g1|hr]]; mrun Hrun.
  2:{ destruct (GroupsAdd (Some (sub_name g gid)) r1) as [r2 [g2|hr2]];
        mrun Hrun; injection Hrun as <- <-; cbn [client log];
        (split; [by rewrite Hc0|]); eexists; (split; [by rewrite Hlog0, <- !app_assoc|]);
        eauto. }
  match type of Hrun with
  | context [resolve_items a sync g1 ?sub false None gid loc ?w1] =>
      destruct (resolve_items_known sync g1 sub false gid loc w1)
        as ((evs2 & Hlog2 & Hev2) & Hrel2 & _);
      destruct (resolve_items a sync g1 sub false None gid loc w1)
        as [w2 o2] eqn:Hres
  end.
  cbn [fst snd client log] in *.
  assert (Hsame2 : same_maps (client w) (client w2)) by (by rewrite <- Hc0).
  apply no_lookup_found in Hev2.
  assert (Hlogs2 : ∃ evs, log w2 = log w ++ evs ∧ found_all evs).
  { eexists. split; [by rewrite Hlog2, Hlog0, <- !app_assoc|].
    repeat (apply Forall_app; split); try done; by repeat constructor. }
  clear Hlog2 Hev2 Hlog0 Hf0. destruct Hlogs2 as (evs & Hlog2 & Hev2).
  destruct o2 as [[[[tags valid] loc1] msgs]|e|]; mrun Hrun.
  2,3: injection Hrun as <- <-; split; [done|]; exists evs; eauto.
  assert (Htags : _group_tags (client w) !! Some (sub_name g gid) = Some tags).
  { unfold resolve_items in Hres. rewrite no_rebuild in Hres. mrun Hres.
    rewrite Hc0 in Hres. unfold py_getitem in Hres.
    dget Hres Et; mrun Hres; [|done].
    unfold py_getitem in Hres. dget Hres Ev; mrun Hres; [|done].
    destruct sync; mrun Hres; injection Hres as _ <- _ _ _; exact Et. }
  match type of Hrun with
  | context [(if sync then ?x else ?y) w2] =>
      assert (Hread : ∃ evs3, log ((if sync then x else y) w2).1 = log w2 ++ evs3
                ∧ Forall (λ e, ¬ is_lookup e) evs3
                ∧ same_maps (client w2) (client ((if sync then x else y) w2).1));
      [|destruct ((if sync then x else y) w2) as [w3 o3]]
  end.
  { destruct sync.
    - destruct (sync_read_known g1 valid loc1 w2) as ((? & ? & ?) & ? & _); eauto.
    - destruct (async_read_known fuel g1 (Some (sub_name g gid)) valid loc1 w2)
        as ((? & ? & ?) & ? & _); eauto. }
  destruct Hread as (evs3 & Hlog3 & Hev3 & Hrel3). cbn [fst] in *.
  apply no_lookup_found in Hev3.
  assert (Hsame3 : same_maps (client w) (client w3)) by (by etrans).
  assert (Hlogs3 : ∃ evs', log w3 = log w ++ evs' ∧ found_all evs').
  { exists (evs ++ evs3). split; [by rewrite Hlog3, Hlog2, <- !app_assoc|].
    by apply Forall_app. }
  destruct Hlogs3 as (evs' & Hlog' & Hev').
  destruct o3 as [[tm loc2]|e|]; mrun Hrun.
  2,3: injection Hrun as <- <-; split; [done|]; exists evs'; eauto.
  destruct (assemble _ _ _ _ _ _ _ _) as [st|e|] eqn:Hasm in Hrun; mrun Hrun.
  2,3: injection Hrun as <- <-; split; [done|]; exists evs'; eauto.
  apply assemble_tags in Hasm as (recs & -> & Hrecs).
  injection Hrun as <- <-. split; [done|]. exists evs'. split; [done|].
  split; [done|]. by exists tags, recs.
Qed.

Lemma iread_loop_known fuel sync update single g gids :
  Arg.group a = Some g → ∀ loc status (w w' : world R) o,
  iread_loop fuel a sync update single None gids loc status w = (w', o) →
  same_maps (client w) (client w')
  ∧ ∃ evs, log w' = log w ++ evs
    ∧ match o with
      | Ok status' =>
          found_all evs
          ∧ ∃ chunks recs,
              Forall2 (λ gid c, _group_tags (client w) !! Some (sub_name g gid)
                                = Some c) gids chunks
              ∧ status' = status ++ recs
              ∧ r_tag <$> recs = shown single <$> concat chunks
      | Raise e => found_all evs ∨ e = NameError ∨ ∃ hr, e = com_error hr
      | Spinning => found_all evs
      end.
Proof.
  intros Hg. induction gids as [|gid gids IH]; intros loc status w w' o Hrun;
    simpl in Hrun.
  - injection Hrun as <- <-. split; [done|]. exists []. rewrite app_nil_r.
    split; [done|]. split; [by constructor|]. exists [], [].
    by rewrite app_nil_r.
  - mrun Hrun.
    destruct iread_group as [w1 o1] eqn:Hgrp in Hrun.
    apply (iread_group_known _ _ _ _ g) in Hgrp as (Hs1 & evs1 & Hl1 & Ho1);
      [|done].
    destruct o1 as [[loc1 st1]|e|]; mrun Hrun.
    2,3: injection Hrun as <- <-; split; [done|]; by exists evs1.
    destruct Ho1 as (Hf1 & tags & recs1 & Ht1 & Hst1 & Hr1). cbn in Hst1.
    subst st1.
    apply IH in Hrun as (Hs2 & evs2 & Hl2 & Ho2).
    split; [by etrans|]. exists (evs1 ++ evs2).
    split; [by rewrite Hl2, Hl1, app_assoc|].
    destruct o as [st|e|].
    + destruct Ho2 as (Hf2 & chunks & recs2 & Hall & -> & Hr2).
      split; [by apply Forall_app|].
      exists (tags :: chunks), (recs1 ++ recs2). split_and!.
      * constructor; [done|]. eapply Forall2_impl; [exact Hall|].
        intros gid' c. cbn. destruct Hs1 as (_ & -> & _). done.
      * by rewrite app_assoc.
      * simpl. by rewrite !fmap_app, Hr1, Hr2.
    + destruct Ho2 as [Hf2|Hf2]; [left; by apply Forall_app|by right].
    + by apply Forall_app.
Qed.

End Known.

Section KnownRead.
Context `{Common} {R : Type} `{!OPCServer R}.

Lemma iread_known fuel tags T single a g n (w w' : world R) o :
  Arg.group a = Some g → _groups (client w) !! g = Some n →
  Arg.rebuild a = false → type_check tags = (T, single, true) →
  iread fuel tags a w = (w', o) →
  same_maps (client w) (client w')
  ∧ ∃ evs, log w' = log w ++ evs
    ∧ match o with
      | Ok status =>
          found_all evs
          ∧ ∃ chunks,
              Forall2 (λ gid c, _group_tags (client w) !! Some (sub_name g gid)
                                = Some c) (seq 0 n) chunks
              ∧ r_tag <$> status = shown single <$> concat chunks
      | Raise e => found_all evs ∨ e = NameError ∨ ∃ hr, e = com_error hr
      | Spinning => found_all evs
      end.
Proof.
  intros Hg Hn Hre Htc Hrun. unfold iread in Hrun. mrun Hrun.
  destruct (CoInitialize (server w)) as [r0 [[]|hr]]; mrun Hrun.
  2:{ injection Hrun as <- <-. split; [done|]. eexists [_]. eauto. }
  rewrite Htc in Hrun. mrun Hrun. cbn [negb] in Hrun. mrun Hrun.
  rewrite Hg in Hrun. simpl in Hrun. rewrite Hn, Hre in Hrun.
  apply (iread_loop_known a Hre _ _ _ _ g) in Hrun
    as (Hsame & evs & Hlog & Ho); [|done].
  split; [done|]. exists (EvCoInitialize :: evs). cbn [log client] in *.
  split; [by rewrite Hlog, <- app_assoc|].
  assert (Hcons : found_all evs → found_all (EvCoInitialize :: evs))
    by (by constructor).
  destruct o as [st|e|]; [|by destruct Ho as [?|?]; eauto|by eauto].
  destruct Ho as (Hf & chunks & recs & Hall & -> & Hrecs).
  split; [by eauto|]. by exists chunks.
Qed.

(** X6: a read of a group the session knows, without [rebuild], reads
    the tags stored for the group, not the ones it is given.  The [tags]
    argument only decides the shape of the records; the call leaves the
    group map and the four per-sub-group maps as they were, however it
    ends; and when it returns, its records follow, in order, the tags
    stored for the sub-groups 0, 1, ... of the group. *)
Theorem known_group_read_uses_stored_tags fuel tags T single a g n
    (w : world R) :
  Arg.group a = Some g → _groups (client w) !! g = Some n →
  Arg.rebuild a = false → type_check tags = (T, single, true) →
  (∀ tags' T', type_check tags' = (T', single, true) →
     iread fuel tags' a w = iread fuel tags a w)
  ∧ same_maps (client w) (client (iread fuel tags a w).1)
  ∧ ∀ status, (iread fuel tags a w).2 = Ok status →
      ∃ chunks,
        Forall2 (λ gid c, _group_tags (client w) !! Some (sub_name g gid)
                          = Some c) (seq 0 n) chunks
        ∧ r_tag <$> status = shown single <$> concat chunks.
Proof.
  intros Hg Hn Hre Htc. split_and!.
  - intros tags' T' Htc'. unfold iread. rewrite Htc, Htc', Hg. grun.
    destruct (CoInitialize (server w)) as [r0 [[]|hr]]; grun; [|done].
    simpl. by rewrite Hn, Hre.
  - destruct (iread fuel tags a w) as [w' o] eqn:Hrun.
    by eapply iread_known in Hrun as [? _].
  - intros status Hok. destruct (iread fuel tags a w) as [w' o] eqn:Hrun.
    cbn in Hok. subst o.
    eapply iread_known in Hrun as (_ & evs & _ & _ & Hall); done.
Qed.

(** X7: a known group whose sub-group the server has lost is not read.
    In a read of a group the session knows, without [rebuild], a failed
    sub-group lookup is followed by an attempt to add the group again,
    and then the read raises: the [com_error] of that attempt, or
    [NameError], because the chunks of the request were never computed.
    It never returns records. *)
Theorem lost_sub_group_fails_read fuel tags T single a g n (w : world R) :
  Arg.group a = Some g → _groups (client w) !! g = Some n →
  Arg.rebuild a = false → type_check tags = (T, single, true) →
  existsb is_lost (events_of w (iread fuel tags a w).1) = true →
  (iread fuel tags a w).2 = Raise NameError
  ∨ ∃ hr, (iread fuel tags a w).2 = Raise (com_error hr).
Proof.
  intros Hg Hn Hre Htc Hlost.
  destruct (iread fuel tags a w) as [w' o] eqn:Hrun. cbn [fst snd] in *.
  eapply iread_known in Hrun as (_ & evs & Hlog & Ho); try done.
  unfold events_of in Hlost. rewrite Hlog, drop_app_length in Hlost.
  apply existsb_exists in Hlost as (e' & Hin & He').
  assert (Hnot : ¬ found_all evs).
  { intros Hall. unfold found_all in Hall. rewrite Forall_forall in Hall.
    apply list_elem_of_In in Hin. apply Hall in Hin. congruence. }
  destruct o as [st|e|].
  - by destruct Ho.
  - destruct Ho as [?|[->|[hr ->]]]; [done|by left|right; by exists hr].
  - done.
Qed.

End KnownRead.

(** ** [read] *)

Lemma split_tags_concat {A} size (l : list A) :
  covering size → concat (split_tags size l) = l.
Proof.
  intros Hs. unfold split_tags. destruct size as [s|]; simpl in *.
  - case_bool_decide; [by apply chunks_spec; lia|]. simpl. by rewrite app_nil_r.
  - by rewrite app_nil_r.
Qed.

Lemma split_tags_first {A} size (l : list A) :
  covering size → l ≠ [] →
  ∃ c rest, split_tags size l = c :: rest ∧ c ≠ [].
Proof.
  intros Hsize Hl. unfold split_tags.
  assert (Hone : ∃ c rest, [l] = c :: rest ∧ c ≠ []) by (by exists l, []).
  destruct size as [s|]; [|done]. case_bool_decide; [|done].
  simpl in Hsize. destruct (chunks_spec l s ltac:(lia)) as (Hcat & _ & Hall).
  destruct (chunks l s) as [|c rest]; [by simpl in Hcat; subst|].
  exists c, rest. split; [done|]. apply Forall_cons in Hall as [Hc _].
  intros ->. simpl in Hc. lia.
Qed.

Section Read.
Context `{Common} {R : Type} `{!OPCServer R}.

Lemma iread_follows_request fuel tags a (w w' : world R) status T single :
  type_check tags = (T, single, true) → covering (Arg.size a) →
  fresh_read a w w' →
  iread fuel tags a w = (w', Ok status) →
  r_tag <$> status = shown single <$> T.
Proof.
  intros Htc Hsize Hfresh Hrun. unfold iread in Hrun. mrun Hrun.
  destruct (CoInitialize (server w)) as [r0 [[]|hr]]; mrun Hrun; [|done].
  rewrite Htc in Hrun. mrun Hrun. cbn [negb] in Hrun. mrun Hrun.
  pose proof (split_tags_concat (Arg.size a) T Hsize) as Hsplit.
  assert (Hloop : ∀ loc w0,
    log w0 = log w ++ [EvCoInitialize] →
    (Arg.group a = None ∨ Arg.rebuild a = true
     ∨ found_none (events_of w w')) →
    iread_loop fuel a (if Arg.include_error a then true else Arg.sync a)
      (if if Arg.include_error a then true else Arg.sync a then -1
       else Arg.update a) single (Some (split_tags (Arg.size a) T))
      (seq 0 (length (split_tags (Arg.size a) T))) loc [] w0 = (w', Ok status) →
    r_tag <$> status = shown single <$> T).
  { intros loc w0 Hl0 Hf Hloop.
    apply iread_loop_tags in Hloop as (evs & chunks & recs & Hl & -> & Ht & Hall).
    rewrite app_nil_l, Ht. f_equal. etrans; [|exact Hsplit]. f_equal.
    apply Forall2_lookup_seq. eapply Forall2_impl; [apply Hall|].
    - destruct Hf as [?|[?|Hf]]; auto. right; right.
      rewrite (events_of_app w w' ([EvCoInitialize] ++ evs)) in Hf
        by (by rewrite Hl, Hl0, <- app_assoc).
      by apply found_none_app in Hf as [_ ?].
    - intros gid c (l & [= <-] & Hc). done. }
  unfold fresh_read in Hfresh.
  destruct (Arg.group a) as [g|] eqn:Hg; simpl in Hrun.
  - destruct (_groups (client w) !! g) as [n|] eqn:Hn; simpl in Hrun.
    + destruct (Arg.rebuild a) eqn:Hre.
      * eapply Hloop; [|by right; left|exact Hrun]. done.
      * by destruct Hfresh as [|[? _]].
    + destruct Hfresh as [Hre|[_ Hf]].
      * eapply Hloop; [|by right; left|exact Hrun]. done.
      * eapply Hloop; [|by right; right|exact Hrun]. done.
  - eapply Hloop; [|by left|exact Hrun]. done.
Qed.

(** X8: health tags cannot be read.  A request that holds health tags
    only (names starting with ['@']) makes [read] look up
    [self._read_health], which the class does not define: it raises
    [AttributeError] with nothing called and nothing changed. *)
Theorem read_health_tags_unsupported fuel tags T single a (w : world R) :
  type_check tags = (T, single, true) → T ≠ [] →
  Forall (λ t, is_health t = true) T →
  read fuel tags a w
  = (w, Raise (AttributeError "'Client' object has no attribute '_read_health'")).
Proof.
  intros Htc Hne Hall. unfold read. rewrite Htc. cbn [negb].
  rewrite run_bind.
  rewrite decide_True.
  2:{ apply health_count. destruct T as [|t T]; [done|].
      apply Forall_cons in Hall as [Ht _]. by left. }
  rewrite decide_False; [done|].
  rewrite health_count. intros Hex. apply Exists_exists in Hex as (t & Hin & Ht).
  rewrite Forall_forall in Hall. by apply Ht, Hall.
Qed.

(** X9: what [read] returns for OPC tags.  For a request without health
    tags, a chunk size that is none, 0 or positive, and a read that builds
    its groups: when [read] returns, [iread] has returned one record per
    requested tag in request order; a request by a single name gets that
    one record, without the tag in it, and a request by a list gets the
    list of records, each with its tag. *)
Theorem read_follows_request fuel tags T single a (w w' : world R) x :
  type_check tags = (T, single, true) →
  Forall (λ t, is_health t = false) T →
  covering (Arg.size a) → fresh_read a w w' →
  read fuel tags a w = (w', Ok x) →
  ∃ status,
    iread fuel tags a w = (w', Ok status)
    ∧ r_tag <$> status = shown single <$> T
    ∧ if single then ∃ r rest, status = r :: rest ∧ x = ReadOne r
                                ∧ r_tag r = None
      else x = ReadMany status ∧ r_tag <$> status = Some <$> T.
Proof.
  intros Htc Hopc Hsize Hfresh Hrun. unfold read in Hrun. rewrite Htc in Hrun.
  cbn [negb] in Hrun. rewrite run_bind in Hrun.
  rewrite decide_False in Hrun.
  2:{ rewrite health_count. intros Hex.
      apply Exists_exists in Hex as (t & Hin & Ht).
      rewrite Forall_forall in Hopc. apply Hopc in Hin. congruence. }
  destruct (iread fuel tags a w) as [w1 [status|e|]] eqn:Hread; try done.
  cbn [fst snd] in Hrun.
  assert (Hw : w1 = w' ∧
            if single then ∃ r rest, status = r :: rest ∧ x = ReadOne r
            else x = ReadMany status).
  { destruct single.
    - rewrite run_bind, run_lift in Hrun. unfold py_index in Hrun.
      destruct status as [|r rest]; cbn in Hrun; [done|].
      injection Hrun as <- <-. eauto.
    - by injection Hrun as <- <-. }
  destruct Hw as [-> Hx]. exists status. split; [done|].
  pose proof (iread_follows_request _ _ _ _ _ _ _ _ Htc Hsize Hfresh Hread)
    as Htags.
  split; [done|]. destruct single.
  - destruct Hx as (r & rest & -> & ->). exists r, rest. split_and!; try done.
    destruct T; [done|]. by injection Htags as -> _.
  - done.
Qed.

End Read.

(** ** [write] *)

Section WriteShape.
Context `{Common} {R : Type} `{!OPCServer R}.
Variable write_simu : pairs_arg → option Z → Z → bool → M R (list wrecord).

Lemma iwrite_follows_pairs p size pause ie (w w' : world R) result :
  covering size →
  iwrite p size pause ie w = (w', Ok result) →
  ∃ pairs single,
    pairs_of p = Some (pairs, single)
    ∧ w_tag <$> result = shown single <$> pairs.*1.
Proof.
  intros Hsize Hrun. unfold iwrite in Hrun. mrun Hrun.
  destruct (CoInitialize (server w)) as [r0 [[]|hr]]; mrun Hrun; [|done].
  assert (Hloop : ∀ pairs single w0,
    iwrite_loop pause ie single (split_tags size pairs.*1)
      (split_tags size pairs.*1) (split_tags size pairs.*2)
      (seq 0 (length (split_tags size pairs.*1))) [] w0 = (w', Ok result) →
    w_tag <$> result = shown single <$> pairs.*1).
  { intros pairs single w0 Hloop.
    apply iwrite_loop_tags in Hloop as (chunks & recs & -> & Ht & Hall).
    apply Forall2_lookup_seq in Hall. subst chunks.
    by rewrite app_nil_l, Ht, split_tags_concat. }
  destruct p as [|t v|[|x l]|]; mrun Hrun; try done.
  - exists [(t, v)], true. split; [done|]. by apply Hloop in Hrun.
  - exists (x :: l), false. split; [done|]. by apply Hloop in Hrun.
Qed.

(** X10: what [write] returns.  An empty list makes [write] raise
    [IndexError] before anything is called.  Otherwise, outside the
    simulation and for a chunk size that is none, 0 or positive, when
    [write] returns, [iwrite] has returned one record per pair in the
    order of the pairs; a single pair gets its one record, without the
    tag in it, and a list of pairs gets the list of records, each with
    its tag. *)
Theorem write_follows_pairs int_simu first_is_pair size pause ie (w : world R) :
  write write_simu int_simu first_is_pair (PairsList []) size pause ie w
  = (w, Raise IndexError)
  ∧ ∀ i p w' x,
      int_simu = Ok i → i ≠ 1 → covering size →
      write write_simu int_simu first_is_pair p size pause ie w = (w', Ok x) →
      ∃ pairs single result,
        pairs_of p = Some (pairs, single)
        ∧ iwrite p size pause ie w = (w', Ok result)
        ∧ w_tag <$> result = shown single <$> pairs.*1
        ∧ if single then ∃ r, result = [r] ∧ x = WriteOne r
          else x = WriteMany result.
Proof.
  split; [done|]. intros i p w' x -> Hi Hsize Hrun. unfold write in Hrun.
  assert (Hsingle : ∀ single : bool,
    (status <~ iwrite p size pause ie ;;
     if single then r <~ lift (py_index status 0) ;; ret (WriteOne r)
     else ret (WriteMany status)) w = (w', Ok x) →
    ∃ result, iwrite p size pause ie w = (w', Ok result)
      ∧ if single then ∃ r rest, result = r :: rest ∧ x = WriteOne r
        else x = WriteMany result).
  { intros single Hs. rewrite run_bind in Hs.
    destruct (iwrite p size pause ie w) as [w1 [result|e|]]; try done.
    cbn [fst snd] in Hs. destruct single.
    - rewrite run_bind, run_lift in Hs. unfold py_index in Hs.
      destruct result as [|r rest]; cbn in Hs; [done|].
      injection Hs as <- <-. eexists. split; [done|]. by eexists _, _.
    - injection Hs as <- <-. by eexists. }
  assert (Hgo : ∀ single0 : bool,
    (single <~ ret single0 ;;
     simu <~ lift (Ok i) ;;
     status <~ (if decide (simu = 1) then write_simu p size pause ie
                else iwrite p size pause ie) ;;
     if single : bool then r <~ lift (py_index status 0) ;; ret (WriteOne r)
     else ret (WriteMany status)) w = (w', Ok x) →
    ∃ result, iwrite p size pause ie w = (w', Ok result)
      ∧ if single0 then ∃ r rest, result = r :: rest ∧ x = WriteOne r
        else x = WriteMany result).
  { intros single0 Hs. rewrite run_bind, run_ret in Hs. cbn [fst snd] in Hs.
    rewrite run_bind, run_lift in Hs. cbn [fst snd] in Hs.
    rewrite decide_False in Hs by done. by apply Hsingle. }
  destruct p as [|t v|[|y l]|].
  - apply Hgo in Hrun as (result & Hw & _).
    by apply iwrite_follows_pairs in Hw as (? & ? & ? & _).
  - apply Hgo in Hrun as (result & Hw & r & rest & -> & ->).
    pose proof Hw as Hw'.
    apply iwrite_follows_pairs in Hw' as (pairs & single & [= <- <-] & Ht);
      [|done].
    exists [(t, v)], true, (r :: rest). split_and!; try done.
    destruct rest; [|done]. by exists r.
  - done.
  - apply Hgo in Hrun as (result & Hw & ->). pose proof Hw as Hw'.
    apply iwrite_follows_pairs in Hw' as (pairs & single & [= <- <-] & Ht);
      [|done].
    by exists (y :: l), false, result.
  - apply Hgo in Hrun as (result & Hw & _).
    by apply iwrite_follows_pairs in Hw as (? & ? & ? & _).
Qed.

End WriteShape.

(** ** How a write answers to what the server says *)

Lemma pairs_of_nonempty p pairs single :
  pairs_of p = Some (pairs, single) → pairs ≠ [].
Proof. destruct p as [|?|[|? ?]|]; intros [= <- <-]; done. Qed.

Section WriteAnswers.
Context `{Common} {R : Type} `{!OPCServer R}.

Lemma iwrite_unfold p pairs single size pause ie (w : world R) :
  pairs_of p = Some (pairs, single) →
  (CoInitialize (server w)).2 = ComOk tt →
  iwrite p size pause ie w
  = iwrite_loop pause ie single (split_tags size pairs.*1)
      (split_tags size pairs.*1) (split_tags size pairs.*2)
      (seq 0 (length (split_tags size pairs.*1))) []
      (World (client w) (CoInitialize (server w)).1 (log w ++ [EvCoInitialize])).
Proof.
  intros Hp Hco. unfold iwrite. grun. rewrite Hco. grun.
  destruct p as [|?|[|? ?]|]; simplify_eq/=; by grun.
Qed.

(** X11: when the [Validate] call itself fails, a write does not carry
    on with every tag invalid: on a server that opens groups and whose
    [Validate] call fails, a write of one or more pairs raises
    [IndexError] at the first tag of the first chunk, and the anonymous
    group it has added is not removed. *)
Theorem iwrite_validate_failure p pairs single size pause ie (w : world R) :
  opens R → validate_fails R →
  pairs_of p = Some (pairs, single) → covering size →
  (iwrite p size pause ie w).2 = Raise IndexError
  ∧ ∃ g names,
      events_of w (iwrite p size pause ie w).1
      = [EvCoInitialize; EvAddGroup None; EvValidate g names].
Proof.
  intros (Hco & Hadd & _) Hval Hp Hsize.
  rewrite (iwrite_unfold _ _ _ _ _ _ _ Hp (Hco _)).
  pose proof (pairs_of_nonempty _ _ _ Hp) as Hne.
  destruct (split_tags_first size pairs.*1 Hsize) as (c & rest & Hc & Hcne).
  { by destruct pairs. }
  pose proof (split_tags_lengths size pairs.*1 pairs.*2) as Hlens.
  rewrite !length_fmap in Hlens. specialize (Hlens eq_refl).
  rewrite Hc in *. destruct (split_tags size pairs.*2) as [|v vrest]; [done|].
  simpl. rewrite run_bind. unfold iwrite_group.
  rewrite (bool_decide_eq_false_2 (0 < 0)%nat) by lia. grun.
  match goal with
  | |- context [GroupsAdd None ?r] => destruct (Hadd None r) as [g Hg]
  end.
  rewrite Hg.
  grun. change (py_index (c :: rest) 0) with (Ok c).
  change (py_index (v :: vrest) 0) with (Ok v). grun.
  match goal with
  | |- context [Validate g ?n c ?r] => destruct (Hval g n c r) as [hr ->]
  end.
  grun. destruct c as [|t c]; [done|]. simpl. grun.
  split; [done|]. exists (Name g), (t :: c). unfold events_of.
  cbn [log]. by rewrite <- !app_assoc, drop_app_length.
Qed.

Lemma write_status_success ie single errors valid tags : ∀ n msgs result,
  (∀ t, t ∈ tags → t ∈ valid) →
  (∀ j, (j < length tags)%nat → errors !! (n + j)%nat = Some 0) →
  ∃ recs, write_status ie single errors valid n tags msgs result
          = Ok (result ++ recs)
    ∧ w_tag <$> recs = shown single <$> tags
    ∧ w_status <$> recs = (λ _, "Success") <$> tags.
Proof.
  induction tags as [|t tags IH]; intros n msgs result Hin Herr.
  - exists []. by rewrite app_nil_r.
  - simpl. rewrite decide_True by (apply Hin; by left).
    pose proof (Herr 0%nat ltac:(simpl; lia)) as He. rewrite Nat.add_0_r in He.
    unfold py_index. rewrite He. simpl.
    assert (Hnext : ∀ ms rec,
      ∃ recs, write_status ie single errors valid (S n) tags ms (result ++ [rec])
              = Ok ((result ++ [rec]) ++ recs)
        ∧ w_tag <$> recs = shown single <$> tags
        ∧ w_status <$> recs = (λ _, "Success") <$> tags).
    { intros ms rec. apply IH.
      - intros t' Ht'. apply Hin. by right.
      - intros j Hj. replace (S n + j)%nat with (n + S j)%nat by lia.
        apply Herr. simpl. lia. }
    destruct ie; simpl.
    + unfold py_getitem. rewrite lookup_insert_eq. simpl.
      rewrite lookup_insert_eq. simpl.
      match goal with
      | |- context [write_status _ _ _ _ _ _ ?ms (result ++ [?rec])] =>
          destruct (Hnext ms rec) as (recs & -> & Ht & Hs)
      end.
      exists (WRec (if single then None else Some t) "Success"
                   (Some (strip_crlf (GetErrorString 0))) :: recs).
      rewrite <- app_assoc. split_and!; [done| |]; simpl; by f_equal.
    + match goal with
      | |- context [write_status _ _ _ _ _ _ ?ms (result ++ [?rec])] =>
          destruct (Hnext ms rec) as (recs & -> & Ht & Hs)
      end.
      exists (WRec (if single then None else Some t) "Success" None :: recs).
      rewrite <- app_assoc. split_and!; [done| |]; simpl; by f_equal.
Qed.

Lemma write_status_rejected ie single errors tags : ∀ n msgs result,
  (ie = true → ∀ t, t ∈ tags → is_Some (msgs !! t)) →
  ∃ recs, write_status ie single errors [] n tags msgs result
          = Ok (result ++ recs)
    ∧ w_tag <$> recs = shown single <$> tags
    ∧ w_status <$> recs = (λ _, "Error") <$> tags.
Proof.
  induction tags as [|t tags IH]; intros n msgs result Hmsgs.
  - exists []. by rewrite app_nil_r.
  - simpl. destruct (decide (t ∈ [])) as [?%elem_of_nil|_]; [done|]. simpl.
    destruct ie; simpl.
    + destruct (Hmsgs eq_refl t) as [m Hm]; [by left|].
      unfold py_getitem. rewrite Hm. simpl. rewrite lookup_insert_eq. simpl.
      match goal with
      | |- context [write_status _ _ _ _ _ _ ?ms (result ++ [?rec])] =>
          destruct (IH n ms (result ++ [rec])) as (recs & -> & Ht & Hs)
      end.
      { intros _ t' Ht'. rewrite lookup_insert_is_Some.
        destruct (decide (t = t')); [by left|right]. split; [done|].
        apply (Hmsgs eq_refl). by right. }
      eexists (_ :: recs). rewrite <- app_assoc.
      split_and!; [done| |]; simpl; by f_equal.
    + destruct (IH n msgs (result ++ [WRec (if single then None else Some t)
                                          "Error" None]))
        as (recs & -> & Ht & Hs); [done|].
      eexists (_ :: recs). rewrite <- app_assoc.
      split_and!; [done| |]; simpl; by f_equal.
Qed.

Lemma write_validated_rejected ie errors tags values : ∀ i n vt vv ch msgs,
  (∀ j, (j < length tags)%nat →
        ∃ e, errors !! (i + j)%nat = Some e ∧ e ≠ 0) →
  ∃ msgs', write_validated ie errors i tags values n vt vv ch msgs
           = Ok (vt, vv, ch, msgs')
    ∧ (∀ t, is_Some (msgs !! t) → is_Some (msgs' !! t))
    ∧ (ie = true → ∀ t, t ∈ tags → is_Some (msgs' !! t)).
Proof.
  induction tags as [|t tags IH]; intros i n vt vv ch msgs Herr.
  - exists msgs. split_and!; try done. by intros _ t ?%elem_of_nil.
  - simpl. destruct (Herr 0%nat) as (e & He & Hne); [simpl; lia|].
    rewrite Nat.add_0_r in He. unfold py_index. rewrite He. simpl.
    rewrite decide_False by done.
    assert (Hnext : ∀ j, (j < length tags)%nat →
              ∃ e, errors !! (S i + j)%nat = Some e ∧ e ≠ 0).
    { intros j Hj. replace (S i + j)%nat with (i + S j)%nat by lia.
      apply Herr. simpl. lia. }
    destruct ie.
    + destruct (IH (S i) n vt vv ch (<[t := GetErrorString e]> msgs) Hnext)
        as (msgs' & -> & Hkeep & Hall).
      exists msgs'. split_and!; [done| |].
      * intros t' Ht'. apply Hkeep. rewrite lookup_insert_is_Some.
        destruct (decide (t = t')); eauto.
      * intros _ t' [->|Ht']%elem_of_cons; [|by apply Hall].
        apply Hkeep. rewrite lookup_insert_eq. eauto.
    + destruct (IH (S i) n vt vv ch msgs Hnext) as (msgs' & -> & Hkeep & _).
      exists msgs'. split_and!; done.
Qed.

Variables (status : string) (Pev : event → Prop).
Variables (pause : Z) (ie single : bool).

(** A server under which every chunk of a write gets the status
    [status] for each of its tags, with calls satisfying [Pev]. *)
Hypothesis group_answer : ∀ ngs tgs vgs gid names tags values result
    (w : world R),
  ngs !! gid = Some names → tgs !! gid = Some tags → vgs !! gid = Some values →
  names = tags → length values = length tags →
  ∃ w' recs,
    iwrite_group pause ie single ngs tgs vgs gid result w
    = (w', Ok (result ++ recs))
    ∧ w_tag <$> recs = shown single <$> tags
    ∧ w_status <$> recs = (λ _, status) <$> tags
    ∧ ∃ evs, log w' = log w ++ evs ∧ Forall Pev evs.

Lemma iwrite_loop_answer ngs tgs vgs gids : ∀ result (w : world R),
  (∀ gid, gid ∈ gids → ∃ tags values,
      ngs !! gid = Some tags ∧ tgs !! gid = Some tags
      ∧ vgs !! gid = Some values ∧ length values = length tags) →
  ∃ w' recs chunks,
    iwrite_loop pause ie single ngs tgs vgs gids result w
    = (w', Ok (result ++ recs))
    ∧ Forall2 (λ gid c, tgs !! gid = Some c) gids chunks
    ∧ w_tag <$> recs = shown single <$> concat chunks
    ∧ w_status <$> recs = (λ _, status) <$> concat chunks
    ∧ ∃ evs, log w' = log w ++ evs ∧ Forall Pev evs.
Proof.
  induction gids as [|gid gids IH]; intros result w Hin.
  - exists w, [], []. rewrite app_nil_r. split_and!; try done.
    exists []. by rewrite app_nil_r.
  - simpl. rewrite run_bind.
    destruct (Hin gid) as (tags & values & Hn & Ht & Hv & Hlv); [by left|].
    destruct (group_answer ngs tgs vgs gid tags tags values result w)
      as (w1 & recs1 & -> & Ht1 & Hs1 & evs1 & Hl1 & He1); try done.
    cbv beta iota.
    destruct (IH (result ++ recs1) w1) as
      (w2 & recs2 & chunks & -> & Hall & Ht2 & Hs2 & evs2 & Hl2 & He2).
    { intros j Hj. apply Hin. by right. }
    exists w2, (recs1 ++ recs2), (tags :: chunks).
    rewrite app_assoc. split_and!; try done.
    + by constructor.
    + simpl. by rewrite !fmap_app, Ht1, Ht2.
    + simpl. by rewrite !fmap_app, Hs1, Hs2.
    + exists (evs1 ++ evs2). split; [by rewrite Hl2, Hl1, app_assoc|].
      by apply Forall_app.
Qed.

Lemma iwrite_answer p pairs size (w : world R) :
  (CoInitialize (server w)).2 = ComOk tt → Pev EvCoInitialize →
  pairs_of p = Some (pairs, single) → covering size →
  ∃ w' result,
    iwrite p size pause ie w = (w', Ok result)
    ∧ w_tag <$> result = shown single <$> pairs.*1
    ∧ w_status <$> result = (λ _, status) <$> pairs
    ∧ Forall Pev (events_of w w').
Proof.
  intros Hco Hev Hp Hsize.
  rewrite (iwrite_unfold _ _ _ _ _ _ _ Hp Hco).
  match goal with
  | |- context [iwrite_loop _ _ _ ?ngs ?tgs ?vgs ?gids [] ?w0] =>
      destruct (iwrite_loop_answer ngs tgs vgs gids [] w0)
        as (w' & recs & chunks & -> & Hall & Ht & Hs & evs & Hl & He)
  end.
  { intros gid Hgid. apply elem_of_seq in Hgid.
    destruct (lookup_lt_is_Some_2 (split_tags size pairs.*1) gid)
      as [tags Htags]; [lia|].
    pose proof (split_tags_lengths size pairs.*1 pairs.*2) as Hlens.
    rewrite !length_fmap in Hlens. specialize (Hlens eq_refl).
    apply (f_equal (λ x, x !! gid)) in Hlens.
    rewrite !list_lookup_fmap, Htags in Hlens.
    destruct (split_tags size pairs.*2 !! gid) as [values|] eqn:Hvalues;
      [|done].
    injection Hlens as Hlens. exists tags, values. split_and!; done. }
  apply Forall2_lookup_seq in Hall. subst chunks.
  rewrite split_tags_concat in Ht, Hs by done.
  exists w', recs. rewrite app_nil_l. split_and!; try done.
  - by rewrite Hs, <- list_fmap_compose.
  - unfold events_of. cbn [log] in Hl. rewrite Hl, <- app_assoc, drop_app_length.
    by constructor.
Qed.

End WriteAnswers.

Section WriteVerdicts.
Context `{Common} {R : Type} `{!OPCServer R}.

Lemma iwrite_group_accepted pause ie single ngs tgs vgs gid names tags values
    result (w : world R) :
  agreeable R →
  ngs !! gid = Some names → tgs !! gid = Some tags → vgs !! gid = Some values →
  names = tags → length values = length tags →
  ∃ w' recs,
    iwrite_group pause ie single ngs tgs vgs gid result w
    = (w', Ok (result ++ recs))
    ∧ w_tag <$> recs = shown single <$> tags
    ∧ w_status <$> recs = (λ _, "Success") <$> tags
    ∧ ∃ evs, log w' = log w ++ evs ∧ Forall (λ _, True) evs.
Proof.
  intros (_ & Hadd & Hremove & Hval & Hitems & _ & Hwrite) Hn Ht Hv -> Hlv.
  assert (Hlog : ∀ w' o,
    iwrite_group pause ie single ngs tgs vgs gid result w = (w', o) →
    ∃ evs, log w' = log w ++ evs ∧ Forall (λ _ : event, True) evs).
  { intros w' o Hrun.
    destruct (iwrite_group_obeys pause ie single ngs tgs vgs gid result w)
      as ((evs & Hl & _) & _). rewrite Hrun in Hl. exists evs.
    split; [done|]. by apply Forall_forall. }
  enough (∃ w' recs,
    iwrite_group pause ie single ngs tgs vgs gid result w
    = (w', Ok (result ++ recs))
    ∧ w_tag <$> recs = shown single <$> tags
    ∧ w_status <$> recs = (λ _, "Success") <$> tags)
    as (w' & recs & Hrun & ? & ?) by (exists w', recs; eauto).
  unfold iwrite_group. grun.
  match goal with
  | |- context [(if ?c then ?x else ?y) w] =>
      assert (Hpre : ∃ w0, (if c then x else y) w = (w0, Ok tt))
  end.
  { destruct (_ && _); by eexists. }
  destruct Hpre as [w0 ->]. grun.
  destruct (Hadd None (server w0)) as [g ->]. grun.
  unfold py_index. rewrite Hn, Ht, Hv. grun. rewrite Hval. grun.
  destruct (write_validated_ok ie (replicate (length tags) 0) tags values 0 1
              [] [] [] ∅) as (vv & ch & ms & Hrun & Hlvv).
  { intros j Hj. split; [apply lookup_replicate_2; lia|].
    apply lookup_lt_is_Some. simpl. lia. }
  simpl app in Hrun. rewrite Hrun. grun.
  match goal with
  | |- context [AddItems g ?n tags ch ?r] =>
      destruct (Hitems g n tags ch r) as (shs & -> & Hlsh)
  end.
  grun.
  destruct (write_added_ok ie (replicate (length tags) 0) shs vv tags 0
              [] [] [] ms) as (vv' & sh' & ms' & Hrun2 & Hlvv' & Hlsh').
  { intros j Hj. split_and!; [by apply lookup_replicate_2|
      apply lookup_lt_is_Some; simpl in *; lia|apply lookup_lt_is_Some; simpl; lia]. }
  simpl app in Hrun2. rewrite Hrun2. grun.
  match goal with
  | |- context [(if ?c then ?x else ?y) ?w2] =>
      assert (Herrs : ∃ w3 errs, (if c then x else y) w2 = (w3, Ok errs)
                ∧ ∀ j, (j < length tags)%nat → errs !! (0 + j)%nat = Some 0)
  end.
  { destruct (decide _) as [Hpos|Hpos].
    - rewrite run_com_or, run_call, Hwrite. eexists _, _. split; [done|].
      intros j Hj. apply lookup_replicate_2. simpl in *. lia.
    - eexists _, _. split; [done|]. intros j Hj. simpl in *. lia. }
  destruct Herrs as (w3 & errs & -> & Herrs). grun.
  destruct (write_status_success ie single errs tags tags 0 ms' result)
    as (recs & -> & Htags & Hstat); [done|done|].
  grun. rewrite Hremove. grun. by eexists _, recs.
Qed.

Lemma iwrite_group_rejected pause ie single ngs tgs vgs gid names tags values
    result (w : world R) :
  opens R → rejects_all R →
  ngs !! gid = Some names → tgs !! gid = Some tags → vgs !! gid = Some values →
  names = tags → length values = length tags →
  ∃ w' recs,
    iwrite_group pause ie single ngs tgs vgs gid result w
    = (w', Ok (result ++ recs))
    ∧ w_tag <$> recs = shown single <$> tags
    ∧ w_status <$> recs = (λ _, "Error") <$> tags
    ∧ ∃ evs, log w' = log w ++ evs ∧ Forall (λ e, ¬ is_sync_write e) evs.
Proof.
  intros (_ & Hadd & Hremove) Hval Hn Ht Hv -> Hlv.
  unfold iwrite_group. grun.
  match goal with
  | |- context [(if ?c then ?x else ?y) w] =>
      assert (Hpre : ∃ w0 evs0, (if c then x else y) w = (w0, Ok tt)
                ∧ log w0 = log w ++ evs0
                ∧ Forall (λ e, ¬ is_sync_write e) evs0)
  end.
  { destruct (_ && _); [eexists _, [_]|eexists _, []]; split_and!; try done;
      first [by repeat constructor; cbn; tauto | by rewrite app_nil_r]. }
  destruct Hpre as (w0 & evs0 & -> & Hlog0 & Hev0). grun.
  destruct (Hadd None (server w0)) as [g ->]. grun.
  unfold py_index. rewrite Hn, Ht, Hv. grun.
  match goal with
  | |- context [Validate g ?n tags ?r] =>
      destruct (Hval g n tags r) as (errors & -> & Hlen & Hbad)
  end.
  grun.
  destruct (write_validated_rejected ie errors tags values 0 1 [] [] [] ∅)
    as (msgs & -> & _ & Hmsgs).
  { intros j Hj. destruct (lookup_lt_is_Some_2 errors j) as [e He]; [lia|].
    exists e. split; [done|]. rewrite Forall_forall in Hbad. apply Hbad.
    by eapply list_elem_of_lookup_2. }
  grun.
  match goal with
  | |- context [AddItems g ?n [] [] ?r] =>
      destruct (AddItems g n [] [] r) as [r3 [[shs errs]|hr]]
  end; grun; simpl write_added; grun;
    (destruct (decide (0 < length (@nil value))%nat) as [Hpos|_];
       [simpl in Hpos; lia|]); grun.
  all: destruct (write_status_rejected ie single [] tags 0 msgs result Hmsgs)
         as (recs & -> & Htags & Hstat); grun; rewrite Hremove; grun;
       eexists _, recs; split_and!; try done; cbn [log];
       eexists; (split; [by rewrite Hlog0, <- !app_assoc|]);
       apply Forall_app; (split; [done|]); repeat constructor; cbn; tauto.
Qed.

(** X12: on a server that refuses nothing, a write succeeds for every
    pair.  For one or more pairs and a chunk size that is none, 0 or
    positive, the write returns one record per pair, in the order of the
    pairs, each with status ["Success"]. *)
Theorem iwrite_all_accepted p pairs single size pause ie (w : world R) :
  agreeable R → pairs_of p = Some (pairs, single) → covering size →
  ∃ w' result,
    iwrite p size pause ie w = (w', Ok result)
    ∧ w_tag <$> result = shown single <$> pairs.*1
    ∧ w_status <$> result = (λ _, "Success") <$> pairs.
Proof.
  intros Hagree Hp Hsize.
  destruct (iwrite_answer "Success" (λ _, True) pause ie single) with
    (p := p) (pairs := pairs) (size := size) (w := w)
    as (w' & result & Hrun & Ht & Hs & _); try done.
  - intros. by eapply iwrite_group_accepted.
  - by destruct Hagree as (Hco & _).
  - by exists w', result.
Qed.

(** X13: tags the server does not validate are not written.  On a
    server that opens groups and whose [Validate] answers with an error
    code other than 0 for every name, a write of one or more pairs, with a
    chunk size that is none, 0 or positive, returns one record per pair
    with status ["Error"], and [SyncWrite] is never called. *)
Theorem iwrite_all_rejected p pairs single size pause ie (w : world R) :
  opens R → rejects_all R → pairs_of p = Some (pairs, single) →
  covering size →
  ∃ w' result,
    iwrite p size pause ie w = (w', Ok result)
    ∧ w_tag <$> result = shown single <$> pairs.*1
    ∧ w_status <$> result = (λ _, "Error") <$> pairs
    ∧ Forall (λ e, ¬ is_sync_write e) (events_of w w').
Proof.
  intros Hopen Hrej Hp Hsize.
  destruct (iwrite_answer "Error" (λ e, ¬ is_sync_write e) pause ie single)
    with (p := p) (pairs := pairs) (size := size) (w := w)
    as (w' & result & Hrun & Ht & Hs & He); try done.
  - intros. by eapply iwrite_group_rejected.
  - by destruct Hopen as (Hco & _).
  - cbn. tauto.
  - by exists w', result.
Qed.

End WriteVerdicts.

(** ** From the server's answer to the records *)

Section Answers.
Context `{Common} {R : Type} `{!OPCServer R}.




Lemma fill_async_holds (handles_tag : gmap subgroup (gmap Z tag)) sub hm
    (vs : list value) (qs ts : list Z) handles named :
  handles_tag !! sub = Some hm →
  Forall2 (λ h t, hm !! h = Some t) handles named → NoDup named →
  ∀ i tm0,
  (∀ j, (j < length named)%nat →
        is_Some (vs !! (i + j)%nat) ∧ is_Some (qs !! (i + j)%nat)
        ∧ is_Some (ts !! (i + j)%nat)) →
  ∃ tm, fill_async handles_tag sub vs qs ts i handles tm0 = Ok tm
    ∧ tag_error tm = tag_error tm0
    ∧ ∀ j t, named !! j = Some t →
        tag_value tm !! t = vs !! (i + j)%nat
        ∧ tag_quality tm !! t = qs !! (i + j)%nat
        ∧ tag_time tm !! t = ts !! (i + j)%nat.
Proof.
  intros Hsub Hall. induction Hall as [|h t handles named Hh Hall IH];
    intros Hnd i tm0 Hlen.
  - exists tm0. by split_and!.
  - apply NoDup_cons in Hnd as [Hnotin Hnd]. simpl. rewrite Hsub, Hh.
    destruct (Hlen 0%nat) as ([v Hv] & [q Hq] & [ti Hti]); [simpl; lia|].
    rewrite Nat.add_0_r in Hv, Hq, Hti. rewrite Hv, Hq, Hti.
    match goal with
    | |- context [fill_async _ _ _ _ _ (S i) handles ?tm1] =>
        destruct (IH Hnd (S i) tm1) as (tm & Hrun & Herr & Hget);
          [|exists tm; split; [exact Hrun|split; [exact Herr|]]]
    end.
    { intros j Hj. replace (S i + j)%nat with (i + S j)%nat by lia.
      apply Hlen. simpl. lia. }
    assert (Hkeep : ∀ tm1,
      fill_async handles_tag sub vs qs ts (S i) handles tm1 = Ok tm →
      tag_value tm !! t = tag_value tm1 !! t
      ∧ tag_quality tm !! t = tag_quality tm1 !! t
      ∧ tag_time tm !! t = tag_time tm1 !! t).
    { clear -Hnotin Hall Hsub. generalize (S i). revert Hnotin.
      induction Hall as [|h' t' handles named Hh' Hall IH];
        intros Hnotin k tm1 Hrun; simpl in Hrun.
      - by injection Hrun as <-.
      - apply not_elem_of_cons in Hnotin as [Hne Hnotin].
        rewrite Hsub, Hh' in Hrun.
        destruct (vs !! k), (qs !! k), (ts !! k); try done.
        apply IH in Hrun as (-> & -> & ->); [|done]. cbn.
        by rewrite !lookup_insert_ne. }
    intros [|j] t' Hj; simpl in Hj.
    + injection Hj as <-. rewrite Nat.add_0_r.
      destruct (Hkeep _ Hrun) as (-> & -> & ->). cbn.
      by rewrite !lookup_insert_eq.
    + replace (i + S j)%nat with (S i + j)%nat by lia. by apply Hget.
Qed.

Lemma assemble_async (single : bool) (valid named : list tag) tm (vs : list value)
    (qs ts : list Z) tags : ∀ msgs status,
  valid ≠ [] →
  (∀ t, t ∈ tags → ∃ i v q s,
      named !! i = Some t ∧ vs !! i = Some v
      ∧ qs !! i = Some q ∧ ts !! i = Some s
      ∧ tag_value tm !! t = Some v
      ∧ tag_quality tm !! t = Some q ∧ tag_time tm !! t = Some s) →
  ∃ recs, assemble false false single valid tm tags msgs status
          = Ok (status ++ recs)
    ∧ Forall2 (λ t r, ∃ i v q s,
        named !! i = Some t ∧ vs !! i = Some v
        ∧ qs !! i = Some q ∧ ts !! i = Some s
        ∧ r = async_record single t v q s) tags recs.
Proof.
  intros msgs status Hvalid. revert msgs status.
  induction tags as [|t tags IH]; intros msgs status Hans.
  - exists []. rewrite app_nil_r. by split; [|constructor].
  - simpl.
    destruct (Hans t) as (i & v & q & s & Hi & Hv & Hq & Hs
                          & Htv & Htq & Htt); [by left|].
    unfold tag_status, py_getitem. rewrite Htv, Htq, Htt.
    rewrite decide_True by eauto.
    rewrite bool_decide_eq_true_2 by (destruct valid; simpl; [done|lia]).
    simpl.
    destruct (IH msgs (status ++ [async_record single t v q s]))
      as (recs & Hrun & Hall).
    { intros t' Ht'. apply Hans. by right. }
    exists (async_record single t v q s :: recs).
    unfold async_record, shown, text in *. rewrite Hrun, <- app_assoc.
    split; [done|]. constructor; [|done]. by exists i, v, q, s.
Qed.

(** X15: an asynchronous read shows what the callback carried, handle by
    handle.  The message's client handles are looked up in the
    sub-group's handle map; when they name distinct tags and the message's
    arrays are as long as its handle list, the response maps are filled,
    and the record of each requested tag among them holds the value (a
    time as text), the decoded quality and the time as text at the
    position of the tag's handle. *)
Theorem async_records_show_callback (single : bool)
    (handles_tag : gmap subgroup (gmap Z tag)) sub hm handles named
    (vs : list value) (qs ts : list Z) (valid : list tag) tags msgs status :
  handles_tag !! sub = Some hm →
  Forall2 (λ h t, hm !! h = Some t) handles named → NoDup named →
  length vs = length handles → length qs = length handles →
  length ts = length handles →
  valid ≠ [] → (∀ t, t ∈ tags → t ∈ named) →
  ∃ tm recs,
    fill_async handles_tag sub vs qs ts 0 handles no_tagmaps = Ok tm
    ∧ assemble false false single valid tm tags msgs status
      = Ok (status ++ recs)
    ∧ Forall2 (λ t r, ∃ i v q s,
        named !! i = Some t ∧ vs !! i = Some v
        ∧ qs !! i = Some q ∧ ts !! i = Some s
        ∧ r = async_record single t v q s) tags recs.
Proof.
  intros Hsub Hall Hnd Hlv Hlq Hlt Hvalid Hin.
  pose proof (Forall2_length _ _ _ Hall) as Hlen.
  destruct (fill_async_holds handles_tag sub hm vs qs ts handles named
              Hsub Hall Hnd 0 no_tagmaps) as (tm & Hfill & _ & Hget).
  { intros j Hj. simpl. split_and!; apply lookup_lt_is_Some; lia. }
  destruct (assemble_async single valid named tm vs qs ts tags msgs status)
    as (recs & Hrun & Hrecs); [done| |by exists tm, recs].
  intros t Ht. apply Hin, list_elem_of_lookup in Ht as [i Hi].
  destruct (Hget i t Hi) as (Hv & Hq & Ht'). simpl in *.
  pose proof (lookup_lt_Some _ _ _ Hi) as Hbound.
  destruct (lookup_lt_is_Some_2 vs i) as [v Hvi]; [lia|].
  destruct (lookup_lt_is_Some_2 qs i) as [q Hqi]; [lia|].
  destruct (lookup_lt_is_Some_2 ts i) as [s Hsi]; [lia|].
  exists i, v, q, s. split_and!; try done; congruence.
Qed.

End Answers.

(** ** A named read registers its group *)

Global Instance same_groups_preorder : PreOrder same_groups.
Proof.
  split.
  - by intros c.
  - intros c1 c2 c3 [A1 B1] [A2 B2]. unfold same_groups. split; congruence.
Qed.

Ltac sstep := ostep ltac:(done) ltac:(by cbn).

Section Registers.
Context `{Common} {R : Type} `{!OPCServer R}.
Local Abbreviation M := (M R).
Local Abbreviation G := (obeys (R:=R) (λ _, True) same_groups (λ _, True)).

Lemma assign_handles_groups sub ie errors tags : ∀ i n vt ch msgs,
  G (assign_handles sub ie errors i tags n vt ch msgs).
Proof.
  induction tags as [|t tags IH]; intros; simpl.
  - by apply obeys_ret; inst.
  - repeat first [apply IH | sstep].
Qed.

Lemma record_server_handles_groups sub ie errors shs tags : ∀ i vt sh msgs,
  G (record_server_handles sub ie errors shs i tags vt sh msgs).
Proof.
  induction tags as [|t tags IH]; intros; simpl.
  - by apply obeys_ret; inst.
  - repeat first [apply IH | sstep].
Qed.

Lemma add_items_groups g sub ie msgs tags : G (add_items g sub ie msgs tags).
Proof.
  unfold add_items, first_handle.
  repeat first [ apply assign_handles_groups
               | apply record_server_handles_groups | sstep ].
Qed.

Lemma sync_read_groups a g valid loc : G (sync_read a g valid loc).
Proof. unfold sync_read. repeat sstep. Qed.

Lemma wait_callback_groups fuel start timeout : ∀ tx msg,
  G (wait_callback fuel start timeout tx msg).
Proof.
  induction fuel as [|fuel IH]; intros tx msg; simpl.
  - sstep; [sstep|]. sstep; [|sstep].
    intros w. split_and!; [exists []; by rewrite app_nil_r|done|done].
  - repeat first [apply IH | sstep].
Qed.

Lemma async_read_groups fuel a g sub valid loc :
  G (async_read fuel a g sub valid loc).
Proof.
  unfold async_read. repeat first [apply wait_callback_groups | sstep].
Qed.

Lemma open_group_named g gid tgs (w w' : world R) og sub new :
  open_group (Some g) gid (Some tgs) w = (w', Ok (og, sub, new)) →
  sub = Some (sub_name g gid)
  ∧ if new then _groups (client w') = <[g := length tgs]> (_groups (client w))
               ∧ _group_tags (client w') = _group_tags (client w)
    else True.
Proof.
  intros Hrun. unfold open_group in Hrun. mrun Hrun.
  destruct (GetOPCGroup (sub_name g gid) (server w)) as [r1 [g1|hr]];
    mrun Hrun.
  - by injection Hrun as <- <- <- <-.
  - destruct (GroupsAdd (Some (sub_name g gid)) r1) as [r2 [g2|hr2]];
      mrun Hrun; [|done].
    by injection Hrun as <- <- <- <-.
Qed.

Lemma resolve_items_new a sync og sub tgs gid loc (w w' : world R)
    tags valid loc' msgs :
  resolve_items a sync og sub true (Some tgs) gid loc w
  = (w', Ok (tags, valid, loc', msgs)) →
  tgs !! gid = Some tags
  ∧ _groups (client w') = _groups (client w)
  ∧ _group_tags (client w') = <[sub := tags]> (_group_tags (client w)).
Proof.
  intros Hrun. unfold resolve_items in Hrun. mrun Hrun.
  match type of Hrun with
  | context [(if negb sync then ?x else ?y) ?w1] =>
      assert (Hhook : ∃ w2, (if negb sync then x else y) w1 = (w2, Ok tt)
                ∧ same_groups (client w) (client w2))
  end.
  { destruct (negb sync); [rewrite run_bind, run_note; cbn [fst snd];
      rewrite run_modify|]; by eexists. }
  destruct Hhook as (w2 & Hhook & Hs2). rewrite Hhook in Hrun.
  clear Hhook. mrun Hrun.
  unfold chunk_of in Hrun. mrun Hrun. unfold py_index in Hrun.
  destruct (tgs !! gid) as [c|] eqn:Hc; mrun Hrun; [|done].
  destruct (add_items_groups og sub (Arg.include_error a) ∅ c w2)
    as (_ & Hs3 & _).
  destruct (add_items og sub (Arg.include_error a) ∅ c w2)
    as [w3 [[[vt shs] ms]|e|]]; mrun Hrun; try done.
  injection Hrun as <- <- <- <- <-. cbn [fst client] in *.
  destruct Hs3 as [Hg3 Ht3], Hs2 as [Hg2 Ht2]. cbn in Hg2, Ht2.
  split; [done|]. cbn. by rewrite Hg3, Ht3, Hg2, Ht2.
Qed.

Lemma iread_group_registers fuel a sync update single g tgs gid loc status
    (w w' : world R) r :
  Arg.group a = Some g → Arg.rebuild a = false →
  iread_group fuel a sync update single (Some tgs) gid loc status w
  = (w', Ok r) →
  ∃ evs, log w' = log w ++ evs
    ∧ (found_none evs →
       ∃ c, tgs !! gid = Some c
         ∧ _groups (client w') = <[g := length tgs]> (_groups (client w))
         ∧ _group_tags (client w')
           = <[Some (sub_name g gid) := c]> (_group_tags (client w))).
Proof.
  intros Hg Hre Hrun.
  assert (Hall : ∃ evs, log w' = log w ++ evs).
  { eapply log_grows; [|exact Hrun].
    apply (iread_group_triple a (λ _, True) (λ _, True)); done. }
  destruct Hall as [evs Hlog]. exists evs. split; [done|]. intros Hnone.
  unfold iread_group in Hrun. mrun Hrun.
  match type of Hrun with
  | context [(if ?c then ?x else ?y) w] =>
      assert (Hpre : ∃ w0 evs0, (if c then x else y) w = (w0, Ok tt)
                ∧ log w0 = log w ++ evs0 ∧ client w0 = client w)
  end.
  { destruct (_ && _); [eexists _, [_]|eexists _, []]; split_and!; try done.
    by rewrite app_nil_r. }
  destruct Hpre as (w0 & evs0 & Hpre & Hlog0 & Hc0).
  rewrite Hpre in Hrun. clear Hpre. mrun Hrun. rewrite Hg in Hrun.
  destruct open_group as [w1 [[[og sub] new]|e|]] eqn:Hopen in Hrun;
    mrun Hrun; try done.
  pose proof Hopen as Hfound.
  apply open_group_spec in Hfound as (evs1 & Hlog1 & Hfound & _).
  apply open_group_named in Hopen as [-> Hnew]. cbn [log client] in *.
  destruct resolve_items as [w2 [[[[tags valid] loc1] msgs]|e|]] eqn:Hres in Hrun;
    mrun Hrun; try done.
  pose proof Hres as Hlog2. eapply log_grows in Hlog2 as [evs2 Hlog2].
  2:{ apply (resolve_items_triple a (λ _, True) (λ _, True)); done. }
  match type of Hrun with
  | context [(if sync then ?x else ?y) w2] =>
      assert (Hread : ∃ evs3, log ((if sync then x else y) w2).1
                              = log w2 ++ evs3
                ∧ same_groups (client w2) (client ((if sync then x else y) w2).1));
      [|destruct ((if sync then x else y) w2) as [w3 [[tm loc2]|e|]];
        mrun Hrun; try done]
  end.
  { destruct sync.
    - destruct (sync_read_groups a og valid loc1 w2) as ((? & ? & _) & ? & _).
      eauto.
    - destruct (async_read_groups fuel a og (Some (sub_name g gid)) valid loc1 w2)
        as ((? & ? & _) & ? & _). eauto. }
  destruct Hread as (evs3 & Hlog3 & Hs3). cbn [fst] in *.
  destruct (assemble _ _ _ _ _ _ _ _) as [st|e|] in Hrun; mrun Hrun; try done.
  injection Hrun as <- _.
  assert (evs = evs0 ++ [EvSetUpdateRate update] ++ evs1 ++ evs2 ++ evs3) as ->.
  { apply (app_inv_head (log w)).
    rewrite <- Hlog, Hlog3, Hlog2, Hlog1, Hlog0. by rewrite <- !app_assoc. }
  destruct new.
  - apply resolve_items_new in Hres as (Hc & Hg2 & Ht2).
    exists tags. split; [done|]. destruct Hs3 as [-> ->].
    destruct Hnew as [Hg1 Ht1]. by rewrite Hg2, Ht2, Hg1, Ht1, Hc0.
  - exfalso. destruct (Hfound eq_refl) as [n Hin].
    unfold found_none in Hnone. rewrite Forall_forall in Hnone.
    enough (is_found (EvGetOPCGroup n true) = false) by done. apply Hnone.
    rewrite !elem_of_app. tauto.
Qed.

Lemma iread_loop_registers fuel a sync update single g tgs gids :
  Arg.group a = Some g → Arg.rebuild a = false → NoDup gids →
  ∀ loc status (w w' : world R) st,
  iread_loop fuel a sync update single (Some tgs) gids loc status w
  = (w', Ok st) →
  ∃ evs, log w' = log w ++ evs
    ∧ (found_none evs →
       _groups (client w')
       = (if gids is [] then _groups (client w)
          else <[g := length tgs]> (_groups (client w)))
       ∧ (∀ gid, gid ∈ gids →
            is_Some (tgs !! gid)
            ∧ _group_tags (client w') !! Some (sub_name g gid) = tgs !! gid)
       ∧ (∀ k, (∀ gid, gid ∈ gids → k ≠ Some (sub_name g gid)) →
            _group_tags (client w') !! k = _group_tags (client w) !! k)).
Proof.
  intros Hg Hre Hnd. induction Hnd as [|gid gids Hnotin Hnd IH];
    intros loc status w w' st Hrun; simpl in Hrun.
  - injection Hrun as <- <-. exists []. rewrite app_nil_r. split; [done|].
    intros _. split_and!; try done. by intros gid ?%elem_of_nil.
  - mrun Hrun.
    destruct iread_group as [w1 [[loc1 st1]|e|]] eqn:Hgrp in Hrun; mrun Hrun;
      try done.
    apply (iread_group_registers _ _ _ _ _ g) in Hgrp as (evs1 & Hl1 & Hreg);
      [|done..].
    apply IH in Hrun as (evs2 & Hl2 & Hrest).
    exists (evs1 ++ evs2). split; [by rewrite Hl2, Hl1, app_assoc|].
    intros [Hf1 Hf2]%found_none_app.
    destruct (Hreg Hf1) as (c & Hc & Hg1 & Ht1).
    destruct (Hrest Hf2) as (Hg2 & Hin2 & Hout2). split_and!.
    + rewrite Hg2, Hg1. destruct gids; [done|]. by rewrite insert_insert_eq.
    + intros gid' [->|Hin]%elem_of_cons; [|by apply Hin2].
      split; [by rewrite Hc|]. rewrite Hout2, Ht1, lookup_insert_eq; [done|].
      intros gid' Hin [= Heq]. apply sub_name_inj in Heq. by subst.
    + intros k Hk. rewrite Hout2, Ht1.
      * rewrite lookup_insert_ne; [done|]. intros <-. by eapply Hk; [left|].
      * intros gid' Hin. apply Hk. by right.
Qed.

(** What a read that creates a named group leaves in the session. *)
Lemma iread_registers fuel tags T single a g (w w' : world R)
    status :
  Arg.group a = Some g → Arg.rebuild a = false →
  _groups (client w) !! g = None → type_check tags = (T, single, true) →
  iread fuel tags a w = (w', Ok status) → found_none (events_of w w') →
  let chunks := split_tags (Arg.size a) T in
  _groups (client w') !! g
  = (if chunks is [] then None else Some (length chunks))
  ∧ (chunks ≠ [] → ∃ names, groups w' = (w', Ok names) ∧ g ∈ names)
  ∧ ∀ i c, chunks !! i = Some c →
      _group_tags (client w') !! Some (sub_name g i) = Some c.
Proof.
  intros Hg Hre Hnew Htc Hrun Hnone chunks. unfold iread in Hrun. mrun Hrun.
  destruct (CoInitialize (server w)) as [r0 [[]|hr]]; mrun Hrun; [|done].
  rewrite Htc in Hrun. mrun Hrun. cbn [negb] in Hrun. mrun Hrun.
  rewrite Hg in Hrun. simpl in Hrun. rewrite Hnew in Hrun. fold chunks in Hrun.
  apply (iread_loop_registers _ _ _ _ _ g) in Hrun as (evs & Hlog & Hreg);
    [|done|done|apply NoDup_seq].
  cbn [log client] in *.
  destruct Hreg as (Hgroups & Hin & _).
  { rewrite (events_of_app w w' ([EvCoInitialize] ++ evs)) in Hnone
      by (by rewrite Hlog, <- app_assoc).
    by apply found_none_app in Hnone as [_ ?]. }
  assert (Hg' : _groups (client w') !! g
                = (if chunks is [] then None else Some (length chunks))).
  { rewrite Hgroups. destruct chunks; simpl; [done|].
    by rewrite lookup_insert_eq. }
  split_and!.
  - done.
  - intros Hne. exists (dom (_groups (client w'))). split; [done|].
    apply elem_of_dom. rewrite Hg'. by destruct chunks.
  - intros i c Hi. destruct (Hin i) as [_ ->]; [|done].
    apply elem_of_seq. apply lookup_lt_Some in Hi. lia.
Qed.

(** X16: a read that creates a named group registers it.  For a group
    the session does not know, without [rebuild], when the read returns
    and no sub-group lookup on the server succeeded during it: the group
    map holds the number of chunks under the group's name (nothing, if
    there was no chunk), [groups] lists the name, and the tag cache holds
    the i-th chunk of the request under the key of the i-th sub-group. *)
Theorem named_read_registers_group fuel tags T single a g (w w' : world R)
    status :
  Arg.group a = Some g → Arg.rebuild a = false →
  _groups (client w) !! g = None → type_check tags = (T, single, true) →
  iread fuel tags a w = (w', Ok status) → found_none (events_of w w') →
  let chunks := split_tags (Arg.size a) T in
  _groups (client w') !! g
  = (if chunks is [] then None else Some (length chunks))
  ∧ (chunks ≠ [] → ∃ names, groups w' = (w', Ok names) ∧ g ∈ names)
  ∧ ∀ i c, chunks !! i = Some c →
      _group_tags (client w') !! Some (sub_name g i) = Some c.
Proof.
  intros Hg Hre Hnew Htc Hrun Hnone.
  exact (iread_registers _ _ _ _ _ _ _ _ _ Hg Hre Hnew Htc Hrun Hnone).
Qed.

(** X17: reading a group again returns the tags it was created with.
    After a read that created the named group from a non-empty request
    (chunk size none, 0 or positive, no lookup on the server having
    succeeded), a later read of the group without [rebuild], whatever tags
    it is given, returns, when it returns, one record for each tag of the
    first request, in the order of that request. *)
Theorem reread_returns_requested_tags fuel tags T single a g
    (w w' w'' : world R) status fuel2 tags2 T2 single2 a2 status2 :
  Arg.group a = Some g → Arg.rebuild a = false →
  _groups (client w) !! g = None → type_check tags = (T, single, true) →
  T ≠ [] → covering (Arg.size a) →
  iread fuel tags a w = (w', Ok status) → found_none (events_of w w') →
  Arg.group a2 = Some g → Arg.rebuild a2 = false →
  type_check tags2 = (T2, single2, true) →
  iread fuel2 tags2 a2 w' = (w'', Ok status2) →
  r_tag <$> status2 = shown single2 <$> T.
Proof.
  intros Hg Hre Hnew Htc HT Hsize Hrun Hnone Hg2 Hre2 Htc2 Hrun2.
  destruct (iread_registers _ _ _ _ _ _ _ _ _ Hg Hre Hnew Htc Hrun
              Hnone) as (Hgroups & _ & Hstored).
  destruct (split_tags_first (Arg.size a) T Hsize HT) as (c & rest & Hc & _).
  rewrite Hc in Hgroups.
  eapply iread_known in Hrun2 as (_ & evs & _ & _ & chunks & Hall & ->);
    try done.
  f_equal. rewrite <- (split_tags_concat (Arg.size a) T Hsize). f_equal.
  rewrite <- Hc in Hall. apply list_eq. intros i.
  pose proof (Forall2_length _ _ _ Hall) as Hlen. rewrite length_seq in Hlen.
  destruct (split_tags (Arg.size a) T !! i) as [c'|] eqn:Hlk.
  - pose proof (lookup_lt_Some _ _ _ Hlk) as Hi.
    destruct (Forall2_lookup_l _ _ _ i i Hall) as (c2 & Hc2 & Hst).
    { apply lookup_seq. split; [done|exact Hi]. }
    cbn in Hst. apply Hstored in Hlk. congruence.
  - apply lookup_ge_None in Hlk. apply lookup_ge_None. lia.
Qed.

End Registers.

(** ** Rebuilding without a new tag *)

Lemma not_in_nil (l k : list tag) : (∀ t, t ∈ l → t ∈ k) → not_in l k = [].
Proof.
  intros Hin. unfold not_in. induction l as [|t l IH]; [done|].
  rewrite filter_cons. rewrite decide_False.
  - apply IH. intros t' Ht'. apply Hin. by right.
  - intros Hnot. apply Hnot, Hin. by left.
Qed.

Section Rebuild.
Context `{Common} {R : Type} `{!OPCServer R}.

(** X18: a synchronous rebuild that has no tag to add fails.  When the
    first sub-group of the group is found on the server and its valid tags
    are exactly the tags of the first chunk of the request, and there is
    at least one, [rebuild] adds and removes nothing, so the list of
    server handles is never assigned: the read raises [NameError] where it
    would call [SyncRead], after [CoInitialize], setting the update rate
    and the lookup of the sub-group. *)
Theorem rebuild_sync_without_new_tag fuel tags T single a g c rest valid
    (w : world R) :
  (∀ r, (CoInitialize r).2 = ComOk tt) → finds R →
  Arg.group a = Some g → Arg.rebuild a = true → effective_sync a = true →
  type_check tags = (T, single, true) →
  split_tags (Arg.size a) T = c :: rest →
  _group_valid_tags (client w) !! Some (sub_name g 0) = Some valid →
  valid ≠ [] → (∀ t, t ∈ c → t ∈ valid) → (∀ t, t ∈ valid → t ∈ c) →
  (iread fuel tags a w).2 = Raise NameError
  ∧ events_of w (iread fuel tags a w).1
    = [EvCoInitialize; EvSetUpdateRate (-1);
       EvGetOPCGroup (sub_name g 0) true].
Proof.
  intros Hco Hfind Hg Hre Hsync Htc Hsplit Hvalid Hne Hadd Hdel.
  unfold iread. fold (effective_sync a). rewrite Hsync. grun. rewrite Hco.
  grun. rewrite Htc. grun. rewrite Hg. simpl. rewrite Hre, Hsplit.
  assert (Hloop : ∀ n, ∃ w',
    iread_loop fuel a true (-1) single (Some (c :: rest)) (seq 0 (S n))
      (Locals SOURCE_DEVICE None None) []
      (World (client w) (CoInitialize (server w)).1 (log w ++ [EvCoInitialize]))
    = (w', Raise NameError)
    ∧ log w' = log w ++ [EvCoInitialize; EvSetUpdateRate (-1);
                         EvGetOPCGroup (sub_name g 0) true]).
  { intros n. simpl. rewrite run_bind. unfold iread_group.
    rewrite (bool_decide_eq_false_2 (0 < 0)%nat) by lia. grun.
    rewrite Hg. unfold open_group. grun.
    match goal with
    | |- context [GetOPCGroup (sub_name g 0) ?r] =>
        destruct (Hfind (sub_name g 0) r) as [og Hog]
    end.
    rewrite Hog. grun. unfold resolve_items. rewrite Hre. grun.
    unfold chunk_of. grun. change (py_index (c :: rest) 0) with (Ok c). grun.
    unfold py_getitem.
    match goal with
    | |- context [match ?l with Some v => Ok v | None => Raise KeyError end] =>
        replace l with (Some valid) by (symmetry; exact Hvalid)
    end.
    grun.
    rewrite (not_in_nil c valid Hadd), (not_in_nil valid c Hdel). simpl. grun.
    unfold sync_read. rewrite decide_True by (destruct valid; simpl; [done|lia]).
    simpl. grun. eexists. split; [done|]. cbn [log]. by rewrite <- !app_assoc. }
  destruct (Hloop (length rest)) as (w' & Hrun & Hlog).
  assert (Hout : ∀ known : option nat,
    (match known with
     | Some _ =>
         iread_loop fuel a true (-1) single (Some (c :: rest))
           (seq 0 (length (c :: rest))) (Locals SOURCE_DEVICE None None) []
     | None =>
         iread_loop fuel a true (-1) single (Some (c :: rest))
           (seq 0 (length (c :: rest))) (Locals SOURCE_DEVICE None None) []
     end) = iread_loop fuel a true (-1) single (Some (c :: rest))
              (seq 0 (S (length rest))) (Locals SOURCE_DEVICE None None) [])
    by (by intros []).
  rewrite Hout, Hrun. split; [done|]. unfold events_of. cbn [fst].
  by rewrite Hlog, drop_app_length.
Qed.

End Rebuild.

(** ** Removing a group that was not fully recorded *)

Section RemoveEdge.
Context `{Common} {R : Type} `{!OPCServer R}.

Lemma remove_sub_group_hook s (w : world R) :
  ∃ w1 evs,
    (if decide (is_Some (_group_hooks (client w) !! s)) then
       note (EvCloseEvents s) ;;;
       modify (λ c, set_group_hooks (<[s := HookClosed]> (_group_hooks c)) c)
     else ret tt) w = (w1, Ok tt)
    ∧ log w1 = log w ++ evs ∧ server w1 = server w
    ∧ _groups (client w1) = _groups (client w)
    ∧ (∀ k, entries (client w1) k = entries (client w) k).
Proof.
  destruct (decide _).
  - rewrite run_bind, run_note. cbn [fst snd]. rewrite run_modify.
    eexists _, [_]. by split_and!.
  - eexists _, []. rewrite run_ret, app_nil_r. by split_and!.
Qed.

Lemma remove_sub_groups_step g j gids (w : world R) :
  opens R → recorded (client w) (Some (sub_name g j)) →
  ∃ w1 evs,
    remove_sub_groups g (j :: gids) w = remove_sub_groups g gids w1
    ∧ log w1 = log w ++ evs
    ∧ _groups (client w1) = _groups (client w)
    ∧ (∀ k, k ≠ Some (sub_name g j) → entries (client w1) k = entries (client w) k).
Proof.
  intros (_ & _ & Hremove) ([t Ht] & [v Hv] & [hm Hh] & [sm Hs]).
  destruct (remove_sub_group_hook (sub_name g j) w)
    as (w0 & evs0 & Hhook & Hl0 & Hsv0 & Hg0 & He0).
  pose proof (He0 (Some (sub_name g j))) as Hent. unfold entries in Hent.
  injection Hent as Ht0 Hv0 Hh0 Hs0.
  simpl. rewrite run_bind, run_gets. cbn [fst snd]. rewrite run_bind, Hhook. grun. rewrite Hremove. grun. unfold py_del.
  match goal with
  | |- context [match ?l with Some _ => Ok ?d | None => Raise KeyError end] =>
      replace l with (Some t) by (symmetry; etrans; [exact Ht0|exact Ht])
  end.
  grun.
  match goal with
  | |- context [match ?l with Some _ => Ok ?d | None => Raise KeyError end] =>
      replace l with (Some v)
        by (symmetry; destruct (client w0); etrans; [exact Hv0|exact Hv])
  end.
  grun.
  match goal with
  | |- context [match ?l with Some _ => Ok ?d | None => Raise KeyError end] =>
      replace l with (Some hm)
        by (symmetry; destruct (client w0); etrans; [exact Hh0|exact Hh])
  end.
  grun.
  match goal with
  | |- context [match ?l with Some _ => Ok ?d | None => Raise KeyError end] =>
      replace l with (Some sm)
        by (symmetry; destruct (client w0); etrans; [exact Hs0|exact Hs])
  end.
  grun. eexists _, _. split; [done|]. cbn [log client].
  split; [by rewrite Hl0, <- app_assoc|].
  split; [by destruct (client w0)|].
  intros k Hk. rewrite <- He0. unfold entries.
  destruct (client w0). cbn. by rewrite !lookup_delete_ne.
Qed.

Lemma remove_sub_groups_missing g pre i post : ∀ (w : world R),
  opens R → NoDup (pre ++ [i]) →
  (∀ j, j ∈ pre → recorded (client w) (Some (sub_name g j))) →
  _group_tags (client w) !! Some (sub_name g i) = None →
  ∃ w' evs,
    remove_sub_groups g (pre ++ i :: post) w = (w', Raise KeyError)
    ∧ log w' = log w ++ evs ∧ EvRemoveGroup (sub_name g i) ∈ evs
    ∧ _groups (client w') = _groups (client w).
Proof.
  induction pre as [|j pre IH]; intros w Hopen Hnd Hrec Hmiss.
  - destruct (remove_sub_group_hook (sub_name g i) w)
      as (w0 & evs0 & Hhook & Hl0 & Hsv0 & Hg0 & He0).
    pose proof (He0 (Some (sub_name g i))) as Hent. unfold entries in Hent.
    injection Hent as Ht0 _ _ _.
    destruct Hopen as (_ & _ & Hremove).
    simpl. rewrite run_bind, run_gets. cbn [fst snd]. rewrite run_bind, Hhook. grun. rewrite Hremove. grun. unfold py_del.
    match goal with
    | |- context [match ?l with Some _ => Ok ?d | None => Raise KeyError end] =>
        replace l with (@None (list tag))
          by (symmetry; etrans; [exact Ht0|exact Hmiss])
    end.
    grun. eexists _, _. split; [done|]. cbn [log client].
    split; [by rewrite Hl0, <- app_assoc|]. split; [|done].
    rewrite elem_of_app. right. by left.
  - simpl in Hnd. apply NoDup_cons in Hnd as [Hj Hnd].
    destruct (remove_sub_groups_step g j (pre ++ i :: post) w Hopen)
      as (w1 & evs1 & Hrun & Hl1 & Hg1 & He1); [apply Hrec; by left|].
    assert (Hne : ∀ k, k ∈ pre ++ [i] → Some (sub_name g k) ≠ Some (sub_name g j)).
    { intros k Hk [= Heq]. apply sub_name_inj in Heq. by subst. }
    destruct (IH w1 Hopen Hnd) as (w' & evs & Hrun' & Hl' & Hin & Hg').
    + intros k Hk. unfold recorded.
      pose proof (He1 (Some (sub_name g k))
                    (Hne k ltac:(apply elem_of_app; by left))) as Hent.
      unfold entries in Hent. injection Hent as -> -> -> ->.
      apply Hrec. by right.
    + pose proof (He1 (Some (sub_name g i))
                    (Hne i ltac:(apply elem_of_app; right; by left))) as Hent.
      unfold entries in Hent. injection Hent as Ht' _ _ _.
      etrans; [exact Ht'|exact Hmiss].
    + exists w', (evs1 ++ evs).
      change ((j :: pre) ++ i :: post) with (j :: pre ++ i :: post).
      rewrite Hrun, Hrun'.
      split_and!; try done.
      * by rewrite Hl', Hl1, app_assoc.
      * apply elem_of_app. by right.
      * by rewrite Hg', Hg1.
Qed.

(** X19: a group with a sub-group the session has no entries for cannot
    be removed.  When the group map counts [n] sub-groups, the sub-groups
    below [i] have their entries and sub-group [i < n] has none in the tag
    cache, [remove] on a server that opens and removes groups removes the
    sub-groups up to [i] on the server, then raises [KeyError], and the
    group stays in the group map. *)
Theorem remove_unrecorded_sub_group_raises g n i (w : world R) :
  opens R → _groups (client w) !! g = Some n → (i < n)%nat →
  (∀ j, (j < i)%nat → recorded (client w) (Some (sub_name g j))) →
  _group_tags (client w) !! Some (sub_name g i) = None →
  (remove (GroupsStr g) w).2 = Raise KeyError
  ∧ _groups (client (remove (GroupsStr g) w).1) !! g = Some n
  ∧ EvRemoveGroup (sub_name g i) ∈ events_of w (remove (GroupsStr g) w).1.
Proof.
  intros Hopen Hn Hi Hrec Hmiss. pose proof Hopen as (Hco & _ & _).
  unfold remove. grun. rewrite Hco. grun. simpl. grun. rewrite Hn.
  assert (Hseq : seq 0 n = seq 0 i ++ i :: seq (S i) (n - S i)).
  { replace n with (i + S (n - S i))%nat at 1 by lia. by rewrite seq_app. }
  rewrite Hseq, run_bind.
  match goal with
  | |- context [remove_sub_groups g _ ?w0] =>
      destruct (remove_sub_groups_missing g (seq 0 i) i (seq (S i) (n - S i)) w0
                  Hopen) as (w' & evs & Hrun & Hl & Hin & Hg)
  end.
  - change [i] with (seq i 1). rewrite <- seq_app. apply NoDup_seq.
  - intros j Hj. apply elem_of_seq in Hj. apply Hrec. lia.
  - done.
  - rewrite Hrun. cbn [fst snd log client] in *.
    split_and!; [done|by rewrite Hg|].
    unfold events_of. rewrite Hl, <- app_assoc, drop_app_length.
    by right.
Qed.

(** X20: removing a group twice is removing it once.  When [remove]
    has returned for a name, the name has left the group map, and removing
    it again changes nothing in the session. *)
Theorem remove_twice g (w w' : world R) :
  remove (GroupsStr g) w = (w', Ok tt) →
  _groups (client w') !! g = None
  ∧ client (remove (GroupsStr g) w').1 = client w'.
Proof.
  intros Hrun.
  assert (Hgone : _groups (client w') !! g = None).
  { unfold remove in Hrun. mrun Hrun.
    destruct (CoInitialize (server w)) as [r0 [[]|hr]]; mrun Hrun; [|done].
    simpl in Hrun. mrun Hrun.
    destruct (_groups (client w) !! g) as [n|] eqn:Hn; mrun Hrun.
    - destruct (remove_sub_groups g (seq 0 n) _) as [w1 [[]|e|]] eqn:Hsub in Hrun;
        mrun Hrun; try done.
      unfold py_del in Hrun.
      destruct (_groups (client w1) !! g); mrun Hrun; [|done].
      injection Hrun as <-. cbn. apply lookup_delete_eq.
    - by injection Hrun as <-. }
  split; [done|]. unfold remove. grun.
  destruct (CoInitialize (server w')) as [r0 [[]|hr]]; grun; [|done].
  simpl. grun. by rewrite Hgone.
Qed.

End RemoveEdge.

(** ** The session stays coherent *)

Global Instance handles_grow_preorder : PreOrder handles_grow.
Proof.
  split.
  - intros c. split_and!; try done. intros k sm Hk. by exists sm.
  - intros c1 c2 c3 (T1 & V1 & S1) (T2 & V2 & S2). split_and!; try congruence.
    intros k sm Hk. destruct (S1 k sm Hk) as (sm' & Hk' & Hin).
    destruct (S2 k sm' Hk') as (sm'' & Hk'' & Hin'). exists sm''. eauto.
Qed.

Lemma handles_grow_coherent c c' :
  handles_grow c c' → coherent c → coherent c'.
Proof.
  intros (HT & HV & HS) Hc k v Hv. rewrite HV in Hv.
  destruct (Hc k v Hv) as [(t & Ht & Hin) (sm & Hsm & Hcov)]. split.
  - exists t. by rewrite HT.
  - destruct (HS k sm Hsm) as (sm' & Hsm' & Hgrow). exists sm'. eauto.
Qed.

Lemma same_maps_grow c c' : same_maps c c' → handles_grow c c'.
Proof.
  intros (_ & HT & HV & _ & HS). split_and!; try done.
  intros k sm Hk. exists sm. by rewrite HS.
Qed.

Global Instance preserves_preorder I : PreOrder (preserves I).
Proof.
  split; [intros c Hc; exact Hc|].
  intros c1 c2 c3 H1 H2 Hc. by apply H2, H1.
Qed.

Section Keeps.
Context {R : Type} (rel : Client → Client → Prop) `{!PreOrder rel}.

Lemma keeps_bind {A B} (m : M R A) (f : A → M R B) :
  keeps rel m → (∀ a, keeps rel (f a)) → keeps rel (bind m f).
Proof.
  intros Hm Hf w. unfold bind. pose proof (Hm w) as Hw.
  destruct (m w) as [w1 [a|e|]]; cbn in *; try done.
  etrans; [exact Hw|]. apply Hf.
Qed.

Lemma keeps_same {A} (m : M R A) : (∀ w, client (m w).1 = client w) → keeps rel m.
Proof. intros Hm w. by rewrite Hm. Qed.

Lemma keeps_obeys {A} Pev (Q : A → Prop) (rel' : Client → Client → Prop)
    (m : M R A) :
  obeys Pev rel' Q m → (∀ c c', rel' c c' → rel c c') → keeps rel m.
Proof. intros Hm Hrel w. destruct (Hm w) as (_ & Hw & _). by apply Hrel. Qed.

End Keeps.

Section Coherent.
Context `{Common} {R : Type} `{!OPCServer R}.
Local Abbreviation M := (M R).

Lemma record_server_handles_spec sub ie errors shs tags :
  ∀ i vt sh msgs (w w' : world R) o sm,
  record_server_handles sub ie errors shs i tags vt sh msgs w = (w', o) →
  _group_server_handles (client w) !! sub = Some sm →
  (∀ x, x ∈ vt → is_Some (sm !! x)) →
  handles_grow (client w) (client w')
  ∧ ∀ r, o = Ok r →
      (∀ x, x ∈ r.1.1 → x ∈ vt ∨ x ∈ tags)
      ∧ ∃ sm', _group_server_handles (client w') !! sub = Some sm'
               ∧ ∀ x, x ∈ r.1.1 → is_Some (sm' !! x).
Proof.
  induction tags as [|t tags IH]; intros i vt sh msgs w w' o sm Hrun Hsm Hvt.
  - simpl in Hrun. injection Hrun as <- <-. split; [done|].
    intros r [= <-]. cbn. split; [by left|]. by exists sm.
  - simpl in Hrun. mrun Hrun. unfold py_index in Hrun.
    destruct (errors !! i) as [e|]; mrun Hrun.
    2:{ injection Hrun as <- <-. by split. }
    destruct (decide (e = 0)) as [->|He]; mrun Hrun.
    + destruct (shs !! i) as [h|]; mrun Hrun.
      2:{ injection Hrun as <- <-. by split. }
      unfold py_getitem in Hrun.
      match type of Hrun with
      | context [match ?l with Some v => @?f v | None => _ end] =>
          replace l with (Some sm) in Hrun by (symmetry; exact Hsm)
      end.
      mrun Hrun.
      eapply IH in Hrun as (Hgrow & Hres).
      2:{ cbn. apply lookup_insert_eq. }
      2:{ intros x [Hx| ->%list_elem_of_singleton]%elem_of_app.
          - rewrite lookup_insert_is_Some.
            destruct (decide (t = x)); [by left|right]. split; [done|].
            by apply Hvt.
          - rewrite lookup_insert_eq. eauto. }
      split.
      * etrans; [|exact Hgrow]. destruct (client w). cbn in *.
        split_and!; try done. intros k sm0 Hk.
        destruct (decide (sub = k)) as [<-|Hne].
        -- assert (sm0 = sm) as ->
             by (apply (inj Some); etrans; [symmetry; exact Hk|exact Hsm]).
           eexists. split; [apply lookup_insert_eq|].
           intros x Hx. rewrite lookup_insert_is_Some.
           destruct (decide (t = x)); [by left|by right].
        -- exists sm0. split; [|done].
           etrans; [by apply lookup_insert_ne|exact Hk].
      * intros r Hr. destruct (Hres r Hr) as [Hin Hcov]. split; [|done].
        intros x Hx. destruct (Hin x Hx) as [Hx'|Hx'].
        -- apply elem_of_app in Hx' as [?| ->%list_elem_of_singleton];
             [by left|right; by left].
        -- right. by right.
    + assert (Hnext : ∀ ms,
        record_server_handles sub ie errors shs (S i) tags vt sh ms w = (w', o) →
        handles_grow (client w) (client w')
        ∧ ∀ r, o = Ok r →
            (∀ x, x ∈ r.1.1 → x ∈ vt ∨ x ∈ t :: tags)
            ∧ ∃ sm', _group_server_handles (client w') !! sub = Some sm'
                     ∧ ∀ x, x ∈ r.1.1 → is_Some (sm' !! x)).
      { intros ms Hms. eapply IH in Hms as (Hgrow & Hres); [|done..].
        split; [done|]. intros r Hr. destruct (Hres r Hr) as [Hin Hcov].
        split; [|done]. intros x Hx. destruct (Hin x Hx); [by left|].
        right. by right. }
      destruct ie; by apply Hnext in Hrun.
Qed.

Ltac hstep := ostep ltac:(done) ltac:(by (split_and!; try done; eauto)).

Lemma grow_set_handles m c :
  handles_grow c (set_group_handles_tag m c).
Proof. split_and!; try done. intros k sm Hk. by exists sm. Qed.

Lemma assign_handles_sub sub ie errors tags : ∀ i n vt ch msgs,
  obeys (R:=R) (λ _, True) handles_grow
    (λ r, ∀ x, x ∈ r.1.1 → x ∈ vt ∨ x ∈ tags)
    (assign_handles sub ie errors i tags n vt ch msgs).
Proof.
  induction tags as [|t tags IH]; intros i n vt ch msgs; simpl.
  - apply obeys_ret; inst. cbn. by left.
  - assert (Hnext : ∀ n' vt' ch' ms,
      (∀ x, x ∈ vt' → x ∈ vt ∨ x = t) →
      obeys (R:=R) (λ _, True) handles_grow
        (λ r, ∀ x, x ∈ r.1.1 → x ∈ vt ∨ x ∈ t :: tags)
        (assign_handles sub ie errors (S i) tags n' vt' ch' ms)).
    { intros n' vt' ch' ms Hvt'. eapply obeys_weaken; [apply IH|].
      intros r Hr x Hx. destruct (Hr x Hx) as [Hx'|Hx'].
      - destruct (Hvt' x Hx') as [?| ->]; [by left|right; by left].
      - right. by right. }
    eapply (obeys_bind _ _ (λ _, True)); inst; [by apply obeys_lift; inst|].
    intros e _. destruct (decide (e = 0)).
    + eapply (obeys_bind _ _ (λ _, True)); inst;
        [eapply obeys_weaken; [apply obeys_dict_get; inst|done]|].
      intros hm _. eapply (obeys_bind _ _ (λ _, True)); inst.
      { apply obeys_modify; inst; [|done]. intros c. apply grow_set_handles. }
      intros _ _. apply Hnext.
      intros x [?| ->%list_elem_of_singleton]%elem_of_app; eauto.
    + destruct ie; apply Hnext; eauto.
Qed.

Lemma first_handle_grows sub :
  obeys (R:=R) (λ _, True) handles_grow (λ _, True) (first_handle sub).
Proof.
  unfold first_handle.
  repeat ostep ltac:(done) ltac:(apply grow_set_handles).
Qed.

Lemma add_items_tail sub ie errs shs vt ms (tags : list tag)
    (w w' : world R) o :
  (server_map <~ gets _group_server_handles ;;
   (if decide (server_map !! sub = None) then
      modify (set_group_server_handles (<[sub := ∅]> server_map))
    else ret tt) ;;;
   record_server_handles sub ie errs shs 0 vt [] [] ms) w = (w', o) →
  (∀ x, x ∈ vt → x ∈ tags) →
  handles_grow (client w) (client w')
  ∧ ∀ r, o = Ok r →
      (∀ x, x ∈ r.1.1 → x ∈ tags)
      ∧ ∃ sm', _group_server_handles (client w') !! sub = Some sm'
               ∧ ∀ x, x ∈ r.1.1 → is_Some (sm' !! x).
Proof.
  intros Hrun Hvt. mrun Hrun.
  assert (Hfin : ∀ w5 sm,
    handles_grow (client w) (client w5) →
    _group_server_handles (client w5) !! sub = Some sm →
    record_server_handles sub ie errs shs 0 vt [] [] ms w5 = (w', o) →
    handles_grow (client w) (client w')
    ∧ ∀ r, o = Ok r →
        (∀ x, x ∈ r.1.1 → x ∈ tags)
        ∧ ∃ sm', _group_server_handles (client w') !! sub = Some sm'
                 ∧ ∀ x, x ∈ r.1.1 → is_Some (sm' !! x)).
  { intros w5 sm Hg5 Hsm Hrec.
    eapply record_server_handles_spec in Hrec as (Hg6 & Hres);
      [|exact Hsm|by intros x ?%elem_of_nil].
    split; [by etrans|]. intros r Hr. destruct (Hres r Hr) as [Hin Hcov].
    split; [|done]. intros x Hx.
    destruct (Hin x Hx) as [?%elem_of_nil|?]; [done|by apply Hvt]. }
  destruct (decide (_group_server_handles (client w) !! sub = None))
    as [Hnone|Hsome]; mrun Hrun.
  - eapply Hfin; [| |exact Hrun].
    + cbn. split_and!; try done. intros k sm Hk.
      destruct (decide (sub = k)) as [<-|Hne]; [exfalso; congruence|].
      exists sm. split; [|done]. etrans; [by apply lookup_insert_ne|exact Hk].
    + cbn. apply lookup_insert_eq.
  - destruct (_group_server_handles (client w) !! sub) as [sm|] eqn:Hsm;
      [|done].
    eapply Hfin; [done|exact Hsm|exact Hrun].
Qed.

Lemma add_items_grows g sub ie msgs tags (w w' : world R) o :
  add_items g sub ie msgs tags w = (w', o) →
  handles_grow (client w) (client w')
  ∧ ∀ r, o = Ok r →
      (∀ x, x ∈ r.1.1 → x ∈ tags)
      ∧ ∃ sm', _group_server_handles (client w') !! sub = Some sm'
               ∧ ∀ x, x ∈ r.1.1 → is_Some (sm' !! x).
Proof.
  intros Hrun. unfold add_items in Hrun.
  rewrite run_bind in Hrun.
  match type of Hrun with
  | context [com_or ?d ?m w] =>
      assert (Hval : ∃ w1 errors, com_or d m w = (w1, Ok errors)
                       ∧ client w1 = client w)
  end.
  { rewrite run_com_or, run_call.
    destruct (Validate g _ tags (server w)) as [r1 [errors|hr]];
      by eexists _, _. }
  destruct Hval as (w1 & errors & Hval & Hc1). rewrite Hval in Hrun.
  clear Hval. cbv beta iota in Hrun. rewrite run_bind in Hrun.
  destruct (first_handle_grows sub w1) as (_ & Hg1 & _).
  destruct (first_handle sub w1) as [w2 [n|e|]]; cbn [fst snd] in *;
    cbv beta iota in Hrun;
    [|injection Hrun as <- <-; split; [by rewrite <- Hc1|done]..].
  rewrite run_bind in Hrun.
  destruct (assign_handles_sub sub ie errors tags 0 n [] [] msgs w2)
    as (_ & Hg2 & Hq2).
  destruct (assign_handles sub ie errors 0 tags n [] [] msgs w2)
    as [w3 [[[vt ch] ms]|e|]]; cbn [fst snd] in *; cbv beta iota in Hrun;
    [|injection Hrun as <- <-; split; [rewrite <- Hc1; by etrans|done]..].
  assert (Hvt : ∀ x, x ∈ vt → x ∈ tags)
    by (intros x Hx; destruct (Hq2 x Hx) as [?%elem_of_nil|?]; done).
  rewrite run_bind in Hrun.
  match type of Hrun with
  | context [com_or ?d ?m w3] =>
      assert (Hadd : ∃ w4 r, com_or d m w3 = (w4, Ok r)
                       ∧ client w4 = client w3)
  end.
  { rewrite run_com_or, run_call.
    destruct (AddItems g _ vt ch (server w3)) as [r4 [r|hr]];
      by eexists _, _. }
  destruct Hadd as (w4 & [shs errs] & Hadd & Hc4). rewrite Hadd in Hrun.
  clear Hadd. cbv beta iota in Hrun.
  eapply add_items_tail in Hrun as (Hg5 & Hres); [|exact Hvt].
  split; [|done]. rewrite <- Hc1. etrans; [exact Hg1|].
  etrans; [exact Hg2|]. by rewrite <- Hc4.
Qed.

Local Abbreviation C := (keeps (R:=R) (preserves coherent)).

Lemma coherent_hooks m c : coherent c → coherent (set_group_hooks m c).
Proof. by destruct c. Qed.

Lemma coherent_groups m c : coherent c → coherent (set_groups m c).
Proof. by destruct c. Qed.

Lemma coherent_tx x c : coherent c → coherent (set_tx_id x c).
Proof. by destruct c. Qed.

Lemma coherent_queue q c : coherent c → coherent (set_callback_queue q c).
Proof. by destruct c. Qed.

(** Recording the tags and the valid tags of a sub-group. *)
Lemma coherent_record sub (tags valid : list tag) c sm :
  coherent c → (∀ x, x ∈ valid → x ∈ tags) →
  _group_server_handles c !! sub = Some sm →
  (∀ x, x ∈ valid → is_Some (sm !! x)) →
  coherent (set_group_valid_tags (<[sub := valid]> (_group_valid_tags
              (set_group_tags (<[sub := tags]> (_group_tags c)) c)))
              (set_group_tags (<[sub := tags]> (_group_tags c)) c)).
Proof.
  intros Hc Hin Hsm Hcov k v Hv. destruct c. cbn in *.
  destruct (decide (sub = k)) as [<-|Hne].
  - rewrite lookup_insert_eq in Hv. injection Hv as <-. split.
    + exists tags. split; [apply lookup_insert_eq|done].
    + by exists sm.
  - rewrite lookup_insert_ne in Hv by done.
    destruct (Hc k v Hv) as [(t & Ht & ?) ?]. split; [|done].
    exists t. split; [|done]. etrans; [by apply lookup_insert_ne|exact Ht].
Qed.

Lemma not_in_elem (l k : list tag) x : x ∈ not_in l k ↔ x ∈ l ∧ x ∉ k.
Proof. unfold not_in. rewrite list_elem_of_filter. tauto. Qed.

Lemma lookup_server_handles_client sub tags (w : world R) :
  client (lookup_server_handles sub tags w).1 = client w.
Proof.
  revert w. induction tags as [|t tags IH]; intros w; simpl; [done|].
  rewrite run_bind, run_dict_get. destruct (py_getitem _ _); try done.
  cbn [fst snd]. rewrite run_bind, run_lift. destruct (py_getitem _ _); try done.
  cbn [fst snd]. rewrite run_bind. specialize (IH w).
  by destruct (lookup_server_handles sub tags w) as [w1 [hs|e|]].
Qed.

Lemma remove_items_client og sub tags (w : world R) :
  client (remove_items og sub tags w).1 = client w.
Proof.
  unfold remove_items. rewrite run_bind.
  pose proof (lookup_server_handles_client sub tags w) as Hl.
  destruct (lookup_server_handles sub tags w) as [w1 [hs|e|]]; try done.
  cbn [fst snd] in *. rewrite run_bind, run_com, run_call.
  by destruct (RemoveItems og _ hs (server w1)) as [r [x|hr]].
Qed.

Lemma resolve_items_coherent a sync og sub new tgs gid loc :
  C (resolve_items a sync og sub new tgs gid loc).
Proof.
  intros w Hcoh. destruct (resolve_items a sync og sub new tgs gid loc w)
    as [w' o] eqn:Hrun. cbn [fst]. unfold resolve_items in Hrun.
  destruct new.
  - mrun Hrun.
    match type of Hrun with
    | context [(if negb sync then ?br1 else ?br2) ?w1] =>
        assert (Hhook : ∃ w2, (if negb sync then br1 else br2) w1 = (w2, Ok tt)
                  ∧ coherent (client w2))
    end.
    { destruct (negb sync); [rewrite run_bind, run_note; cbn [fst snd];
        rewrite run_modify|]; eexists; (split; [done|]); cbn [client];
        [by apply coherent_hooks|done]. }
    destruct Hhook as (w2 & Hhook & Hc2). rewrite Hhook in Hrun.
    clear Hhook. mrun Hrun.
    unfold chunk_of in Hrun. destruct tgs as [l|]; mrun Hrun;
      [|by injection Hrun as <- <-].
    destruct (py_index l gid) as [c|e|]; mrun Hrun;
      try (by injection Hrun as <- <-).
    destruct (add_items og sub (Arg.include_error a) ∅ c w2)
      as [w3 [[[vt shs] ms]|e|]] eqn:Hadd; mrun Hrun;
      apply add_items_grows in Hadd as (Hgrow & Hres);
      pose proof (handles_grow_coherent _ _ Hgrow Hc2) as Hc3;
      try (by injection Hrun as <- <-).
    destruct (Hres _ eq_refl) as (Hin & sm & Hsm & Hcov). cbn in Hin, Hcov.
    injection Hrun as <- <-. cbn [client]. by eapply coherent_record.
  - destruct (Arg.rebuild a) eqn:Hre.
    + mrun Hrun. unfold chunk_of in Hrun. destruct tgs as [l|]; mrun Hrun;
        [|by injection Hrun as <- <-].
      destruct (py_index l gid) as [c|e|]; mrun Hrun;
        try (by injection Hrun as <- <-).
      unfold py_getitem in Hrun.
      destruct (_group_valid_tags (client w) !! sub) as [cached|] eqn:Hcached;
        mrun Hrun; [|by injection Hrun as <- <-].
      (* what is known after adding *)
      match type of Hrun with
      | context [(if ?d then ?br1 else ?br2) w] =>
          assert (Hadd : ∃ w3 o3, (if d then br1 else br2) w = (w3, o3)
            ∧ handles_grow (client w) (client w3)
            ∧ ∀ r, o3 = Ok r →
                (∀ y, y ∈ r.1.1 → y ∈ cached ∨ y ∈ not_in c cached)
                ∧ ∃ sm, _group_server_handles (client w3) !! sub = Some sm
                        ∧ ∀ y, y ∈ r.1.1 → is_Some (sm !! y))
      end.
      { destruct (Hcoh sub cached Hcached) as [_ (sm0 & Hsm0 & Hcov0)].
        destruct (decide _).
        - rewrite run_bind.
          destruct (add_items og sub (Arg.include_error a) ∅ (not_in c cached) w)
            as [w3 [[[added shs] ms]|e|]] eqn:Hadd;
            apply add_items_grows in Hadd as (Hgrow & Hres);
            cbn [fst snd]; try (by eexists _, _).
          destruct (Hres _ eq_refl) as (Hin & sm & Hsm & Hcov).
          cbn in Hin, Hcov.
          rewrite run_bind, run_dict_get. unfold py_getitem.
          pose proof Hgrow as (HT & HV & HS). rewrite HV, Hcached.
          cbn [fst snd]. eexists _, _. split; [done|]. split; [done|].
          intros r [= <-]. cbn. split.
          + intros y [?|?]%elem_of_app; eauto.
          + exists sm. split; [done|].
            intros y [Hy|Hy]%elem_of_app; [|by apply Hcov].
            destruct (HS sub sm0 Hsm0) as (sm' & Hsm' & Hgr).
            assert (sm' = sm) as ->
              by (apply (inj Some); etrans; [symmetry; exact Hsm'|exact Hsm]).
            by apply Hgr, Hcov0.
        - eexists _, _. split; [done|]. split; [done|].
          intros r [= <-]. cbn. split; [by left|]. by exists sm0. }
      destruct Hadd as (w3 & o3 & Hadd & Hgrow & Hin3). rewrite Hadd in Hrun.
      clear Hadd. pose proof (handles_grow_coherent _ _ Hgrow Hcoh) as Hc3.
      destruct o3 as [[[valid shs] ms]|e|]; mrun Hrun;
        try (by injection Hrun as <- <-).
      destruct (Hin3 _ eq_refl) as (Hfrom & sm & Hsm & Hcov).
      cbn in Hfrom, Hcov.
      match type of Hrun with
      | context [(if ?d then ?br1 else ?br2) w3] =>
          assert (Hdel : ∃ w4 o4, (if d then br1 else br2) w3 = (w4, o4)
            ∧ client w4 = client w3
            ∧ ∀ v, o4 = Ok v →
                ∀ y, y ∈ v → y ∈ valid ∧ (y ∈ cached → y ∈ c))
      end.
      { destruct (decide (0 < length (not_in cached c))%nat) as [Hpos|Hpos].
        - rewrite run_bind.
          pose proof (remove_items_client og sub (not_in cached c) w3) as Hfr.
          destruct (remove_items og sub (not_in cached c) w3)
            as [w4 [[]|e|]]; cbn [fst snd] in *; try (by eexists _, _).
          eexists _, _. split; [done|]. split; [done|].
          intros v [= <-] y Hy. apply not_in_elem in Hy as [Hy Hnot].
          split; [done|]. intros Hyc.
          destruct (decide (y ∈ c)) as [|Hnc]; [done|]. exfalso.
          apply Hnot. by apply not_in_elem.
        - eexists _, _. split; [done|]. split; [done|].
          intros v [= <-] y Hy. split; [done|]. intros Hyc.
          destruct (decide (y ∈ c)) as [|Hnc]; [done|]. exfalso.
          assert (Hyn : y ∈ not_in cached c) by (by apply not_in_elem).
          destruct (not_in cached c); [by apply elem_of_nil in Hyn|].
          simpl in Hpos. lia. }
      destruct Hdel as (w4 & o4 & Hdel & Hc4 & Hv4). rewrite Hdel in Hrun.
      clear Hdel.
      destruct o4 as [v|e|]; mrun Hrun;
        try (injection Hrun as <- <-; by rewrite Hc4).
      injection Hrun as <- <-. cbn [client]. rewrite Hc4.
      eapply coherent_record; [done| |exact Hsm|].
      * intros y Hy. destruct (Hv4 v eq_refl y Hy) as [Hyv Hyc].
        destruct (Hfrom y Hyv) as [?|Hya]; [by apply Hyc|].
        by apply not_in_elem in Hya as [? _].
      * intros y Hy. destruct (Hv4 v eq_refl y Hy) as [Hyv _]. by apply Hcov.
    + mrun Hrun. unfold py_getitem in Hrun.
      destruct (_group_tags (client w) !! sub); mrun Hrun;
        [|by injection Hrun as <- <-].
      unfold py_getitem in Hrun.
      destruct (_group_valid_tags (client w) !! sub); mrun Hrun;
        [|by injection Hrun as <- <-].
      destruct sync; mrun Hrun; by injection Hrun as <- <-.
Qed.

Lemma coherent_same c c' : same_maps c c' → preserves coherent c c'.
Proof. intros Hs Hc. eapply handles_grow_coherent; [|exact Hc]. by apply same_maps_grow. Qed.

Ltac cstep :=
  ostep ltac:(done)
        ltac:(unfold preserves;
              first [ by apply coherent_hooks | by apply coherent_groups
                    | by apply coherent_tx | by apply coherent_queue ]).

Ltac cleaf :=
  eapply (keeps_obeys _ (λ _, True) (λ _, True) (preserves coherent));
  [repeat cstep|done].

Lemma sync_read_coherent a g valid loc : C (sync_read a g valid loc).
Proof.
  eapply keeps_obeys; [apply sync_read_known|]. apply coherent_same.
Qed.

Lemma async_read_coherent fuel a g sub valid loc :
  C (async_read fuel a g sub valid loc).
Proof.
  eapply keeps_obeys; [apply async_read_known|]. apply coherent_same.
Qed.

Lemma iread_group_coherent fuel a sync update single tgs gid loc status :
  C (iread_group fuel a sync update single tgs gid loc status).
Proof.
  unfold iread_group.
  apply keeps_bind; inst; [cleaf|intros _].
  apply keeps_bind; inst; [cleaf|intros _].
  apply keeps_bind; inst; [unfold open_group; cleaf|intros [[og sub] new]].
  apply keeps_bind; inst; [apply resolve_items_coherent
                          |intros [[[tags valid] loc'] errs]].
  apply keeps_bind; inst;
    [destruct sync; [apply sync_read_coherent|apply async_read_coherent]
    |intros [tm loc'']].
  apply keeps_bind; inst; [cleaf|intros st].
  apply keeps_bind; inst; [unfold close_anonymous; cleaf|intros _]. cleaf.
Qed.

Lemma iread_loop_coherent fuel a sync update single tgs gids : ∀ loc status,
  C (iread_loop fuel a sync update single tgs gids loc status).
Proof.
  induction gids as [|gid gids IH]; intros loc status; simpl; [cleaf|].
  apply keeps_bind; inst; [apply iread_group_coherent|]. intros r. apply IH.
Qed.

Lemma iread_coherent fuel tags a : C (iread fuel tags a).
Proof.
  unfold iread. apply keeps_bind; inst; [cleaf|intros _].
  destruct (type_check tags) as [[T single] valid].
  destruct (negb valid); [cleaf|].
  apply keeps_bind; inst; [cleaf|intros groups].
  destruct (_ ≫= _); [destruct (Arg.rebuild a)|]; apply iread_loop_coherent.
Qed.

Lemma py_del_ok `{Countable K} {V} (d d' : gmap K V) k :
  py_del d k = Ok d' → d' = delete k d.
Proof. unfold py_del. destruct (d !! k); by intros [= <-]. Qed.

Lemma py_del_raise `{Countable K} {V} (d : gmap K V) k e :
  py_del d k = Raise e → d !! k = None.
Proof. unfold py_del. by destruct (d !! k). Qed.

Lemma py_del_spins `{Countable K} {V} (d : gmap K V) k :
  py_del d k ≠ Spinning.
Proof. unfold py_del. by destruct (d !! k). Qed.

(** Forgetting a sub-group. *)
Lemma coherent_forget k c c' :
  coherent c →
  _group_valid_tags c' = delete k (_group_valid_tags c) →
  (∀ j, j ≠ k → _group_tags c' !! j = _group_tags c !! j) →
  (∀ j, j ≠ k →
     _group_server_handles c' !! j = _group_server_handles c !! j) →
  coherent c'.
Proof.
  intros Hc HV HT HS j v Hv. rewrite HV in Hv.
  apply lookup_delete_Some in Hv as [Hne Hv].
  rewrite HT, HS by done. by apply Hc.
Qed.

Lemma remove_sub_groups_coherent g gids : C (remove_sub_groups g gids).
Proof.
  induction gids as [|i gids IH]; [simpl; cleaf|].
  intros w Hcoh.
  destruct (remove_sub_groups g (i :: gids) w) as [w' o] eqn:Hrun.
  simpl in Hrun. cbn [fst]. mrun Hrun.
  match type of Hrun with
  | context [(if ?d then ?br1 else ?br2) w] =>
      assert (Hhook : ∃ w1, (if d then br1 else br2) w = (w1, Ok tt)
                ∧ _group_tags (client w1) = _group_tags (client w)
                ∧ _group_valid_tags (client w1) = _group_valid_tags (client w)
                ∧ _group_server_handles (client w1)
                  = _group_server_handles (client w))
  end.
  { destruct (decide _); [rewrite run_bind, run_note; cbn [fst snd];
      rewrite run_modify|]; eexists; (split; [done|]); by destruct w as [[]]. }
  destruct Hhook as (w1 & Hhook & HT & HV & HS). rewrite Hhook in Hrun.
  clear Hhook.
  assert (Hc1 : coherent (client w1)).
  { intros k v Hv. rewrite HV in Hv. rewrite HT, HS. by apply Hcoh. }
  clear HT HV HS Hcoh. mrun Hrun.
  destruct (GroupsRemove (sub_name g i) (server w1)) as [s1 [[]|hr]];
    mrun Hrun; [|by injection Hrun as <- <-].
  assert (Hgone : ∀ c, _group_valid_tags c
                       = delete (Some (sub_name g i))
                           (_group_valid_tags (client w1)) →
            (∀ j, j ≠ Some (sub_name g i) →
               _group_tags c !! j = _group_tags (client w1) !! j) →
            (∀ j, j ≠ Some (sub_name g i) → _group_server_handles c !! j
               = _group_server_handles (client w1) !! j) → coherent c)
    by (intros c; by apply coherent_forget).
  destruct (py_del (_group_tags (client w1)) (Some (sub_name g i)))
    as [dt|e|] eqn:Et; mrun Hrun; try (by injection Hrun as <- <-).
  apply py_del_ok in Et as ->.
  match type of Hrun with
  | context [py_del ?d ?k] => destruct (py_del d k) as [dv|e|] eqn:Ev
  end; mrun Hrun.
  2: { apply py_del_raise in Ev. injection Hrun as <- <-. cbn [client].
       apply Hgone.
       - destruct (client w1); cbn in *. by rewrite delete_id.
       - intros j Hj. destruct (client w1); cbn. by apply lookup_delete_ne.
       - intros j Hj. by destruct (client w1). }
  2: by apply py_del_spins in Ev.
  apply py_del_ok in Ev as ->.
  match type of Hrun with
  | context [py_del ?d ?k] => destruct (py_del d k) as [dh|e|] eqn:Eh
  end; mrun Hrun.
  2, 3: injection Hrun as <- <-; cbn [client]; apply Hgone;
       [ by destruct (client w1)
       | intros j Hj; destruct (client w1); cbn; by apply lookup_delete_ne
       | intros j Hj; by destruct (client w1) ].
  match type of Hrun with
  | context [py_del ?d ?k] => destruct (py_del d k) as [ds|e|] eqn:Es
  end; mrun Hrun.
  2, 3: injection Hrun as <- <-; cbn [client]; apply Hgone;
       [ by destruct (client w1)
       | intros j Hj; destruct (client w1); cbn; by apply lookup_delete_ne
       | intros j Hj; by destruct (client w1) ].
  apply py_del_ok in Es as ->.
  match type of Hrun with
  | remove_sub_groups g gids ?w2 = _ =>
      specialize (IH w2); rewrite Hrun in IH; apply IH
  end.
  cbn [client]. apply Hgone.
  - by destruct (client w1).
  - intros j Hj. destruct (client w1); cbn. by apply lookup_delete_ne.
  - intros j Hj. destruct (client w1); cbn. by apply lookup_delete_ne.
Qed.

Lemma remove_groups_coherent gs : C (remove_groups gs).
Proof.
  induction gs as [|g gs IH]; simpl; [cleaf|].
  apply keeps_bind; inst; [cleaf|intros known].
  destruct (known !! g); [|apply IH].
  apply keeps_bind; inst; [apply remove_sub_groups_coherent|intros _].
  apply keeps_bind; inst; [cleaf|intros d].
  apply keeps_bind; inst; [cleaf|intros d'].
  apply keeps_bind; inst; [|intros _; apply IH].
  eapply (keeps_obeys _ (λ _, True) (λ _, True) (preserves coherent));
    [|done].
  apply obeys_modify; inst; [|done]. intros c Hc. by destruct c.
Qed.

Lemma remove_coherent gs : C (remove gs).
Proof.
  unfold remove. apply keeps_bind; inst; [cleaf|intros _].
  apply remove_groups_coherent.
Qed.

Lemma new_client_coherent : coherent new_client.
Proof. intros k v Hv. cbn in Hv. by rewrite lookup_empty in Hv. Qed.

(** X21: the session stays coherent.  If every valid tag recorded for a
    sub-group is among the tags recorded for it and has a server handle
    recorded for it, then the same holds after a read, after a removal
    and after a write, whatever the arguments and however the call
    ends. *)
Theorem session_stays_coherent (w : world R) :
  coherent (client w) →
  (∀ fuel tags a, coherent (client (iread fuel tags a w).1))
  ∧ (∀ gs, coherent (client (remove gs w).1))
  ∧ (∀ p size pause ie, coherent (client (iwrite p size pause ie w).1)).
Proof.
  intros Hc. split_and!.
  - intros fuel tags a. by apply iread_coherent.
  - intros gs. by apply remove_coherent.
  - intros p size pause ie.
    destruct (iwrite_obeys p size pause ie w) as (_ & Hrel & _).
    by rewrite <- Hrel.
Qed.

End Coherent.

(** ** The constructor and [connect] *)

Lemma split_on_cons sep s : ∃ x l, split_on sep s = x :: l.
Proof.
  induction s as [|c s (x & l & IH)]; simpl; [by eexists _, _|].
  destruct (Ascii.eqb c sep); [by eexists _, _|]. rewrite IH. by eexists _, _.
Qed.

Lemma run_act {R A} (op : R → R * A) (w : world R) :
  act op w = (World (client w) (op (server w)).1 (log w), Ok (op (server w)).2).
Proof. unfold act. by destruct (op (server w)). Qed.

Section Connect.
Context {R : Type} `{!OPCServer R} `{!Platform R}.

Lemma try_servers_client self host n servers : ∀ w : world R,
  client (try_servers self servers n host w).1 = client w.
Proof.
  induction servers as [|s servers IH]; intros w; simpl; [done|].
  rewrite run_bind, run_act. cbn [fst snd].
  destruct (Connect s host (server w)) as [r [[]|hr]]; cbn [fst snd].
  - by rewrite run_bind, run_act.
  - destruct (decide (n = 1%nat)); [done|]. by rewrite IH.
Qed.

(** What [connect] leaves in the session and stores. *)
Lemma connect_stores self host srv (w : world R) :
  match (connect self host srv w).2 with
  | Ok l => forgotten (client w) (client (connect self host srv w).1)
            ∧ opc_server l = Some (requested self host srv).1
            ∧ client_name l = client_name self
  | _ => client (connect self host srv w).1 = client w
  end.
Proof.
  unfold connect. rewrite run_bind, run_com, run_call.
  destruct (CoInitialize (server w)) as [r0 [[]|hr]]; gnorm; [|done].
  destruct (requested self host srv) as [s h]. rewrite run_bind.
  match goal with
  | |- context [try_servers self ?l ?n h ?w0] =>
      pose proof (try_servers_client self h n l w0) as Hcl;
      destruct (try_servers self l n h w0) as [w1 [[]|e|]]
  end; cbn [fst snd client] in *; gnorm; try done.
  grun. cbn. rewrite Hcl. by split_and!.
Qed.

(** X22: a connection that succeeds forgets every group: the six maps of
    the session are empty afterwards, while the transaction counter and
    the callback queue are kept; the whole requested server string and
    the client name are what the client stores.  A connection that fails
    leaves the session as it was. *)
Theorem connect_forgets_groups self host srv (w : world R) :
  match (connect self host srv w).2 with
  | Ok l => forgotten (client w) (client (connect self host srv w).1)
            ∧ opc_server l = Some (requested self host srv).1
            ∧ client_name l = client_name self
  | _ => client (connect self host srv w).1 = client w
  end.
Proof. apply connect_stores. Qed.

Section Answers.
Variable f : string → option Z.
Hypothesis answers : connect_answers R f.

Lemma try_servers_one self host s (w : world R) :
  (try_servers self [s] 1 host w).2
  = match f s with None => Ok true | Some hr => Raise (com_error hr) end.
Proof.
  simpl. rewrite run_bind, run_act. cbn [fst snd].
  pose proof (answers s host (server w)) as Hs.
  destruct (Connect s host (server w)) as [r c]. cbn [fst snd] in *. subst c.
  destruct (f s); cbn [fst snd]; [done|]. by rewrite run_bind, run_act.
Qed.

Lemma try_servers_many self host n servers : n ≠ 1%nat → ∀ w : world R,
  (try_servers self servers n host w).2
  = Ok (existsb (λ s, bool_decide (f s = None)) servers).
Proof.
  intros Hn. induction servers as [|s servers IH]; intros w; simpl; [done|].
  rewrite run_bind, run_act. cbn [fst snd].
  pose proof (answers s host (server w)) as Hs.
  destruct (Connect s host (server w)) as [r c]. cbn [fst snd] in *. subst c.
  destruct (f s) as [hr|]; cbn [fst snd].
  - rewrite decide_False by done. rewrite IH.
    by rewrite bool_decide_eq_false_2.
  - by rewrite run_bind, run_act.
Qed.

(** X23: which way a connection attempt ends, on a platform that accepts
    or refuses a server by its name.  It succeeds exactly when one of
    the servers of the requested string is accepted; a single server
    that is refused gives that COM error; several servers that are all
    refused give the exception that no server could be connected. *)
Theorem connect_outcome self host srv (w : world R) :
  (CoInitialize (server w)).2 = ComOk tt →
  let servers := split_on ";" (requested self host srv).1 in
  match (connect self host srv w).2 with
  | Ok _ => ∃ s, s ∈ servers ∧ f s = None
  | Raise (com_error hr) => ∃ s, servers = [s] ∧ f s = Some hr
  | Raise (Exception msg) =>
      msg = "Connect: Cannot connect to any of the servers in the OPC_SERVER list"
      ∧ (1 < length servers)%nat ∧ ∀ s, s ∈ servers → is_Some (f s)
  | _ => False
  end.
Proof.
  intros Hco. cbn zeta. unfold connect.
  rewrite run_bind, run_com, run_call.
  destruct (CoInitialize (server w)) as [r0 c0]. cbn [fst snd] in *. subst c0.
  gnorm.
  destruct (requested self host srv) as [s h]. cbn [fst]. rewrite run_bind.
  destruct (split_on_cons ";" s) as (x & l & ->).
  match goal with
  | |- context [try_servers self ?l0 ?n h ?w0] =>
      set (w0' := w0); set (n' := n)
  end.
  destruct l as [|y l].
  - pose proof (try_servers_one self h x w0') as Hone. subst n'.
    change (length [x]) with 1%nat.
    destruct (try_servers self [x] 1 h w0') as [w1 o]. cbn [fst snd] in *.
    subst o. destruct (f x) as [hr|] eqn:Hx; cbn [fst snd].
    + by exists x.
    + grun. cbn. exists x. split; [apply list_elem_of_here|done].
  - assert (Hn : n' ≠ 1%nat) by (subst n'; simpl; lia).
    pose proof (try_servers_many self h n' (x :: y :: l) Hn w0') as Hmany.
    destruct (try_servers self (x :: y :: l) n' h w0') as [w1 o].
    cbn [fst snd] in *. subst o.
    destruct (existsb _ _) eqn:Hex; cbn [negb fst snd].
    + grun. cbn. apply existsb_exists in Hex as (z & Hz & Hfz).
      exists z. split; [by apply list_elem_of_In|].
      by apply bool_decide_eq_true in Hfz.
    + split; [done|]. split; [subst n'; simpl; lia|]. intros z Hz.
      destruct (f z) eqn:Hfz; [done|]. exfalso.
      assert (existsb (λ s0, bool_decide (f s0 = None)) (x :: y :: l) = true)
        as Hyes; [|congruence].
      apply existsb_exists. exists z. split; [by apply list_elem_of_In|].
      by apply bool_decide_eq_true.
Qed.

End Answers.

(** X24: reconnecting.  After a connection that succeeded, a call of
    [connect] that names no server goes to the server string and to the
    host that the client stored, whatever host the call names. *)
Theorem reconnect_uses_stored self host srv (w : world R) l :
  (connect self host srv w).2 = Ok l →
  ∀ host' (w' : world R),
    connect l host' None w'
    = connect l (opc_host l) (Some (requested self host srv).1) w'.
Proof.
  intros Hl host' w'.
  pose proof (connect_stores self host srv w) as Hc.
  rewrite Hl in Hc. destruct Hc as (_ & Hs & _).
  unfold connect, requested at 1 3. by rewrite Hs.
Qed.

Section Dispatch.
Variable f : string → option Z.
Hypothesis answers : dispatch_answers R f.

Lemma dispatch_spec n classes : ∀ i (w : world R),
  classes ≠ [] → (i + length classes = n)%nat →
  client (dispatch classes i n w).1 = client w
  ∧ match (dispatch classes i n w).2 with
    | Ok b => ∃ pre c post, classes = pre ++ c :: post ∧ b = Some c
                ∧ f c = None ∧ ∀ x, x ∈ pre → is_Some (f x)
    | Raise (com_error hr) =>
        (∀ x, x ∈ classes → is_Some (f x))
        ∧ f <$> last classes = Some (Some hr)
    | _ => False
    end.
Proof.
  induction classes as [|c classes IH]; intros i w Hne Hlen; [done|].
  simpl. rewrite run_bind, run_act. cbn [fst snd].
  pose proof (answers c (server w)) as Hc.
  destruct (EnsureDispatch c (server w)) as [r o]. cbn [fst snd] in *. subst o.
  destruct (f c) as [hr|] eqn:Hfc; cbn [fst snd].
  - destruct classes as [|c' classes].
    + rewrite decide_True by (simpl in Hlen; lia). cbn. split; [done|].
      split; [|by rewrite Hfc]. intros x ->%list_elem_of_singleton.
      by rewrite Hfc.
    + rewrite decide_False by (simpl in Hlen; lia).
      destruct (IH (S i) (World (client w) r (log w))) as [Hcl Hout];
        [done|simpl in *; lia|].
      split; [done|].
      destruct (dispatch (c' :: classes) (S i) n _) as [w1 [b|[]|]];
        cbn [fst snd] in *; try done.
      * destruct Hout as (pre & x & post & -> & -> & Hx & Hpre).
        exists (c :: pre), x, post. split_and!; try done.
        intros z [->|Hz]%elem_of_cons; [by rewrite Hfc|by apply Hpre].
      * destruct Hout as [Hall Hlast]. split; [|done].
        intros z [->|Hz]%elem_of_cons; [by rewrite Hfc|by apply Hall].
  - cbn. split; [done|]. exists [], c, classes. split_and!; try done.
    by intros x ?%elem_of_nil.
Qed.

(** X25: what the constructor binds.  On a platform that dispatches or
    refuses an automation class by its name, the constructor binds the
    first class of the list that dispatches, passing over the ones
    before it, and leaves a session with no group, no stored server and
    transaction counter 0; when no class dispatches it raises the COM
    error of the last one. *)
Theorem init_binds_first_class cls name (w : world R) :
  (CoInitialize (server w)).2 = ComOk tt →
  let classes :=
    split_on ";" (match cls with
                  | None => default OPC_CLASS (environ !! "OPC_CLASS")
                  | Some c => c
                  end) in
  match (init cls name w).2 with
  | Ok (l, bound) =>
      client (init cls name w).1 = new_client
      ∧ l = Link None None name
      ∧ ∃ pre c post, classes = pre ++ c :: post ∧ bound = Some c
          ∧ f c = None ∧ ∀ x, x ∈ pre → is_Some (f x)
  | Raise (com_error hr) =>
      (∀ x, x ∈ classes → is_Some (f x))
      ∧ f <$> last classes = Some (Some hr)
  | _ => False
  end.
Proof.
  intros Hco. cbn zeta. unfold init. rewrite run_bind, run_modify.
  gnorm. rewrite run_bind, run_com, run_call.
  gnorm. destruct (CoInitialize (server w)) as [r0 c0].
  cbn [fst snd] in *. subst c0. gnorm.
  set (classes := split_on ";" _). rewrite run_bind.
  match goal with
  | |- context [dispatch classes 0 ?n ?w0] =>
      destruct (dispatch_spec n classes 0 w0) as [Hcl Hout];
        [subst classes; by destruct (split_on_cons ";"
           (match cls with
            | None => default OPC_CLASS (environ !! "OPC_CLASS")
            | Some c => c
            end)) as (? & ? & ->)|done|];
      destruct (dispatch classes 0 n w0) as [w1 [b|[]|]]
  end; cbn [fst snd client] in *; try done.
  grun. cbn. split_and!; try done.
  rewrite Hcl. by destruct (client w).
Qed.

End Dispatch.

End Connect.

(** ** The statements at work *)

(** How the canned server and its platform answer. *)
Lemma canned_opens c : opens (Canned.state c).
Proof. split_and!; intros; cbn; eauto. Qed.

Lemma canned_finds c : finds (Canned.state c).
Proof. intros name r. cbn. eauto. Qed.

Lemma broken_validate_fails : validate_fails (Canned.state Canned.broken).
Proof. intros g n names r. cbn. eauto. Qed.

Lemma deaf_rejects_all : rejects_all (Canned.state Canned.deaf).
Proof.
  intros g n names r. cbn. eexists. split; [done|].
  split; [by rewrite length_fmap|]. apply Forall_fmap, Forall_forall.
  by intros.
Qed.

Lemma desk_connect_answers c : connect_answers (Canned.state c) Desk.connects.
Proof. intros s h r. cbn. unfold Desk.connects. by destruct (decide _). Qed.

Lemma desk_dispatch_answers c :
  dispatch_answers (Canned.state c) Desk.dispatches.
Proof. intros s r. cbn. unfold Desk.dispatches. by destruct (decide _). Qed.

(** X5 at work: chunks of size -1. *)
Lemma negative_size_does_nothing_witness :
  (iread 10 (TagsList ["T1"; "T2"]) (named "g" (Some (-1))) (Sim.fresh plant)).2
  = Ok []
  ∧ (iwrite (PairsList [("T1", VInt 1)]) (Some (-1)) 0 false
       (Sim.fresh plant)).2 = Ok [].
Proof.
  destruct (negative_size_does_nothing (-1) (Sim.fresh plant))
    as (Hread & Hwrite & _); [lia|reflexivity|].
  split.
  - rewrite (Hread 10%nat (TagsList ["T1"; "T2"]) ["T1"; "T2"] false
               (named "g" (Some (-1)))); [reflexivity..|left; reflexivity].
  - rewrite Hwrite. reflexivity.
Defined.

(** X6 at work: the group ["g"] of T1, T2, T3 read as if for T9. *)
Lemma known_group_read_uses_stored_tags_witness :
  iread 10 (TagsList ["T9"]) (named "g" None) three_tags
  = iread 10 (TagsList ["T1"]) (named "g" None) three_tags
  ∧ same_maps (client three_tags)
      (client (iread 10 (TagsList ["T1"]) (named "g" None) three_tags).1).
Proof.
  destruct (known_group_read_uses_stored_tags 10 (TagsList ["T1"]) ["T1"]
              false (named "g" None) "g" 2 three_tags)
    as (Hsame & Hmaps & _); [reflexivity..|].
  split; [|exact Hmaps]. by apply (Hsame (TagsList ["T9"]) ["T9"]).
Defined.

(** X7 at work: the server has restarted. *)
Lemma lost_sub_group_fails_read_witness :
  (iread 10 (TagsList ["T1"]) (named "g" None) lost_group).2 = Raise NameError
  ∨ ∃ hr, (iread 10 (TagsList ["T1"]) (named "g" None) lost_group).2
          = Raise (com_error hr).
Proof.
  apply (lost_sub_group_fails_read 10 (TagsList ["T1"]) ["T1"] false
           (named "g" None) "g" 1 lost_group); reflexivity.
Defined.

(** X8 at work. *)
Lemma read_health_tags_unsupported_witness :
  read 10 (TagsList ["@MemFree"]) Arg.default (Sim.fresh plant)
  = (Sim.fresh plant,
     Raise (AttributeError "'Client' object has no attribute '_read_health'")).
Proof.
  apply (read_health_tags_unsupported 10 (TagsList ["@MemFree"]) ["@MemFree"]
           false).
  - reflexivity.
  - discriminate.
  - repeat constructor.
Defined.

(** X9 at work: two tags read anonymously. *)
Lemma read_follows_request_witness :
  ∃ status,
    (iread 10 (TagsList ["T1"; "T2"]) Arg.default (Sim.fresh plant)).2
    = Ok status
    ∧ r_tag <$> status = [Some "T1"; Some "T2"].
Proof.
  destruct (read_follows_request 10 (TagsList ["T1"; "T2"]) ["T1"; "T2"] false
              Arg.default (Sim.fresh plant)
              (read 10 (TagsList ["T1"; "T2"]) Arg.default (Sim.fresh plant)).1
              (ReadMany (default [] (if (iread 10 (TagsList ["T1"; "T2"])
                                           Arg.default (Sim.fresh plant)).2
                                     is Ok status then Some status else None))))
    as (status & Hrun & Htags & _).
  - reflexivity.
  - repeat constructor.
  - exact I.
  - exact I.
  - vm_compute. reflexivity.
  - exists status. split; [by rewrite Hrun|exact Htags].
Defined.

(** X10 at work: an empty list, and one pair on the willing server. *)
Lemma write_follows_pairs_witness :
  write (λ _ _ _ _, ret []) (Ok 0) false (PairsList []) None 0 false
        Willing.fresh
  = (Willing.fresh, Raise IndexError)
  ∧ ∃ result,
      (iwrite (PairOne "T1" (VInt 1)) None 0 false Willing.fresh).2 = Ok result
      ∧ w_tag <$> result = [None].
Proof.
  destruct (write_follows_pairs (λ _ _ _ _, ret []) (Ok 0) false None 0 false
              Willing.fresh) as [Hempty Hpairs].
  split; [exact Hempty|].
  destruct (Hpairs 0 (PairOne "T1" (VInt 1))
              (write (λ _ _ _ _, ret []) (Ok 0) false (PairOne "T1" (VInt 1))
                 None 0 false Willing.fresh).1
              (WriteOne (default (WRec None "Error" None) (head (default []
                 (if (iwrite (PairOne "T1" (VInt 1)) None 0 false
                        Willing.fresh).2
                  is Ok result then Some result else None))))))
    as (pairs & single & result & Hp & Hrun & Htags & _).
  - reflexivity.
  - discriminate.
  - exact I.
  - vm_compute. reflexivity.
  - injection Hp as <- <-. exists result. by rewrite Hrun.
Defined.

(** X11 at work: two pairs on the server whose [Validate] call fails. *)
Lemma iwrite_validate_failure_witness :
  (iwrite (PairsList [("T1", VInt 1); ("T2", VInt 2)]) None 0 false
     (Canned.fresh Canned.broken)).2 = Raise IndexError.
Proof.
  apply (iwrite_validate_failure
           (PairsList [("T1", VInt 1); ("T2", VInt 2)])
           [("T1", VInt 1); ("T2", VInt 2)] false None 0 false
           (Canned.fresh Canned.broken)).
  - apply canned_opens.
  - apply broken_validate_fails.
  - reflexivity.
  - exact I.
Defined.

(** X12 at work: two pairs in chunks of one on the willing server. *)
Lemma iwrite_all_accepted_witness :
  ∃ result,
    (iwrite (PairsList [("T1", VInt 1); ("T2", VInt 2)]) (Some 1) 0 false
       Willing.fresh).2 = Ok result
    ∧ w_status <$> result = ["Success"; "Success"].
Proof.
  destruct (iwrite_all_accepted
              (PairsList [("T1", VInt 1); ("T2", VInt 2)])
              [("T1", VInt 1); ("T2", VInt 2)] false (Some 1) 0 false
              Willing.fresh) as (w' & result & Hrun & _ & Hstatus).
  - apply willing_agreeable.
  - reflexivity.
  - simpl. lia.
  - exists result. by rewrite Hrun.
Defined.

(** X13 at work: two pairs on the server that knows no tag. *)
Lemma iwrite_all_rejected_witness :
  ∃ result,
    (iwrite (PairsList [("T1", VInt 1); ("T2", VInt 2)]) None 0 false
       (Canned.fresh Canned.deaf)).2 = Ok result
    ∧ w_status <$> result = ["Error"; "Error"].
Proof.
  destruct (iwrite_all_rejected
              (PairsList [("T1", VInt 1); ("T2", VInt 2)])
              [("T1", VInt 1); ("T2", VInt 2)] false None 0 false
              (Canned.fresh Canned.deaf))
    as (w' & result & Hrun & _ & Hstatus & _).
  - apply canned_opens.
  - apply deaf_rejects_all.
  - reflexivity.
  - exact I.
  - exists result. by rewrite Hrun.
Defined.


(** X15 at work: a callback that carries T2 before T1. *)
Lemma async_records_show_callback_witness :
  ∃ tm recs,
    fill_async {[Some "g.0" := {[1 := "T1"; 2 := "T2"]}]} (Some "g.0")
      [VInt 5; VInt 6] [192; 192] [7; 8] 0 [2; 1] no_tagmaps = Ok tm
    ∧ assemble (H := Sim.common) (OPCServer0 := Sim.server) false false false
        ["T1"; "T2"] tm ["T1"] ∅ [] = Ok recs
    ∧ length recs = 1%nat.
Proof.
  destruct (async_records_show_callback (H := Sim.common)
              (OPCServer0 := Sim.server) false
              {[Some "g.0" := {[1 := "T1"; 2 := "T2"]}]} (Some "g.0")
              {[1 := "T1"; 2 := "T2"]} [2; 1] ["T2"; "T1"]
              [VInt 5; VInt 6] [192; 192] [7; 8] ["T1"; "T2"] ["T1"] ∅ [])
    as (tm & recs & Hfill & Hrecs & Hall).
  - reflexivity.
  - repeat constructor.
  - apply (bool_decide_unpack _). vm_compute. reflexivity.
  - reflexivity.
  - reflexivity.
  - reflexivity.
  - discriminate.
  - intros t Ht. set_solver.
  - exists tm, recs. split; [exact Hfill|]. split; [exact Hrecs|].
    by rewrite <- (Forall2_length _ _ _ Hall).
Defined.

(** X16 at work: the read that creates the group ["g"] of T1, T2, T3 in
    chunks of two. *)
Lemma named_read_registers_group_witness :
  _groups (client three_tags) !! "g" = Some 2%nat
  ∧ _group_tags (client three_tags) !! Some "g.1" = Some ["T3"].
Proof.
  destruct (named_read_registers_group 10 (TagsList ["T1"; "T2"; "T3"])
              ["T1"; "T2"; "T3"] false (named "g" (Some 2)) "g"
              (Sim.fresh plant) three_tags
              (default [] (if (iread 10 (TagsList ["T1"; "T2"; "T3"])
                                 (named "g" (Some 2)) (Sim.fresh plant)).2
                           is Ok status then Some status else None)))
    as (Hgroups & _ & Htags).
  - reflexivity.
  - reflexivity.
  - reflexivity.
  - reflexivity.
  - vm_compute. reflexivity.
  - vm_compute. repeat constructor.
  - split; [exact Hgroups|]. by apply (Htags 1%nat ["T3"]).
Defined.

(** X17 at work: the group ["g"] read again, this time for T9. *)
Lemma reread_returns_requested_tags_witness :
  r_tag <$> default [] (if (iread 10 (TagsList ["T9"]) (named "g" None)
                              three_tags).2
                        is Ok status then Some status else None)
  = [Some "T1"; Some "T2"; Some "T3"].
Proof.
  apply (reread_returns_requested_tags 10 (TagsList ["T1"; "T2"; "T3"])
           ["T1"; "T2"; "T3"] false (named "g" (Some 2)) "g"
           (Sim.fresh plant) three_tags
           (iread 10 (TagsList ["T9"]) (named "g" None) three_tags).1
           (default [] (if (iread 10 (TagsList ["T1"; "T2"; "T3"])
                              (named "g" (Some 2)) (Sim.fresh plant)).2
                        is Ok status then Some status else None))
           10 (TagsList ["T9"]) ["T9"] false (named "g" None)).
  - reflexivity.
  - reflexivity.
  - reflexivity.
  - reflexivity.
  - discriminate.
  - simpl. lia.
  - vm_compute. reflexivity.
  - vm_compute. repeat constructor.
  - reflexivity.
  - reflexivity.
  - reflexivity.
  - vm_compute. reflexivity.
Defined.

(** X18 at work: T1 is cached as valid and requested again. *)
Lemma rebuild_sync_without_new_tag_witness :
  (iread 10 (TagsList ["T1"]) (rebuild_sync "g") cached_tag).2
  = Raise NameError.
Proof.
  apply (rebuild_sync_without_new_tag 10 (TagsList ["T1"]) ["T1"] false
           (rebuild_sync "g") "g" ["T1"] [] ["T1"] cached_tag).
  - reflexivity.
  - apply canned_finds.
  - reflexivity.
  - reflexivity.
  - reflexivity.
  - reflexivity.
  - reflexivity.
  - reflexivity.
  - discriminate.
  - by intros t Ht.
  - by intros t Ht.
Defined.

(** X19 at work: one sub-group counted, none recorded. *)
Lemma remove_unrecorded_sub_group_raises_witness :
  (remove (GroupsStr "g") counted_only).2 = Raise KeyError
  ∧ _groups (client (remove (GroupsStr "g") counted_only).1) !! "g"
    = Some 1%nat.
Proof.
  destruct (remove_unrecorded_sub_group_raises "g" 1 0 counted_only)
    as (Hraise & Hkept & _).
  - apply canned_opens.
  - reflexivity.
  - lia.
  - intros j Hj. lia.
  - reflexivity.
  - by split.
Defined.

(** X20 at work: the group ["g"] removed twice. *)
Lemma remove_twice_witness :
  _groups (client (remove (GroupsStr "g") three_tags).1) !! "g" = None
  ∧ client (remove (GroupsStr "g") (remove (GroupsStr "g") three_tags).1).1
    = client (remove (GroupsStr "g") three_tags).1.
Proof.
  apply (remove_twice "g" three_tags (remove (GroupsStr "g") three_tags).1).
  vm_compute. reflexivity.
Defined.

(** X21 at work: from a new client through a read and a removal. *)
Lemma session_stays_coherent_witness :
  coherent (client three_tags)
  ∧ coherent (client (remove (GroupsStr "g") three_tags).1).
Proof.
  destruct (session_stays_coherent (Sim.fresh plant) new_client_coherent)
    as (Hread & _ & _).
  pose proof (Hread 10%nat (TagsList ["T1"; "T2"; "T3"]) (named "g" (Some 2)))
    as Hthree.
  split; [exact Hthree|].
  destruct (session_stays_coherent three_tags Hthree) as (_ & Hremove & _).
  exact (Hremove (GroupsStr "g")).
Defined.

(** X23 at work: the default server list, whose second server accepts,
    and a single server that refuses. *)
Lemma connect_outcome_witness :
  (∃ s, s ∈ ["Hci.TPNServer"; "Matrikon.OPC.Simulation"]
        ∧ Desk.connects s = None)
  ∧ (connect unconnected (Some "localhost") (Some "Hci.TPNServer")
       (Canned.fresh Canned.deaf)).2 = Raise (com_error (-2147467259)).
Proof.
  split.
  - pose proof (connect_outcome Desk.connects
                  (desk_connect_answers Canned.deaf) unconnected
                  (Some "localhost") None (Canned.fresh Canned.deaf)
                  eq_refl) as Hout.
    exact Hout.
  - pose proof (connect_outcome Desk.connects
                  (desk_connect_answers Canned.deaf) unconnected
                  (Some "localhost") (Some "Hci.TPNServer")
                  (Canned.fresh Canned.deaf) eq_refl) as Hout.
    cbv zeta in Hout.
    destruct (connect unconnected (Some "localhost") (Some "Hci.TPNServer")
                (Canned.fresh Canned.deaf)).2 as [l|[]|]; try done.
    + destruct Hout as (s & Hs & Hnone).
      apply list_elem_of_singleton in Hs as ->. discriminate.
    + destruct Hout as (s & [= <-] & [= <-]). reflexivity.
    + destruct Hout as (_ & Hlen & _). simpl in Hlen. lia.
Defined.

(** X24 at work: after connecting through the default list, a reconnect
    that names another host still goes to the stored one. *)
Lemma reconnect_uses_stored_witness :
  connect (Link (Some "Hci.TPNServer;Matrikon.OPC.Simulation")
             (Some "plant-pc") None) (Some "elsewhere") None
          (Canned.fresh Canned.deaf)
  = connect (Link (Some "Hci.TPNServer;Matrikon.OPC.Simulation")
               (Some "plant-pc") None) (Some "plant-pc")
            (Some "Hci.TPNServer;Matrikon.OPC.Simulation")
            (Canned.fresh Canned.deaf).
Proof.
  assert (Hfirst : (connect unconnected (Some "localhost") None
                      (Canned.fresh Canned.deaf)).2
                   = Ok (Link (Some "Hci.TPNServer;Matrikon.OPC.Simulation")
                           (Some "plant-pc") None))
    by (vm_compute; reflexivity).
  rewrite (reconnect_uses_stored unconnected (Some "localhost") None
             (Canned.fresh Canned.deaf) _ Hfirst (Some "elsewhere")
             (Canned.fresh Canned.deaf)).
  vm_compute. reflexivity.
Defined.

(** X25 at work: the default class list, whose second class
    dispatches. *)
Lemma init_binds_first_class_witness :
  (init None None (Canned.fresh Canned.deaf)).2
  = Ok (unconnected, Some "OPC.Automation").
Proof.
  pose proof (init_binds_first_class Desk.dispatches
                (desk_dispatch_answers Canned.deaf) None None
                (Canned.fresh Canned.deaf) eq_refl) as Hout.
  cbv zeta in Hout.
  destruct (init None None (Canned.fresh Canned.deaf)).2
    as [[l bound]|[]|]; try done.
  - destruct Hout as (_ & -> & pre & c & post & Hsplit & -> & Hc & Hpre).
    destruct pre as [|x pre].
    + injection Hsplit as <- _. discriminate.
    + injection Hsplit as <- Hrest. destruct pre as [|y pre].
      * by injection Hrest as <- _.
      * injection Hrest as <- Hrest. by destruct pre.
  - destruct Hout as [Hall _].
    destruct (Hall "OPC.Automation") as [z Hz];
      [vm_compute; constructor; constructor|vm_compute in Hz; discriminate].
Defined.
